(** * Interactive geometry core of the image cropping tool (script.js)

    A shallow embedding of the three classes that hold the geometry of the
    application: [ImageManager] (the viewport transform), [SelectionManager]
    (the selection store) and [EventHandler] (the pointer gestures), with
    the label of [CanvasRenderer], the file names of [ExportManager] and
    [focusSelection] of [ImageCropApp].

    Numbers.  JavaScript numbers are IEEE doubles; they are idealised here as
    rationals ([Q]), so every arithmetic identity below is exact and is stated
    up to [Qeq] ([==]).  Rounding is not modelled.

    Objects.  Every method that mutates [this] becomes a function from the
    old object to the new one.  The console/log calls are dropped. *)

From Stdlib Require Import QArith Qminmax Qabs Lqa Lia.
From Stdlib Require Import List String Ascii Bool Arith DecimalString DecimalNat.
Import ListNotations.

Open Scope Q_scope.

(* ------------------------------------------------------------------ *)
(** ** Numeric helpers *)

(** [a < b] on numbers, as a boolean. *)
Definition Qltb (a b : Q) : bool := negb (Qle_bool b a).

(** [a <= b] on numbers, as a boolean. *)
Definition Qleb (a b : Q) : bool := Qle_bool a b.

(* ------------------------------------------------------------------ *)
(** ** Points: the [{ x, y }] object literals *)

Module Point.
Record t : Type := mk { x : Q; y : Q }.

(** Equality of points up to the representation of their coordinates. *)
Definition eq (p q : t) : Prop := x p == x q /\ y p == y q.
End Point.

(** Rectangles: the [{ x, y, width, height }] object literals. *)
Module Rect.
Record t : Type := mk { x : Q; y : Q; width : Q; height : Q }.
End Rect.

(* ------------------------------------------------------------------ *)
(** ** ImageManager: the viewport transform *)

Module ImageManager.

(** The decoded image; only the two dimensions read by [loadImage]. *)
Record Image : Type := mkImage { img_width : Q; img_height : Q }.

(** The fields of the class.  [canvasWidth]/[canvasHeight] stand for
    [this.canvas.width]/[this.canvas.height]; [image = None] is
    [this.image === null]. *)
Record t : Type := mk {
  canvasWidth : Q;
  canvasHeight : Q;
  image : option Image;
  scale : Q;
  offsetX : Q;
  offsetY : Q;
  originalWidth : Q;
  originalHeight : Q;
  displayWidth : Q;
  displayHeight : Q;
  minScale : Q;
  maxScale : Q
}.

(** [constructor(canvas, ctx)] *)
Definition new (cw ch : Q) : t :=
  {| canvasWidth := cw; canvasHeight := ch;
     image := None;
     scale := 1;
     offsetX := 0; offsetY := 0;
     originalWidth := 0; originalHeight := 0;
     displayWidth := 0; displayHeight := 0;
     minScale := 0.1;
     maxScale := 5 |}.

Definition hasImage (st : t) : bool :=
  match image st with Some _ => true | None => false end.

Definition getScale (st : t) : Q := scale st.

(** The part of [loadImage]'s [img.onload] that writes the state, before
    it calls [fitImageToCanvas]. *)
Definition setImage (st : t) (img : Image) : t :=
  {| canvasWidth := canvasWidth st; canvasHeight := canvasHeight st;
     image := Some img;
     scale := scale st;
     offsetX := offsetX st; offsetY := offsetY st;
     originalWidth := img_width img; originalHeight := img_height img;
     displayWidth := displayWidth st; displayHeight := displayHeight st;
     minScale := minScale st; maxScale := maxScale st |}.

(** Assignment to [scale], [displayWidth], [displayHeight], [offsetX] and
    [offsetY] at once: the five fields the zoom methods write. *)
Definition withView (st : t) (s dw dh ox oy : Q) : t :=
  {| canvasWidth := canvasWidth st; canvasHeight := canvasHeight st;
     image := image st;
     scale := s;
     offsetX := ox; offsetY := oy;
     originalWidth := originalWidth st; originalHeight := originalHeight st;
     displayWidth := dw; displayHeight := dh;
     minScale := minScale st; maxScale := maxScale st |}.

(** Assignment to [offsetX] and [offsetY]. *)
Definition withOffset (st : t) (ox oy : Q) : t :=
  withView st (scale st) (displayWidth st) (displayHeight st) ox oy.

Definition fitImageToCanvas (st : t) : t :=
  match image st with
  | None => st
  | Some _ =>
      let canvasWidth := canvasWidth st in
      let canvasHeight := canvasHeight st in
      let margin := 20 in
      let availableWidth := canvasWidth - margin * 2 in
      let availableHeight := canvasHeight - margin * 2 in
      let scaleX := availableWidth / originalWidth st in
      let scaleY := availableHeight / originalHeight st in
      let scale0 := Qmin scaleX (Qmin scaleY 1) in
      let scale1 := Qmax scale0 (minScale st) in
      let displayWidth := originalWidth st * scale1 in
      let displayHeight := originalHeight st * scale1 in
      withView st scale1 displayWidth displayHeight
        ((canvasWidth - displayWidth) / 2)
        ((canvasHeight - displayHeight) / 2)
  end.

Definition setScaleKeepCentered (st : t) (newScale : Q) : t :=
  match image st with
  | None => st
  | Some _ =>
      let newScale := Qmax (minScale st) (Qmin newScale (maxScale st)) in
      let oldScale := scale st in
      if Qltb (Qabs (newScale - oldScale)) 0.001 then st
      else
        let displayWidth := originalWidth st * newScale in
        let displayHeight := originalHeight st * newScale in
        withView st newScale displayWidth displayHeight
          ((canvasWidth st - displayWidth) / 2)
          ((canvasHeight st - displayHeight) / 2)
  end.

Definition zoomIn (st : t) : t :=
  let newScale := Qmin (scale st * 1.2) (maxScale st) in
  setScaleKeepCentered st newScale.

Definition zoomOut (st : t) : t :=
  let newScale := Qmax (scale st / 1.2) (minScale st) in
  setScaleKeepCentered st newScale.

Definition constrainImagePosition (st : t) : t :=
  match image st with
  | None => st
  | Some _ =>
      let canvasWidth := canvasWidth st in
      let canvasHeight := canvasHeight st in
      let offsetX' :=
        if Qleb (displayWidth st) canvasWidth then
          let centerX := (canvasWidth - displayWidth st) / 2 in
          let maxDeviation := 100 in
          Qmax (centerX - maxDeviation)
               (Qmin (offsetX st) (centerX + maxDeviation))
        else
          let minVisibleWidth := Qmin 200 (displayWidth st * 0.3) in
          let maxOffsetX := minVisibleWidth - displayWidth st in
          let minOffsetX := canvasWidth - minVisibleWidth in
          Qmax maxOffsetX (Qmin (offsetX st) minOffsetX) in
      let offsetY' :=
        if Qleb (displayHeight st) canvasHeight then
          let centerY := (canvasHeight - displayHeight st) / 2 in
          let maxDeviation := 100 in
          Qmax (centerY - maxDeviation)
               (Qmin (offsetY st) (centerY + maxDeviation))
        else
          let minVisibleHeight := Qmin 200 (displayHeight st * 0.3) in
          let maxOffsetY := minVisibleHeight - displayHeight st in
          let minOffsetY := canvasHeight - minVisibleHeight in
          Qmax maxOffsetY (Qmin (offsetY st) minOffsetY) in
      withOffset st offsetX' offsetY'
  end.

(** [setScale(newScale, centerX = null, centerY = null)].  A missing
    argument is [None]; when either is missing both are replaced by the
    canvas centre. *)
Definition setScale (st : t) (newScale : Q) (centerX centerY : option Q) : t :=
  match image st with
  | None => st
  | Some _ =>
      let newScale := Qmax (minScale st) (Qmin newScale (maxScale st)) in
      let oldScale := scale st in
      if Qltb (Qabs (newScale - oldScale)) 0.001 then st
      else
        let '(centerX, centerY) :=
          match centerX, centerY with
          | Some cx, Some cy => (cx, cy)
          | _, _ => (canvasWidth st / 2, canvasHeight st / 2)
          end in
        let currentImageCenterX := offsetX st + displayWidth st / 2 in
        let currentImageCenterY := offsetY st + displayHeight st / 2 in
        let offsetFromImageCenterX := centerX - currentImageCenterX in
        let offsetFromImageCenterY := centerY - currentImageCenterY in
        let scaleRatio := newScale / oldScale in
        let displayWidth := originalWidth st * newScale in
        let displayHeight := originalHeight st * newScale in
        let newImageCenterX := centerX - offsetFromImageCenterX * scaleRatio in
        let newImageCenterY := centerY - offsetFromImageCenterY * scaleRatio in
        constrainImagePosition
          (withView st newScale displayWidth displayHeight
             (newImageCenterX - displayWidth / 2)
             (newImageCenterY - displayHeight / 2))
  end.

(** Canvas (surface) coordinates to image coordinates. *)
Definition canvasToImage (st : t) (canvasX canvasY : Q) : Point.t :=
  let imageX := (canvasX - offsetX st) / scale st in
  let imageY := (canvasY - offsetY st) / scale st in
  Point.mk imageX imageY.

(** Image coordinates to canvas (surface) coordinates. *)
Definition imageToCanvas (st : t) (imageX imageY : Q) : Point.t :=
  let canvasX := imageX * scale st + offsetX st in
  let canvasY := imageY * scale st + offsetY st in
  Point.mk canvasX canvasY.

Definition resetView (st : t) : t := fitImageToCanvas st.

Definition resetImageState (st : t) : t :=
  {| canvasWidth := canvasWidth st; canvasHeight := canvasHeight st;
     image := None;
     scale := 1;
     offsetX := 0; offsetY := 0;
     originalWidth := 0; originalHeight := 0;
     displayWidth := 0; displayHeight := 0;
     minScale := minScale st; maxScale := maxScale st |}.

Definition setZoomLevel (st : t) (level : Q) (keepCentered : bool) : t :=
  let scale := level / 100 in
  if keepCentered then setScaleKeepCentered st scale
  else setScale st scale None None.

Definition canZoomIn (st : t) : bool := Qltb (scale st) (maxScale st).
Definition canZoomOut (st : t) : bool := Qltb (minScale st) (scale st).

(** What a JavaScript caller receives from [canvasToImage]: [None] stands
    for [undefined].  The method has a single [return] of an object
    literal, on every path. *)
Definition canvasToImage_result (st : t) (canvasX canvasY : Q) : option Point.t :=
  Some (canvasToImage st canvasX canvasY).

(** The state relation kept by every writer of [scale]: the displayed
    size is the original size times the scale. *)
Definition display_consistent (st : t) : Prop :=
  displayWidth st == originalWidth st * scale st /\
  displayHeight st == originalHeight st * scale st.

(** [minScale <= scale <= maxScale]. *)
Definition scale_in_bounds (st : t) : Prop :=
  minScale st <= scale st /\ scale st <= maxScale st.

Definition getImageBounds (st : t) : Rect.t :=
  Rect.mk (offsetX st) (offsetY st) (displayWidth st) (displayHeight st).

(** Whether a canvas point lies on the displayed image. *)
Definition isPointInImage (st : t) (x y : Q) : bool :=
  let bounds := getImageBounds st in
  Qleb (Rect.x bounds) x && Qleb x (Rect.x bounds + Rect.width bounds) &&
  Qleb (Rect.y bounds) y && Qleb y (Rect.y bounds + Rect.height bounds).

(** The nearest canvas point on the displayed image. *)
Definition clampToImage (st : t) (x y : Q) : Point.t :=
  let bounds := getImageBounds st in
  Point.mk (Qmax (Rect.x bounds) (Qmin x (Rect.x bounds + Rect.width bounds)))
           (Qmax (Rect.y bounds) (Qmin y (Rect.y bounds + Rect.height bounds))).

End ImageManager.

(* ------------------------------------------------------------------ *)
(** ** Control flow of methods that may throw *)

(** A method either returns a value or throws [new Error(msg)]; in both
    cases the receiver is left in some state. *)
Inductive completion (A S : Type) : Type :=
| Returns (value : A) (st : S)
| Throws (msg : string) (st : S).
Arguments Returns {A S} value st.
Arguments Throws {A S} msg st.

Definition state_of {A S : Type} (c : completion A S) : S :=
  match c with Returns _ st => st | Throws _ st => st end.

Definition throws {A S : Type} (c : completion A S) : bool :=
  match c with Returns _ _ => false | Throws _ _ => true end.

(* ------------------------------------------------------------------ *)
(** ** Array helpers *)

(** [Array.prototype.findIndex]; [None] is [-1]. *)
Fixpoint findIndex {A : Type} (p : A -> bool) (l : list A) : option nat :=
  match l with
  | [] => None
  | a :: r => if p a then Some 0%nat else option_map S (findIndex p r)
  end.

(** [array.splice(index, 1)]. *)
Definition splice1 {A : Type} (index : nat) (l : list A) : list A :=
  firstn index l ++ skipn (S index) l.

(** In-place mutation, by [f], of the object that [array.find(p)] returns. *)
Fixpoint modifyFound {A : Type} (p : A -> bool) (f : A -> A) (l : list A) : list A :=
  match l with
  | [] => []
  | a :: r => if p a then f a :: r else a :: modifyFound p f r
  end.

(** In-place mutation, by [f], of the object held at [index]. *)
Fixpoint modifyAt {A : Type} (index : nat) (f : A -> A) (l : list A) : list A :=
  match l, index with
  | [], _ => []
  | a :: r, O => f a :: r
  | a :: r, S i => a :: modifyAt i f r
  end.

(** [a === b] where [a] may be [null] and [b] is a string. *)
Definition nullable_eqb (a : option string) (b : string) : bool :=
  match a with Some s => String.eqb s b | None => false end.

(** Decimal rendering of a number in a template literal. *)
Definition decimal (n : nat) : string := NilEmpty.string_of_uint (Nat.to_uint n).

(* ------------------------------------------------------------------ *)
(** ** Selections *)

Module Selection.

(** A selection object.  The [created] timestamp that [createSelection]
    also stores is read by none of the modelled methods and is left out. *)
Record t : Type := mk {
  id : string;
  x : Q;
  y : Q;
  width : Q;
  height : Q;
  active : bool
}.

Definition withId (newId : string) (s : t) : t :=
  mk newId (x s) (y s) (width s) (height s) (active s).

Definition withActive (a : bool) (s : t) : t :=
  mk (id s) (x s) (y s) (width s) (height s) a.

(** The object literal handed to [updateSelection]: any subset of the
    fields of a selection. *)
Record Bounds : Type := mkBounds {
  b_id : option string;
  b_x : option Q;
  b_y : option Q;
  b_width : option Q;
  b_height : option Q;
  b_active : option bool
}.

Definition pick {A : Type} (given : option A) (old : A) : A :=
  match given with Some v => v | None => old end.

(** [Object.assign(selection, bounds)]. *)
Definition assign (s : t) (b : Bounds) : t :=
  mk (pick (b_id b) (id s))
     (pick (b_x b) (x s))
     (pick (b_y b) (y s))
     (pick (b_width b) (width s))
     (pick (b_height b) (height s))
     (pick (b_active b) (active s)).

(** [{ x: ..., y: ... }], the literal of the drag gesture. *)
Definition bounds_xy (vx vy : Q) : Bounds :=
  mkBounds None (Some vx) (Some vy) None None None.

(** A whole selection object used as the source of [Object.assign]. *)
Definition bounds_of (s : t) : Bounds :=
  mkBounds (Some (id s)) (Some (x s)) (Some (y s))
           (Some (width s)) (Some (height s)) (Some (active s)).

(** The rectangle of a selection. *)
Definition rect (s : t) : Rect.t := Rect.mk (x s) (y s) (width s) (height s).

(** Everything of a selection but its id: the rectangle and the flag. *)
Definition payload (s : t) : Q * Q * Q * Q * bool :=
  (x s, y s, width s, height s, active s).

End Selection.

(* ------------------------------------------------------------------ *)
(** ** SelectionManager: the selection store *)

Module SelectionManager.

Record t : Type := mk {
  selections : list Selection.t;
  activeSelectionId : option string
}.

(** [constructor()] *)
Definition new : t := mk [] None.

(** [`selection_${n}`] *)
Definition selection_id (n : nat) : string := ("selection_" ++ decimal n)%string.

Definition hasId (id : string) (s : Selection.t) : bool :=
  String.eqb (Selection.id s) id.

Definition setActiveSelection (st : t) (id : string) : t :=
  let sels := map (Selection.withActive false) (selections st) in
  match find (hasId id) sels with
  | Some _ =>
      mk (modifyFound (hasId id) (Selection.withActive true) sels) (Some id)
  | None => mk sels (activeSelectionId st)
  end.

(** The error message of [createSelection]. *)
Definition tooSmall : string := "选择框尺寸太小".

Definition createSelection (st : t) (startX startY endX endY : Q)
  : completion Selection.t t :=
  let newId := (List.length (selections st) + 1)%nat in
  let selection :=
    Selection.mk (selection_id newId)
                 (Qmin startX endX)
                 (Qmin startY endY)
                 (Qabs (endX - startX))
                 (Qabs (endY - startY))
                 false in
  if Qltb (Selection.width selection) 1 || Qltb (Selection.height selection) 1
  then Throws tooSmall st
  else
    let pushed := mk (selections st ++ [selection]) (activeSelectionId st) in
    let st' := setActiveSelection pushed (Selection.id selection) in
    (* the returned reference is the pushed object, as it is now *)
    Returns (last (selections st') selection) st'.

Definition updateSelection (st : t) (id : string) (bounds : Selection.Bounds) : t :=
  mk (modifyFound (hasId id) (fun s => Selection.assign s bounds) (selections st))
     (activeSelectionId st).

(** The [forEach] of [renumberSelections], from position [index] on, with
    the running value of [this.activeSelectionId]. *)
Fixpoint renumberFrom (index : nat) (sels : list Selection.t)
         (activeId : option string) : list Selection.t * option string :=
  match sels with
  | [] => ([], activeId)
  | selection :: rest =>
      let newId := selection_id (index + 1) in
      if negb (String.eqb (Selection.id selection) newId) then
        let activeId' :=
          if nullable_eqb activeId (Selection.id selection)
          then Some newId else activeId in
        let '(rest', a) := renumberFrom (S index) rest activeId' in
        (Selection.withId newId selection :: rest', a)
      else
        let '(rest', a) := renumberFrom (S index) rest activeId in
        (selection :: rest', a)
  end.

Definition renumberSelections (st : t) : t :=
  let '(sels, a) := renumberFrom 0 (selections st) (activeSelectionId st) in
  mk sels a.

Definition deleteSelection (st : t) (id : string) : t :=
  match findIndex (hasId id) (selections st) with
  | Some index =>
      let sels := splice1 index (selections st) in
      let activeId :=
        if nullable_eqb (activeSelectionId st) id then None
        else activeSelectionId st in
      renumberSelections (mk sels activeId)
  | None => st
  end.

Definition getActiveSelection (st : t) : option Selection.t :=
  find Selection.active (selections st).

Definition getAllSelections (st : t) : list Selection.t := selections st.

Definition clearActiveSelection (st : t) : t :=
  mk (map (Selection.withActive false) (selections st)) None.

Definition reset (st : t) : t := mk [] None.

(** *** Sequences of store operations *)

Inductive op : Type :=
| Create (startX startY endX endY : Q)
| Update (id : string) (bounds : Selection.Bounds)
| Delete (id : string)
| SetActive (id : string)
| ClearActive
| Reset.

(** The store after one operation.  A [createSelection] that throws has
    not touched the store. *)
Definition step (st : t) (o : op) : t :=
  match o with
  | Create sx sy ex ey => state_of (createSelection st sx sy ex ey)
  | Update id b => updateSelection st id b
  | Delete id => deleteSelection st id
  | SetActive id => setActiveSelection st id
  | ClearActive => clearActiveSelection st
  | Reset => reset st
  end.

Definition run (st : t) (ops : list op) : t := fold_left step ops st.

Definition is_create_or_delete (o : op) : bool :=
  match o with Create _ _ _ _ | Delete _ => true | _ => false end.

(** An operation that does not write [active: true] through
    [Object.assign]. *)
Definition no_active_write (o : op) : bool :=
  match o with
  | Update _ b =>
      match Selection.b_active b with Some true => false | _ => true end
  | _ => true
  end.

(** [getAll().map(s => s.id)] *)
Definition ids (st : t) : list string :=
  map Selection.id (getAllSelections st).

(** [getAll().filter(s => s.active).length] *)
Definition activeCount (st : t) : nat :=
  List.length (filter Selection.active (getAllSelections st)).

(** [["selection_1"; ...; "selection_N"]] *)
Definition contiguous_ids (n : nat) : list string :=
  map selection_id (seq 1 n).

(** [["1"; ...; "N"]] *)
Definition bare_ids (n : nat) : list string :=
  map decimal (seq 1 n).

(** An operation whose bounds, if any, carry coordinates only: neither
    [id] nor [active]. *)
Definition coordinates_only (o : op) : bool :=
  match o with
  | Update _ b =>
      match Selection.b_id b, Selection.b_active b with
      | None, None => true
      | _, _ => false
      end
  | _ => true
  end.

(** Whenever a selection is active, [activeSelectionId] is its id. *)
Definition pointer_consistent (st : t) : Prop :=
  forall s : Selection.t,
    In s (selections st) -> Selection.active s = true ->
    activeSelectionId st = Some (Selection.id s).

End SelectionManager.

(* ------------------------------------------------------------------ *)
(** ** EventHandler: the pointer gestures *)

Module EventHandler.

Inductive Mode : Type := SelectMode | PanMode.

(** The eight handle names, in the order of the [handles] literal of
    [getResizeHandle]. *)
Inductive Handle : Type := NW | NE | SW | SE | N | S | W | E.

Definition handleName (h : Handle) : string :=
  match h with
  | NW => "nw" | NE => "ne" | SW => "sw" | SE => "se"
  | N => "n" | S => "s" | W => "w" | E => "e"
  end.

(** [str.includes(c)] for a one-character needle. *)
Fixpoint includesChar (c : ascii) (str : string) : bool :=
  match str with
  | EmptyString => false
  | String a rest => Ascii.eqb a c || includesChar c rest
  end.

Definition includes (h : Handle) (c : ascii) : bool :=
  includesChar c (handleName h).

(** The fields of the class.  [currentSelection] is a reference to an
    object of the store's array: it is kept as the position of that
    object, which is exact as long as the array is not spliced while the
    gesture lasts.  [originalSelection] is the copy [{ ...selection }]. *)
Record t : Type := mk {
  mode : Mode;
  isDrawing : bool;
  isDragging : bool;
  isResizing : bool;
  isPanning : bool;
  dragStartPos : Point.t;
  activeHandle : option Handle;
  currentSelection : option nat;
  originalSelection : option Selection.t
}.

(** [constructor(...)]; [originalSelection] is [undefined] there. *)
Definition new : t :=
  mk SelectMode false false false false (Point.mk 0 0) None None None.

(** Assignment of the four coordinates of a bounds object. *)
Definition withGeometry (b : Selection.t) (vx vy vw vh : Q) : Selection.t :=
  Selection.mk (Selection.id b) vx vy vw vh (Selection.active b).

(** The [switch (this.activeHandle)] of [resizeSelection]. *)
Definition applyHandle (h : Handle) (deltaX deltaY : Q) (b : Selection.t)
  : Selection.t :=
  let bx := Selection.x b in
  let byy := Selection.y b in
  let bw := Selection.width b in
  let bh := Selection.height b in
  match h with
  | NW => withGeometry b (bx + deltaX) (byy + deltaY) (bw - deltaX) (bh - deltaY)
  | NE => withGeometry b bx (byy + deltaY) (bw + deltaX) (bh - deltaY)
  | SW => withGeometry b (bx + deltaX) byy (bw - deltaX) (bh + deltaY)
  | SE => withGeometry b bx byy (bw + deltaX) (bh + deltaY)
  | N => withGeometry b bx (byy + deltaY) bw (bh - deltaY)
  | S => withGeometry b bx byy bw (bh + deltaY)
  | W => withGeometry b (bx + deltaX) byy (bw - deltaX) bh
  | E => withGeometry b bx byy (bw + deltaX) bh
  end.

Definition minSize : Q := 10.

(** The two [if (newBounds.* < minSize)] blocks. *)
Definition enforceMinSize (h : Handle) (original b : Selection.t) : Selection.t :=
  let b1 :=
    if Qltb (Selection.width b) minSize then
      let x1 :=
        if includes h "w"
        then Selection.x original + Selection.width original - minSize
        else Selection.x b in
      withGeometry b x1 (Selection.y b) minSize (Selection.height b)
    else b in
  if Qltb (Selection.height b1) minSize then
    let y1 :=
      if includes h "n"
      then Selection.y original + Selection.height original - minSize
      else Selection.y b1 in
    withGeometry b1 (Selection.x b1) y1 (Selection.width b1) minSize
  else b1.

(** The four assignments that keep the rectangle inside the image. *)
Definition clampToImageBounds (im : ImageManager.t) (b : Selection.t) : Selection.t :=
  let x1 := Qmax 0 (Selection.x b) in
  let y1 := Qmax 0 (Selection.y b) in
  let w1 := Qmin (Selection.width b) (ImageManager.originalWidth im - x1) in
  let h1 := Qmin (Selection.height b) (ImageManager.originalHeight im - y1) in
  withGeometry b x1 y1 w1 h1.

(** [newBounds] as [resizeSelection] computes it before the update. *)
Definition resizedBounds (im : ImageManager.t) (h : Handle)
           (original : Selection.t) (deltaX deltaY : Q) : Selection.t :=
  clampToImageBounds im
    (enforceMinSize h original (applyHandle h deltaX deltaY original)).

(** [resizeSelection(mouseX, mouseY)]; only the store is written. *)
Definition resizeSelection (eh : t) (im : ImageManager.t)
           (sm : SelectionManager.t) (mouseX mouseY : Q) : SelectionManager.t :=
  match currentSelection eh, activeHandle eh, originalSelection eh with
  | Some ref, Some handle, Some original =>
      match nth_error (SelectionManager.selections sm) ref with
      | Some current =>
          let mouseImageCoords := ImageManager.canvasToImage im mouseX mouseY in
          let startImageCoords :=
            ImageManager.canvasToImage im (Point.x (dragStartPos eh))
                                          (Point.y (dragStartPos eh)) in
          let deltaX := Point.x mouseImageCoords - Point.x startImageCoords in
          let deltaY := Point.y mouseImageCoords - Point.y startImageCoords in
          let newBounds := resizedBounds im handle original deltaX deltaY in
          SelectionManager.updateSelection sm (Selection.id current)
            (Selection.bounds_of newBounds)
      | None => sm
      end
  | _, _, _ => sm
  end.

(** The [isDrawing] branch of [handleMouseUp], as far as the store is
    concerned: the rectangle from [dragStartPos] (image coordinates) to
    the release point is committed when it is large enough. *)
Definition commitDrawing (eh : t) (im : ImageManager.t)
           (sm : SelectionManager.t) (x y : Q)
  : completion unit SelectionManager.t :=
  let imageCoords := ImageManager.canvasToImage im x y in
  let startX := Qmin (Point.x (dragStartPos eh)) (Point.x imageCoords) in
  let startY := Qmin (Point.y (dragStartPos eh)) (Point.y imageCoords) in
  let endX := Qmax (Point.x (dragStartPos eh)) (Point.x imageCoords) in
  let endY := Qmax (Point.y (dragStartPos eh)) (Point.y imageCoords) in
  let width := endX - startX in
  let height := endY - startY in
  if Qltb 10 width && Qltb 10 height then
    let ow := ImageManager.originalWidth im in
    let oh := ImageManager.originalHeight im in
    let clampedStartX := Qmax 0 (Qmin startX ow) in
    let clampedStartY := Qmax 0 (Qmin startY oh) in
    let clampedEndX := Qmax 0 (Qmin endX ow) in
    let clampedEndY := Qmax 0 (Qmin endY oh) in
    let clampedWidth := clampedEndX - clampedStartX in
    let clampedHeight := clampedEndY - clampedStartY in
    if Qltb 5 clampedWidth && Qltb 5 clampedHeight then
      match SelectionManager.createSelection sm clampedStartX clampedStartY
                                             clampedEndX clampedEndY with
      | Returns _ sm' => Returns tt sm'
      | Throws msg sm' => Throws msg sm'
      end
    else Returns tt sm
  else Returns tt sm.

(** The eight entries of the [handles] literal of [getResizeHandle], in
    their order. *)
Definition allHandles : list Handle := [NW; NE; SW; SE; N; S; W; E].

(** The canvas point of a handle of a selection. *)
Definition handlePosition (im : ImageManager.t) (selection : Selection.t)
           (h : Handle) : Point.t :=
  let canvasCoords :=
    ImageManager.imageToCanvas im (Selection.x selection) (Selection.y selection) in
  let canvasWidth := Selection.width selection * ImageManager.scale im in
  let canvasHeight := Selection.height selection * ImageManager.scale im in
  let cx := Point.x canvasCoords in
  let cy := Point.y canvasCoords in
  match h with
  | NW => Point.mk cx cy
  | NE => Point.mk (cx + canvasWidth) cy
  | SW => Point.mk cx (cy + canvasHeight)
  | SE => Point.mk (cx + canvasWidth) (cy + canvasHeight)
  | N => Point.mk (cx + canvasWidth / 2) cy
  | S => Point.mk (cx + canvasWidth / 2) (cy + canvasHeight)
  | W => Point.mk cx (cy + canvasHeight / 2)
  | E => Point.mk (cx + canvasWidth) (cy + canvasHeight / 2)
  end.

(** The test of the loop of [getResizeHandle] for one handle. *)
Definition onHandle (im : ImageManager.t) (mouseX mouseY : Q)
           (selection : Selection.t) (h : Handle) : bool :=
  let handleSize := 8 in
  let tolerance := handleSize / 2 in
  let handlePos := handlePosition im selection h in
  Qleb (Qabs (mouseX - Point.x handlePos)) tolerance &&
  Qleb (Qabs (mouseY - Point.y handlePos)) tolerance.

(** [getResizeHandle(mouseX, mouseY, selection)]; [None] is [null]. *)
Definition getResizeHandle (im : ImageManager.t) (mouseX mouseY : Q)
           (selection : Selection.t) : option Handle :=
  find (onHandle im mouseX mouseY selection) allHandles.

(** The test of the loop of [findSelectionAtPoint] for one selection. *)
Definition coversPoint (im : ImageManager.t) (canvasX canvasY : Q)
           (selection : Selection.t) : bool :=
  let canvasCoords :=
    ImageManager.imageToCanvas im (Selection.x selection) (Selection.y selection) in
  let canvasWidth := Selection.width selection * ImageManager.scale im in
  let canvasHeight := Selection.height selection * ImageManager.scale im in
  Qleb (Point.x canvasCoords) canvasX &&
  Qleb canvasX (Point.x canvasCoords + canvasWidth) &&
  Qleb (Point.y canvasCoords) canvasY &&
  Qleb canvasY (Point.y canvasCoords + canvasHeight).

(** A loop from the last position down to 0 that returns at the first
    hit; [None] when it runs to the end. *)
Fixpoint findLastIndex {A : Type} (p : A -> bool) (l : list A) : option nat :=
  match l with
  | [] => None
  | a :: r =>
      match findLastIndex p r with
      | Some i => Some (Datatypes.S i)
      | None => if p a then Some O else None
      end
  end.

(** [findSelectionAtPoint(canvasX, canvasY)]: the position of the object
    it returns; [None] is [null]. *)
Definition findSelectionAtPoint (im : ImageManager.t) (sm : SelectionManager.t)
           (canvasX canvasY : Q) : option nat :=
  findLastIndex (coversPoint im canvasX canvasY)
                (SelectionManager.getAllSelections sm).

Definition cancelCurrentOperation (eh : t) : t :=
  mk (mode eh) false false false false (dragStartPos eh) None None None.

Definition setMode (eh : t) (m : Mode) : t :=
  cancelCurrentOperation
    (mk m (isDrawing eh) (isDragging eh) (isResizing eh) (isPanning eh)
        (dragStartPos eh) (activeHandle eh) (currentSelection eh)
        (originalSelection eh)).

(** The value of [nextIndex] in [switchToNextSelection].  [findIndex]
    cannot miss there; were it to return -1, the two conditionals would
    give the last, resp. the first position, as written below. *)
Definition nextSelectionIndex (sm : SelectionManager.t) (reverse : bool) : nat :=
  let selections := SelectionManager.getAllSelections sm in
  match SelectionManager.getActiveSelection sm with
  | Some activeSelection =>
      match findIndex (SelectionManager.hasId (Selection.id activeSelection))
                      selections with
      | Some currentIndex =>
          if reverse then
            if Nat.ltb 0 currentIndex then (currentIndex - 1)%nat
            else (List.length selections - 1)%nat
          else
            if Nat.ltb currentIndex (List.length selections - 1)
            then (currentIndex + 1)%nat else O
      | None => if reverse then (List.length selections - 1)%nat else O
      end
  | None => O
  end.

(** [switchToNextSelection(reverse)] *)
Definition switchToNextSelection (sm : SelectionManager.t) (reverse : bool)
  : SelectionManager.t :=
  let selections := SelectionManager.getAllSelections sm in
  match selections with
  | [] => sm
  | first :: _ =>
      let nextIndex := nextSelectionIndex sm reverse in
      SelectionManager.setActiveSelection sm
        (Selection.id (nth nextIndex selections first))
  end.

(** The three objects the pointer handlers read and write. *)
Record world : Type := mkWorld {
  images : ImageManager.t;
  store : SelectionManager.t;
  handler : t
}.

(** The [isDragging] branch of [handleMouseMove]: the store after the
    move. *)
Definition dragSelection (eh : t) (im : ImageManager.t) (sm : SelectionManager.t)
           (x y : Q) : SelectionManager.t :=
  match currentSelection eh with
  | Some ref =>
      match nth_error (SelectionManager.selections sm) ref with
      | Some current =>
          let deltaX := x - Point.x (dragStartPos eh) in
          let deltaY := y - Point.y (dragStartPos eh) in
          let imageDeltaX := deltaX / ImageManager.scale im in
          let imageDeltaY := deltaY / ImageManager.scale im in
          let newX := Selection.x current + imageDeltaX in
          let newY := Selection.y current + imageDeltaY in
          let clampedX :=
            Qmax 0 (Qmin newX (ImageManager.originalWidth im - Selection.width current)) in
          let clampedY :=
            Qmax 0 (Qmin newY (ImageManager.originalHeight im - Selection.height current)) in
          SelectionManager.updateSelection sm (Selection.id current)
            (Selection.bounds_xy clampedX clampedY)
      | None => sm
      end
  | None => sm
  end.

Definition withDragStartPos (eh : t) (p : Point.t) : t :=
  mk (mode eh) (isDrawing eh) (isDragging eh) (isResizing eh) (isPanning eh)
     p (activeHandle eh) (currentSelection eh) (originalSelection eh).

(** [handleMouseDown(event)], with [(x, y)] the pointer position relative
    to the canvas.  Cursor styles, rendering and status messages are not
    part of the state. *)
Definition handleMouseDown (w : world) (x y : Q) : world :=
  let im := images w in
  let sm := store w in
  if negb (ImageManager.hasImage im) then w
  else
    let eh := withDragStartPos (handler w) (Point.mk x y) in
    match mode eh with
    | PanMode =>
        mkWorld im sm
          (mk (mode eh) (isDrawing eh) (isDragging eh) (isResizing eh) true
              (dragStartPos eh) (activeHandle eh) (currentSelection eh)
              (originalSelection eh))
    | SelectMode =>
        if negb (ImageManager.isPointInImage im x y) then mkWorld im sm eh
        else
          let imageCoords := ImageManager.canvasToImage im x y in
          let grabbed :=
            match findIndex Selection.active (SelectionManager.selections sm) with
            | Some ref =>
                match nth_error (SelectionManager.selections sm) ref with
                | Some activeSelection =>
                    match getResizeHandle im x y activeSelection with
                    | Some handle => Some (ref, activeSelection, handle)
                    | None => None
                    end
                | None => None
                end
            | None => None
            end in
          match grabbed with
          | Some (ref, activeSelection, handle) =>
              mkWorld im sm
                (mk (mode eh) (isDrawing eh) (isDragging eh) true (isPanning eh)
                    (dragStartPos eh) (Some handle) (Some ref) (Some activeSelection))
          | None =>
              match findSelectionAtPoint im sm x y with
              | Some ref =>
                  let clickedId :=
                    match nth_error (SelectionManager.selections sm) ref with
                    | Some clickedSelection => Selection.id clickedSelection
                    | None => EmptyString
                    end in
                  mkWorld im (SelectionManager.setActiveSelection sm clickedId)
                    (mk (mode eh) (isDrawing eh) true (isResizing eh) (isPanning eh)
                        (dragStartPos eh) (activeHandle eh) (Some ref)
                        (originalSelection eh))
              | None =>
                  mkWorld im (SelectionManager.clearActiveSelection sm)
                    (mk (mode eh) true (isDragging eh) (isResizing eh) (isPanning eh)
                        imageCoords (activeHandle eh) (currentSelection eh)
                        (originalSelection eh))
              end
          end
    end.

(** [handleMouseMove(event)]. *)
Definition handleMouseMove (w : world) (x y : Q) : world :=
  let im := images w in
  let sm := store w in
  let eh := handler w in
  if negb (ImageManager.hasImage im) then w
  else if isPanning eh then
    let deltaX := x - Point.x (dragStartPos eh) in
    let deltaY := y - Point.y (dragStartPos eh) in
    mkWorld
      (ImageManager.withOffset im (ImageManager.offsetX im + deltaX)
                                  (ImageManager.offsetY im + deltaY))
      sm (withDragStartPos eh (Point.mk x y))
  else if isDrawing eh then w
  else if isResizing eh
          && (match currentSelection eh with Some _ => true | None => false end)
          && (match activeHandle eh with Some _ => true | None => false end)
  then mkWorld im (resizeSelection eh im sm x y) eh
  else if isDragging eh
          && (match currentSelection eh with Some _ => true | None => false end)
  then mkWorld im (dragSelection eh im sm x y) (withDragStartPos eh (Point.mk x y))
  else w.

(** [handleMouseUp(event)].  The exception of [createSelection] would
    leave the method at the call. *)
Definition handleMouseUp (w : world) (x y : Q) : completion unit world :=
  let im := images w in
  let sm := store w in
  let eh := handler w in
  if isPanning eh then
    Returns tt
      (mkWorld im sm
         (mk (mode eh) (isDrawing eh) (isDragging eh) (isResizing eh) false
             (dragStartPos eh) (activeHandle eh) (currentSelection eh)
             (originalSelection eh)))
  else if negb (ImageManager.hasImage im) then Returns tt w
  else if isDrawing eh then
    match commitDrawing eh im sm x y with
    | Returns _ sm' =>
        Returns tt
          (mkWorld im sm'
             (mk (mode eh) false (isDragging eh) (isResizing eh) (isPanning eh)
                 (dragStartPos eh) (activeHandle eh) None (originalSelection eh)))
    | Throws msg sm' => Throws msg (mkWorld im sm' eh)
    end
  else if isResizing eh then
    Returns tt
      (mkWorld im sm
         (mk (mode eh) (isDrawing eh) (isDragging eh) false (isPanning eh)
             (dragStartPos eh) None None None))
  else if isDragging eh then
    Returns tt
      (mkWorld im sm
         (mk (mode eh) (isDrawing eh) false (isResizing eh) (isPanning eh)
             (dragStartPos eh) (activeHandle eh) None (originalSelection eh)))
  else
    Returns tt
      (mkWorld im sm
         (mk (mode eh) (isDrawing eh) (isDragging eh) (isResizing eh) (isPanning eh)
             (dragStartPos eh) (activeHandle eh) None (originalSelection eh))).

(** [handleWheel(event)], with the pointer position relative to the
    canvas and the sign test of [event.deltaY] as a boolean. *)
Definition handleWheel (im : ImageManager.t) (mouseX mouseY : Q)
           (deltaYPositive : bool) : ImageManager.t :=
  if negb (ImageManager.hasImage im) then im
  else if Qltb mouseX 0 || Qltb (ImageManager.canvasWidth im) mouseX
          || Qltb mouseY 0 || Qltb (ImageManager.canvasHeight im) mouseY
  then im
  else
    let zoomFactor := if deltaYPositive then 0.9 else 1.1 in
    let currentScale := ImageManager.getScale im in
    let newScale := currentScale * zoomFactor in
    ImageManager.setScale im newScale (Some mouseX) (Some mouseY).

(** No gesture is in progress. *)
Definition idle (eh : t) : Prop :=
  isDrawing eh = false /\ isDragging eh = false /\
  isResizing eh = false /\ isPanning eh = false /\
  activeHandle eh = None /\ currentSelection eh = None /\
  originalSelection eh = None.

End EventHandler.

(* ------------------------------------------------------------------ *)
(** ** String helpers *)

(** [string.split(separator)] for a separator of one character. *)
Fixpoint split (separator : ascii) (s : string) : list string :=
  match s with
  | EmptyString => [EmptyString]
  | String c r =>
      if Ascii.eqb c separator then EmptyString :: split separator r
      else
        match split separator r with
        | piece :: pieces => String c piece :: pieces
        | [] => [String c EmptyString]
        end
  end.

(** [string.endsWith(suffix)]: the string is the suffix, or its tail ends
    with it. *)
Fixpoint endsWith (s suffix : string) : bool :=
  String.eqb s suffix ||
  match s with
  | EmptyString => false
  | String _ r => endsWith r suffix
  end.

(* ------------------------------------------------------------------ *)
(** ** CanvasRenderer: the label of a selection *)

Module CanvasRenderer.

(** [getSelectionIndex(targetSelection)], the text drawn after the word
    of the label; [None] is [undefined]. *)
Definition getSelectionIndex (targetSelection : Selection.t) : option string :=
  nth_error (split "_" (Selection.id targetSelection)) 1.

End CanvasRenderer.

(* ------------------------------------------------------------------ *)
(** ** ExportManager: file names *)

Module ExportManager.

(** The two fields of the export configuration that name a file; the
    quality and the directory handle do not. *)
Record Config : Type := mkConfig { prefix : string; format : string }.

(** [generateFilename(config, index)] *)
Definition generateFilename (config : Config) (index : nat) : string :=
  let extension :=
    if String.eqb (format config) "jpeg" then "jpg"%string else format config in
  (prefix config ++ "_" ++ decimal index ++ "." ++ extension)%string.

(** The [mimeType] that [cropSelection] reads off the file name. *)
Definition mimeType (filename : string) : string :=
  if endsWith filename ".jpg" then "image/jpeg"%string
  else if endsWith filename ".webp" then "image/webp"%string
  else "image/png"%string.

End ExportManager.

(* ------------------------------------------------------------------ *)
(** ** ImageCropApp: the selection list *)

Module ImageCropApp.

(** [focusSelection(selectionId)] on a canvas of the given size: the
    image manager and the store after the call. *)
Definition focusSelection (canvasWidth canvasHeight : Q)
           (im : ImageManager.t) (sm : SelectionManager.t) (selectionId : string)
  : ImageManager.t * SelectionManager.t :=
  match find (SelectionManager.hasId selectionId)
             (SelectionManager.getAllSelections sm) with
  | None => (im, sm)
  | Some selection =>
      let sm' := SelectionManager.setActiveSelection sm selectionId in
      let centerX := Selection.x selection + Selection.width selection / 2 in
      let centerY := Selection.y selection + Selection.height selection / 2 in
      let canvasCenter := ImageManager.imageToCanvas im centerX centerY in
      if Qltb (Point.x canvasCenter) 0 || Qltb canvasWidth (Point.x canvasCenter)
         || Qltb (Point.y canvasCenter) 0 || Qltb canvasHeight (Point.y canvasCenter)
      then
        (ImageManager.withOffset im
           (canvasWidth / 2 - centerX * ImageManager.scale im)
           (canvasHeight / 2 - centerY * ImageManager.scale im),
         sm')
      else (im, sm')
  end.

End ImageCropApp.

(* ------------------------------------------------------------------ *)
(** ** Specification vocabulary *)

(** The bounds written by the constructor of [ImageManager], which no
    method changes afterwards. *)
Definition constructor_bounds (st : ImageManager.t) : Prop :=
  ImageManager.minScale st == 0.1 /\ ImageManager.maxScale st == 5.

(** Convergence of a sequence of numbers to a limit. *)
Definition converges_to (f : nat -> Q) (l : Q) : Prop :=
  forall eps : Q, 0 < eps ->
    exists N : nat, forall n : nat, (N <= n)%nat -> Qabs (f n - l) < eps.

(** The anchor of [setScale]: the given centre, or the canvas centre when
    an argument is missing. *)
Definition anchorOf (st : ImageManager.t) (centerX centerY : option Q) : Point.t :=
  match centerX, centerY with
  | Some cx, Some cy => Point.mk cx cy
  | _, _ => Point.mk (ImageManager.canvasWidth st / 2)
                     (ImageManager.canvasHeight st / 2)
  end.

(** [Math.max(minScale, Math.min(newScale, maxScale))] *)
Definition clampScale (st : ImageManager.t) (newScale : Q) : Q :=
  Qmax (ImageManager.minScale st) (Qmin newScale (ImageManager.maxScale st)).

(** A loaded 400x300 image shown at scale 1 on an 800x600 canvas. *)
Definition sampleView : ImageManager.t :=
  ImageManager.fitImageToCanvas
    (ImageManager.setImage (ImageManager.new 800 600)
                           (ImageManager.mkImage 400 300)).

(** The same image at scale 4.9995, just under [maxScale]. *)
Definition nearMaxView : ImageManager.t :=
  ImageManager.withView sampleView 4.9995 (400 * 4.9995) (300 * 4.9995) 0 0.

(** The same image at scale 0.1005, just above [minScale]. *)
Definition nearMinView : ImageManager.t :=
  ImageManager.withView sampleView 0.1005 (400 * 0.1005) (300 * 0.1005) 0 0.

(** The states on which the zoom bounds are stated: an image is loaded,
    the bounds are the constructor's and the scale lies between them. *)
Definition zoom_ready (st : ImageManager.t) : Prop :=
  ImageManager.hasImage st = true /\
  constructor_bounds st /\
  ImageManager.scale_in_bounds st.

(** [n] applications of [zoomIn] / [zoomOut]. *)
Definition zoomInTimes (n : nat) (st : ImageManager.t) : ImageManager.t :=
  Nat.iter n ImageManager.zoomIn st.

Definition zoomOutTimes (n : nat) (st : ImageManager.t) : ImageManager.t :=
  Nat.iter n ImageManager.zoomOut st.

(** The least scale reachable by [n] unclamped steps up from [minScale],
    and the greatest reachable by [n] unclamped steps down from
    [maxScale]. *)
Fixpoint growth (n : nat) : Q :=
  match n with O => 0.1 | S k => growth k * 1.2 end.

Fixpoint decay (n : nat) : Q :=
  match n with O => 5 | S k => decay k / 1.2 end.

(** The scenario of the numbering test: three selections, the second one
    deleted, a fourth one created. *)
Definition threeCreates : list SelectionManager.op :=
  [ SelectionManager.Create 10 10 50 50;
    SelectionManager.Create 60 60 100 100;
    SelectionManager.Create 110 110 150 150 ].

Definition numberingScenario : list SelectionManager.op :=
  threeCreates ++
  [ SelectionManager.Delete "selection_2";
    SelectionManager.Create 160 160 200 200 ].

(** A bounds object that carries nothing but [active: true]. *)
Definition activeOnly : Selection.Bounds :=
  Selection.mkBounds None None None None None (Some true).

(** Number of selections of a list with [active = true]. *)
Definition countActive (l : list Selection.t) : nat :=
  List.length (filter Selection.active l).

(** An operation that switches on a second selection: an update that
    passes [active: true] to a stored selection that is inactive, while
    some selection of the store is active. *)
Definition switchesOnSecond (st : SelectionManager.t) (o : SelectionManager.op)
  : bool :=
  match o with
  | SelectionManager.Update id bounds =>
      match Selection.b_active bounds,
            find (SelectionManager.hasId id) (SelectionManager.selections st) with
      | Some true, Some target =>
          negb (Selection.active target)
          && existsb Selection.active (SelectionManager.selections st)
      | _, _ => false
      end
  | _ => false
  end.

(** No operation of the sequence, applied to the store it meets when the
    sequence is run from [st], switches on a second selection. *)
Fixpoint neverSwitchesOnSecond (st : SelectionManager.t)
         (ops : list SelectionManager.op) : bool :=
  match ops with
  | [] => true
  | o :: rest =>
      negb (switchesOnSecond st o)
      && neverSwitchesOnSecond (SelectionManager.step st o) rest
  end.

(** Three creates, the write-back of a resize gesture on the active third
    selection (all the fields of the snapshot, [active: true] included), a
    switch to the first selection, a write-back on it and a clear. *)
Definition resizeScenario : list SelectionManager.op :=
  threeCreates ++
  [ SelectionManager.Update "selection_3"
      (Selection.bounds_of (Selection.mk "selection_3" 110 110 30 30 true));
    SelectionManager.SetActive "selection_1";
    SelectionManager.Update "selection_1"
      (Selection.bounds_of (Selection.mk "selection_1" 12 12 40 40 true));
    SelectionManager.ClearActive ].

(** Which edge a handle grabs: the west and north ones are told by the
    letter tests of [resizeSelection]; the east and south ones are the
    remaining cases of its [switch] that write the width, resp. the
    height. *)
Definition grabsWest (h : EventHandler.Handle) : bool := EventHandler.includes h "w".
Definition grabsNorth (h : EventHandler.Handle) : bool := EventHandler.includes h "n".

Definition grabsEast (h : EventHandler.Handle) : bool :=
  match h with
  | EventHandler.NE | EventHandler.SE | EventHandler.E => true
  | _ => false
  end.

Definition grabsSouth (h : EventHandler.Handle) : bool :=
  match h with
  | EventHandler.SW | EventHandler.SE | EventHandler.S => true
  | _ => false
  end.

(** The image-space movement of the pointer since the gesture began, as
    [resizeSelection] computes it. *)
Definition gestureDeltaX (eh : EventHandler.t) (im : ImageManager.t) (mouseX mouseY : Q) : Q :=
  Point.x (ImageManager.canvasToImage im mouseX mouseY)
  - Point.x (ImageManager.canvasToImage im (Point.x (EventHandler.dragStartPos eh))
                                           (Point.y (EventHandler.dragStartPos eh))).

Definition gestureDeltaY (eh : EventHandler.t) (im : ImageManager.t) (mouseX mouseY : Q) : Q :=
  Point.y (ImageManager.canvasToImage im mouseX mouseY)
  - Point.y (ImageManager.canvasToImage im (Point.x (EventHandler.dragStartPos eh))
                                           (Point.y (EventHandler.dragStartPos eh))).

(** A resize gesture in progress on the object at position [ref]: the
    handler holds the reference, the grabbed handle and the snapshot, and
    looking the object up by its id finds that very object. *)
Definition resizing (eh : EventHandler.t) (sm : SelectionManager.t)
           (ref : nat) (h : EventHandler.Handle) (original current : Selection.t) : Prop :=
  EventHandler.currentSelection eh = Some ref /\
  EventHandler.activeHandle eh = Some h /\
  EventHandler.originalSelection eh = Some original /\
  nth_error (SelectionManager.selections sm) ref = Some current /\
  findIndex (SelectionManager.hasId (Selection.id current))
            (SelectionManager.selections sm) = Some ref.

(** The setting of the resize tests: a 400x300 image at scale 1 with no
    offset. *)
Definition testView : ImageManager.t :=
  ImageManager.withView
    (ImageManager.setImage (ImageManager.new 800 600) (ImageManager.mkImage 400 300))
    1 400 300 0 0.

(** The handler after a pointer-down at canvas point [(px, py)] on handle
    [h] of the object at position [ref], whose copy is [snapshot]. *)
Definition resizeStarted (px py : Q) (h : EventHandler.Handle) (ref : nat)
           (snapshot : Selection.t) : EventHandler.t :=
  EventHandler.mk EventHandler.SelectMode false false true false
                  (Point.mk px py) (Some h) (Some ref) (Some snapshot).

(** A store holding one active 100x100 selection at (50, 50). *)
Definition squareStore : SelectionManager.t :=
  state_of (SelectionManager.createSelection SelectionManager.new 50 50 150 150).

Definition square : Selection.t :=
  Selection.mk "selection_1" 50 50 100 100 true.

(** A store holding one active 6x50 selection on the west border. *)
Definition narrowStore : SelectionManager.t :=
  state_of (SelectionManager.createSelection SelectionManager.new 0 0 6 50).

Definition narrow : Selection.t :=
  Selection.mk "selection_1" 0 0 6 50 true.

(** One axis of [constrainImagePosition]: the new offset for a canvas
    extent, a displayed extent and an old offset. *)
Definition constrainAxis (canvas display offset : Q) : Q :=
  if Qleb display canvas then
    Qmax ((canvas - display) / 2 - 100) (Qmin offset ((canvas - display) / 2 + 100))
  else
    Qmax (Qmin 200 (display * 0.3) - display)
         (Qmin offset (canvas - Qmin 200 (display * 0.3))).

(** A selection that lies within the image. *)
Definition insideImage (im : ImageManager.t) (s : Selection.t) : Prop :=
  0 <= Selection.x s /\ 0 <= Selection.y s /\
  Selection.x s + Selection.width s <= ImageManager.originalWidth im /\
  Selection.y s + Selection.height s <= ImageManager.originalHeight im.

(** A drag gesture in progress on the object at position [ref]: the
    handler holds the reference, and looking the object up by its id finds
    that very object. *)
Definition dragging (eh : EventHandler.t) (sm : SelectionManager.t)
           (ref : nat) (current : Selection.t) : Prop :=
  EventHandler.currentSelection eh = Some ref /\
  nth_error (SelectionManager.selections sm) ref = Some current /\
  findIndex (SelectionManager.hasId (Selection.id current))
            (SelectionManager.selections sm) = Some ref.

(** The handler while the object at position [ref] is dragged, the last
    pointer sample being [(px, py)]. *)
Definition dragStarted (px py : Q) (ref : nat) : EventHandler.t :=
  EventHandler.mk EventHandler.SelectMode false true false false
                  (Point.mk px py) None (Some ref) None.

(** A store holding one active 50x50 selection at the origin. *)
Definition cornerStore : SelectionManager.t :=
  state_of (SelectionManager.createSelection SelectionManager.new 0 0 50 50).

(** The position of the selection that [getActiveSelection] returns. *)
Definition activeIndex (sm : SelectionManager.t) : option nat :=
  findIndex Selection.active (SelectionManager.selections sm).

(** Where the Tab key (or Shift+Tab, when [reverse]) moves the active
    selection in a store of [n] selections: one step with wrap-around, or
    to the first selection when none is active. *)
Definition cycleTarget (n : nat) (current : option nat) (reverse : bool) : nat :=
  match current with
  | None => 0%nat
  | Some i => if reverse then ((i + n - 1) mod n)%nat else ((i + 1) mod n)%nat
  end.

(** A run of pointer-move events, given by their canvas positions. *)
Definition pointerMoves (w : EventHandler.world) (positions : list Point.t)
  : EventHandler.world :=
  fold_left (fun w p => EventHandler.handleMouseMove w (Point.x p) (Point.y p))
            positions w.

(** The handler in the middle of exactly one gesture. *)
Definition inGesture (eh : EventHandler.t) : Prop :=
  (EventHandler.isPanning eh = true /\ EventHandler.isDrawing eh = false /\
   EventHandler.isDragging eh = false /\ EventHandler.isResizing eh = false /\
   EventHandler.activeHandle eh = None /\ EventHandler.currentSelection eh = None /\
   EventHandler.originalSelection eh = None) \/
  (EventHandler.isPanning eh = false /\ EventHandler.isDrawing eh = true /\
   EventHandler.isDragging eh = false /\ EventHandler.isResizing eh = false /\
   EventHandler.activeHandle eh = None /\ EventHandler.currentSelection eh = None /\
   EventHandler.originalSelection eh = None) \/
  (EventHandler.isPanning eh = false /\ EventHandler.isDrawing eh = false /\
   EventHandler.isDragging eh = true /\ EventHandler.isResizing eh = false /\
   EventHandler.activeHandle eh = None /\ EventHandler.originalSelection eh = None) \/
  (EventHandler.isPanning eh = false /\ EventHandler.isDrawing eh = false /\
   EventHandler.isDragging eh = false /\ EventHandler.isResizing eh = true).

(** Between pointer-down and pointer-up: idle, or in one gesture on a
    loaded image. *)
Definition betweenDownAndUp (w : EventHandler.world) : Prop :=
  EventHandler.idle (EventHandler.handler w) \/
  (ImageManager.hasImage (EventHandler.images w) = true /\
   inGesture (EventHandler.handler w)).

(** A world with the test image, an empty store and an idle handler in
    pan mode. *)
Definition panWorld : EventHandler.world :=
  EventHandler.mkWorld testView SelectionManager.new
    (EventHandler.setMode EventHandler.new EventHandler.PanMode).

(** A decimal digit. *)
Definition isDigit (c : ascii) : bool :=
  Nat.leb 48 (nat_of_ascii c) && Nat.leb (nat_of_ascii c) 57.

(** A string of decimal digits. *)
Fixpoint allDigits (s : string) : bool :=
  match s with
  | EmptyString => true
  | String c r => isDigit c && allDigits r
  end.

(** The three formats of the export dialog. *)
Definition exportFormats : list string := ["png"; "jpeg"; "webp"]%string.

(* ------------------------------------------------------------------ *)
(** * Properties *)

(** ** Numeric lemmas *)

Lemma Qltb_lt (a b : Q) : Qltb a b = true <-> a < b.
Proof.
  unfold Qltb. rewrite negb_true_iff.
  split; intro H.
  - apply Qnot_le_lt. intro L. apply Qle_bool_iff in L. congruence.
  - destruct (Qle_bool b a) eqn:E; [|reflexivity].
    apply Qle_bool_iff in E. lra.
Qed.

Lemma Qltb_ge (a b : Q) : Qltb a b = false <-> b <= a.
Proof.
  unfold Qltb. rewrite negb_false_iff. apply Qle_bool_iff.
Qed.

Lemma Qleb_le (a b : Q) : Qleb a b = true <-> a <= b.
Proof. apply Qle_bool_iff. Qed.

Lemma Qleb_gt (a b : Q) : Qleb a b = false <-> b < a.
Proof.
  unfold Qleb. split; intro H.
  - apply Qnot_le_lt. intro L. apply Qle_bool_iff in L. congruence.
  - destruct (Qle_bool a b) eqn:E; [|reflexivity].
    apply Qle_bool_iff in E. lra.
Qed.

(** Case analysis on [Math.min], [Math.max] and [Math.abs]. *)
Ltac split_minmax :=
  repeat match goal with
  | |- context [Qmin ?a ?b] =>
      let H := fresh "Hmin" in
      destruct (Q.min_spec a b) as [[? H] | [? H]]; rewrite !H in *
  | |- context [Qmax ?a ?b] =>
      let H := fresh "Hmax" in
      destruct (Q.max_spec a b) as [[? H] | [? H]]; rewrite !H in *
  end.

Lemma Qabs_lt_iff (x e : Q) : Qabs x < e <-> - e < x /\ x < e.
Proof.
  split.
  - apply Qabs_case; intros; lra.
  - intros [H1 H2]. apply Qabs_case; intros; lra.
Qed.

Lemma Qdiv_mul_cancel (a s : Q) : 0 < s -> a / s * s == a.
Proof. intro H. field. intro E. rewrite E in H. lra. Qed.

Lemma clampScale_bounds (st : ImageManager.t) (q : Q) :
  ImageManager.minScale st <= ImageManager.maxScale st ->
  ImageManager.minScale st <= clampScale st q /\
  clampScale st q <= ImageManager.maxScale st.
Proof.
  intro H. unfold clampScale. split_minmax; lra.
Qed.

(** ** The viewport transform *)

(** C4. For every scale in [[minScale, maxScale]] (the lower bound being
    positive, as the constructor makes it) and every offset, mapping a
    surface point to image space and back returns the point: exactly, over
    the rationals. *)
Theorem canvas_round_trip (st : ImageManager.t) (px py : Q) :
  0 < ImageManager.minScale st ->
  ImageManager.scale_in_bounds st ->
  let imagePoint := ImageManager.canvasToImage st px py in
  Point.eq (ImageManager.imageToCanvas st (Point.x imagePoint) (Point.y imagePoint))
           (Point.mk px py).
Proof.
  intros Hmin [Hlo Hhi].
  assert (Hs : 0 < ImageManager.scale st) by lra.
  unfold Point.eq; cbn.
  split; rewrite Qdiv_mul_cancel by exact Hs; lra.
Qed.

Lemma canvas_round_trip_witness :
  let st := ImageManager.withView (ImageManager.new 800 600) 0.5 0 0 100 50 in
  let imagePoint := ImageManager.canvasToImage st 200 150 in
  Point.eq (ImageManager.imageToCanvas st (Point.x imagePoint) (Point.y imagePoint))
           (Point.mk 200 150).
Proof.
  apply (canvas_round_trip
           (ImageManager.withView (ImageManager.new 800 600) 0.5 0 0 100 50)
           200 150).
  - reflexivity.
  - split; cbn; lra.
Defined.

(** The reverse composition: image space to surface and back. *)
Lemma image_round_trip (st : ImageManager.t) (ix iy : Q) :
  0 < ImageManager.scale st ->
  let canvasPoint := ImageManager.imageToCanvas st ix iy in
  Point.eq (ImageManager.canvasToImage st (Point.x canvasPoint) (Point.y canvasPoint))
           (Point.mk ix iy).
Proof.
  intro Hs. unfold Point.eq; cbn.
  split; field; intro E; rewrite E in Hs; lra.
Qed.

(** C9, as the specification has it, fails: with no image loaded the
    method still returns a coordinate pair. *)
Lemma canvasToImage_without_image_returns_point :
  ImageManager.hasImage (ImageManager.new 800 600) = false /\
  ImageManager.canvasToImage_result (ImageManager.new 800 600) 200 150 <> None.
Proof.
  split; [reflexivity | discriminate].
Qed.

(** C9, amended. [canvasToImage] has no image guard.  In the state without
    an image (the one [resetImageState] leaves: scale 1, offsets 0) it
    returns a coordinate pair, namely the surface point itself. *)
Theorem canvasToImage_after_reset (st : ImageManager.t) (px py : Q) :
  let cleared := ImageManager.resetImageState st in
  ImageManager.hasImage cleared = false /\
  exists p : Point.t,
    ImageManager.canvasToImage_result cleared px py = Some p /\
    Point.eq p (Point.mk px py).
Proof.
  cbn. split; [reflexivity|].
  eexists. split; [reflexivity|].
  unfold Point.eq; cbn. split; field.
Qed.

(** Every method that writes [scale] re-establishes the relation between
    the displayed and the original size. *)
Lemma display_consistent_new (cw ch : Q) :
  ImageManager.display_consistent (ImageManager.new cw ch).
Proof. split; cbn; lra. Qed.

Lemma display_consistent_resetImageState (st : ImageManager.t) :
  ImageManager.display_consistent (ImageManager.resetImageState st).
Proof. split; cbn; lra. Qed.

Lemma display_consistent_fitImageToCanvas (st : ImageManager.t) :
  ImageManager.display_consistent st ->
  ImageManager.display_consistent (ImageManager.fitImageToCanvas st).
Proof.
  intro H. unfold ImageManager.fitImageToCanvas.
  destruct (ImageManager.image st); [|exact H].
  split; cbn; reflexivity.
Qed.

Lemma display_consistent_setScaleKeepCentered (st : ImageManager.t) (q : Q) :
  ImageManager.display_consistent st ->
  ImageManager.display_consistent (ImageManager.setScaleKeepCentered st q).
Proof.
  intro H. unfold ImageManager.setScaleKeepCentered.
  destruct (ImageManager.image st); [|exact H].
  destruct (Qltb _ _); [exact H|].
  split; cbn; reflexivity.
Qed.

Lemma display_consistent_constrainImagePosition (st : ImageManager.t) :
  ImageManager.display_consistent st ->
  ImageManager.display_consistent (ImageManager.constrainImagePosition st).
Proof.
  intro H. unfold ImageManager.constrainImagePosition.
  destruct (ImageManager.image st); exact H.
Qed.

Lemma display_consistent_setScale (st : ImageManager.t) (q : Q) (cx cy : option Q) :
  ImageManager.display_consistent st ->
  ImageManager.display_consistent (ImageManager.setScale st q cx cy).
Proof.
  intro H. unfold ImageManager.setScale.
  destruct (ImageManager.image st); [|exact H].
  destruct (Qltb _ _); [exact H|].
  destruct cx as [cx|], cy as [cy|];
    apply display_consistent_constrainImagePosition; split; cbn; reflexivity.
Qed.

(** The offset arithmetic of [setScale], on one axis: the image point under
    the anchor [c] is the same before and after. *)
Lemma anchor_axis (c off size old new : Q) :
  0 < old -> 0 < new ->
  (c - (c - (c - (off + size * old / 2)) * (new / old) - size * new / 2)) / new
  == (c - off) / old.
Proof.
  intros Ho Hn. field. split; intro E.
  - rewrite E in Ho. lra.
  - rewrite E in Hn. lra.
Qed.

(** What [constrainImagePosition] returns for a loaded image: the offsets
    are clamped to the window of their axis, nothing else is written. *)
Lemma constrainImagePosition_offsets (pre : ImageManager.t) :
  ImageManager.hasImage pre = true ->
  let st' := ImageManager.constrainImagePosition pre in
  let cw := ImageManager.canvasWidth pre in
  let ch := ImageManager.canvasHeight pre in
  let dw := ImageManager.displayWidth pre in
  let dh := ImageManager.displayHeight pre in
  (ImageManager.scale st' = ImageManager.scale pre /\
   ImageManager.displayWidth st' = dw /\
   ImageManager.displayHeight st' = dh /\
   ImageManager.image st' = ImageManager.image pre /\
   ImageManager.minScale st' = ImageManager.minScale pre /\
   ImageManager.maxScale st' = ImageManager.maxScale pre) /\
  (dw <= cw ->
   ImageManager.offsetX st'
   == Qmax ((cw - dw) / 2 - 100)
           (Qmin (ImageManager.offsetX pre) ((cw - dw) / 2 + 100))) /\
  (cw < dw ->
   ImageManager.offsetX st'
   == Qmax (Qmin 200 (dw * 0.3) - dw)
           (Qmin (ImageManager.offsetX pre) (cw - Qmin 200 (dw * 0.3)))) /\
  (dh <= ch ->
   ImageManager.offsetY st'
   == Qmax ((ch - dh) / 2 - 100)
           (Qmin (ImageManager.offsetY pre) ((ch - dh) / 2 + 100))) /\
  (ch < dh ->
   ImageManager.offsetY st'
   == Qmax (Qmin 200 (dh * 0.3) - dh)
           (Qmin (ImageManager.offsetY pre) (ch - Qmin 200 (dh * 0.3)))).
Proof.
  unfold ImageManager.constrainImagePosition, ImageManager.hasImage.
  destruct (ImageManager.image pre) eqn:Himg; [intros _|discriminate].
  cbv zeta.
  cbn [ImageManager.withOffset ImageManager.withView ImageManager.scale
       ImageManager.displayWidth ImageManager.displayHeight ImageManager.image
       ImageManager.minScale ImageManager.maxScale
       ImageManager.offsetX ImageManager.offsetY].
  split; [rewrite Himg; repeat split|].
  split; [|split; [|split]]; intro H.
  - apply Qleb_le in H. rewrite H. reflexivity.
  - apply Qleb_gt in H. rewrite H. reflexivity.
  - apply Qleb_le in H. rewrite H. reflexivity.
  - apply Qleb_gt in H. rewrite H. reflexivity.
Qed.

(** C6. With an image loaded, [setScale] clamps the requested scale and
    does nothing when the change is below 0.001.  Otherwise it first moves
    to a state [pre] with the clamped scale in which the image point under
    the anchor is the one that was under it before, and then applies
    [constrainImagePosition] to [pre]: the state it returns has the
    clamped scale and the matching displayed size, the image and the
    bounds of before, and on each axis the offset of [pre] clamped to the
    window of the position policy (100 pixels around the centred position
    for an image that fits the canvas, at least [min 200 (0.3 * size)]
    pixels of overlap for a larger one).  Where the policy leaves the
    offsets of [pre] alone, the image point under the anchor is the same
    after the call as before. *)
Theorem setScale_keeps_anchor (st : ImageManager.t) (newScale : Q)
        (centerX centerY : option Q) :
  ImageManager.hasImage st = true ->
  0 < ImageManager.minScale st ->
  ImageManager.scale_in_bounds st ->
  ImageManager.display_consistent st ->
  let clamped := clampScale st newScale in
  let anchor := anchorOf st centerX centerY in
  let st' := ImageManager.setScale st newScale centerX centerY in
  let cw := ImageManager.canvasWidth st in
  let ch := ImageManager.canvasHeight st in
  let dw := ImageManager.originalWidth st * clamped in
  let dh := ImageManager.originalHeight st * clamped in
  (Qabs (clamped - ImageManager.scale st) < 0.001 -> st' = st) /\
  (~ Qabs (clamped - ImageManager.scale st) < 0.001 ->
   exists pre : ImageManager.t,
     st' = ImageManager.constrainImagePosition pre /\
     ImageManager.scale pre = clamped /\
     Point.eq (ImageManager.canvasToImage pre (Point.x anchor) (Point.y anchor))
              (ImageManager.canvasToImage st (Point.x anchor) (Point.y anchor)) /\
     ImageManager.scale st' = clamped /\
     ImageManager.displayWidth st' = dw /\
     ImageManager.displayHeight st' = dh /\
     ImageManager.image st' = ImageManager.image st /\
     ImageManager.minScale st' = ImageManager.minScale st /\
     ImageManager.maxScale st' = ImageManager.maxScale st /\
     (dw <= cw ->
      ImageManager.offsetX st'
      == Qmax ((cw - dw) / 2 - 100)
              (Qmin (ImageManager.offsetX pre) ((cw - dw) / 2 + 100))) /\
     (cw < dw ->
      ImageManager.offsetX st'
      == Qmax (Qmin 200 (dw * 0.3) - dw)
              (Qmin (ImageManager.offsetX pre) (cw - Qmin 200 (dw * 0.3)))) /\
     (dh <= ch ->
      ImageManager.offsetY st'
      == Qmax ((ch - dh) / 2 - 100)
              (Qmin (ImageManager.offsetY pre) ((ch - dh) / 2 + 100))) /\
     (ch < dh ->
      ImageManager.offsetY st'
      == Qmax (Qmin 200 (dh * 0.3) - dh)
              (Qmin (ImageManager.offsetY pre) (ch - Qmin 200 (dh * 0.3)))) /\
     (ImageManager.offsetX st' == ImageManager.offsetX pre ->
      ImageManager.offsetY st' == ImageManager.offsetY pre ->
      Point.eq (ImageManager.canvasToImage st' (Point.x anchor) (Point.y anchor))
               (ImageManager.canvasToImage st (Point.x anchor) (Point.y anchor)))).
Proof.
  intros Himg Hmin [Hlo Hhi] [Hdw Hdh] clamped anchor st' cw ch dw dh.
  assert (Hold : 0 < ImageManager.scale st) by lra.
  assert (Hnew : 0 < clamped).
  { destruct (clampScale_bounds st newScale) as [H _]; [lra|]. fold clamped in H. lra. }
  subst st'. unfold ImageManager.setScale.
  pose proof Himg as Himg'. unfold ImageManager.hasImage in Himg'.
  destruct (ImageManager.image st) as [img|] eqn:Eimg; [clear Himg'|discriminate].
  fold (clampScale st newScale). fold clamped.
  split; intro Heps.
  - apply Qltb_lt in Heps. rewrite Heps. reflexivity.
  - assert (Hge : Qltb (Qabs (clamped - ImageManager.scale st)) 0.001 = false).
    { apply Qltb_ge. apply Qnot_lt_le. exact Heps. }
    rewrite Hge.
    assert (Hpair :
      match centerX, centerY with
      | Some cx, Some cy => (cx, cy)
      | _, _ => (ImageManager.canvasWidth st / 2, ImageManager.canvasHeight st / 2)
      end = (Point.x anchor, Point.y anchor)).
    { subst anchor. unfold anchorOf. destruct centerX, centerY; reflexivity. }
    rewrite Hpair. cbv zeta iota beta.
    match goal with
    | |- context [ImageManager.constrainImagePosition ?p] => set (pre := p)
    end.
    assert (Hanchor :
      Point.eq (ImageManager.canvasToImage pre (Point.x anchor) (Point.y anchor))
               (ImageManager.canvasToImage st (Point.x anchor) (Point.y anchor))).
    { subst pre. unfold Point.eq; cbn. rewrite Hdw, Hdh.
      split; apply anchor_axis; assumption. }
    assert (Hpre : ImageManager.hasImage pre = true).
    { subst pre. unfold ImageManager.hasImage. cbn [ImageManager.withView ImageManager.image].
      now rewrite Eimg. }
    destruct (constrainImagePosition_offsets pre Hpre)
      as ((Hs & Hw & Hh & Hi & Hmn & Hmx) & Hx1 & Hx2 & Hy1 & Hy2).
    exists pre. split; [reflexivity|]. split; [reflexivity|]. split; [exact Hanchor|].
    split; [exact Hs|]. split; [exact Hw|]. split; [exact Hh|].
    split; [rewrite Hi; subst pre; cbn; exact Eimg|].
    split; [exact Hmn|]. split; [exact Hmx|].
    split; [exact Hx1|]. split; [exact Hx2|]. split; [exact Hy1|]. split; [exact Hy2|].
    intros Hox Hoy. destruct Hanchor as [Hax Hay].
    unfold Point.eq, ImageManager.canvasToImage in *. cbn [Point.x Point.y] in *.
    rewrite Hs, Hox, Hoy. split; [exact Hax | exact Hay].
Qed.

(** The 400x300 image doubled about the canvas corner: the anchor would
    put the image 400 pixels to the right of the corner, outside the
    window of the policy. *)
Lemma setScale_keeps_anchor_witness :
  let st' := ImageManager.setScale sampleView 2 (Some 0) (Some 0) in
  exists pre : ImageManager.t,
    st' = ImageManager.constrainImagePosition pre /\
    Point.eq (ImageManager.canvasToImage pre 0 0)
             (ImageManager.canvasToImage sampleView 0 0) /\
    ImageManager.scale st' = clampScale sampleView 2 /\
    ImageManager.offsetX st'
    == Qmax ((800 - 400 * clampScale sampleView 2) / 2 - 100)
            (Qmin (ImageManager.offsetX pre)
                  ((800 - 400 * clampScale sampleView 2) / 2 + 100)).
Proof.
  cbv zeta.
  assert (Himg : ImageManager.hasImage sampleView = true) by reflexivity.
  assert (Hmin : 0 < ImageManager.minScale sampleView) by reflexivity.
  assert (Hin : ImageManager.scale_in_bounds sampleView)
    by (split; vm_compute; discriminate).
  assert (Hdc : ImageManager.display_consistent sampleView)
    by (split; vm_compute; reflexivity).
  destruct (proj2 (setScale_keeps_anchor sampleView 2 (Some 0) (Some 0)
                     Himg Hmin Hin Hdc))
    as (pre & E & _ & Ha & Hs & _ & _ & _ & _ & _ & Hx & _).
  - vm_compute. discriminate.
  - exists pre. split; [exact E|]. split; [exact Ha|]. split; [exact Hs|].
    apply Hx. vm_compute. discriminate.
Defined.

(** ** Zooming *)

(** [setScaleKeepCentered] writes neither the image nor the bounds. *)
Lemma setScaleKeepCentered_frame (st : ImageManager.t) (q : Q) :
  let st' := ImageManager.setScaleKeepCentered st q in
  ImageManager.image st' = ImageManager.image st /\
  ImageManager.minScale st' = ImageManager.minScale st /\
  ImageManager.maxScale st' = ImageManager.maxScale st.
Proof.
  unfold ImageManager.setScaleKeepCentered.
  destruct (ImageManager.image st) eqn:E; [|auto].
  destruct (Qltb _ _); cbn; auto.
Qed.

(** With an image loaded, [setScaleKeepCentered] either ignores a change
    below 0.001 or stores the clamped scale. *)
Lemma setScaleKeepCentered_scale (st : ImageManager.t) (q : Q) :
  ImageManager.hasImage st = true ->
  (Qabs (clampScale st q - ImageManager.scale st) < 0.001 /\
   ImageManager.setScaleKeepCentered st q = st) \/
  (0.001 <= Qabs (clampScale st q - ImageManager.scale st) /\
   ImageManager.scale (ImageManager.setScaleKeepCentered st q) = clampScale st q).
Proof.
  unfold ImageManager.hasImage, ImageManager.setScaleKeepCentered.
  destruct (ImageManager.image st); [intros _|discriminate].
  fold (clampScale st q).
  destruct (Qltb (Qabs (clampScale st q - ImageManager.scale st)) 0.001) eqn:E.
  - left. apply Qltb_lt in E. auto.
  - right. apply Qltb_ge in E. auto.
Qed.

Lemma zoomIn_frame (st : ImageManager.t) :
  ImageManager.image (ImageManager.zoomIn st) = ImageManager.image st /\
  ImageManager.minScale (ImageManager.zoomIn st) = ImageManager.minScale st /\
  ImageManager.maxScale (ImageManager.zoomIn st) = ImageManager.maxScale st.
Proof. apply setScaleKeepCentered_frame. Qed.

Lemma zoomOut_frame (st : ImageManager.t) :
  ImageManager.image (ImageManager.zoomOut st) = ImageManager.image st /\
  ImageManager.minScale (ImageManager.zoomOut st) = ImageManager.minScale st /\
  ImageManager.maxScale (ImageManager.zoomOut st) = ImageManager.maxScale st.
Proof. apply setScaleKeepCentered_frame. Qed.

Section Zoom.

Variable st : ImageManager.t.
Hypothesis Himage : ImageManager.hasImage st = true.
Hypothesis Hbounds : constructor_bounds st.
Hypothesis Hscale : ImageManager.scale_in_bounds st.

Let s := ImageManager.scale st.
Let lo := ImageManager.minScale st.
Let hi := ImageManager.maxScale st.

(** One [zoomIn]: stalled within 0.001 of the upper bound, or the scale
    becomes [min (1.2 s) maxScale]. *)
Lemma zoomIn_cases :
  (hi - 0.001 < s /\ ImageManager.zoomIn st = st) \/
  (s <= hi - 0.001 /\
   ImageManager.scale (ImageManager.zoomIn st) == Qmin (s * 1.2) hi).
Proof.
  destruct Hbounds as [Hlo Hhi], Hscale as [H1 H2].
  fold lo in Hlo, H1. fold hi in Hhi, H2. fold s in H1, H2.
  unfold ImageManager.zoomIn. fold s hi.
  assert (Hc : clampScale st (Qmin (s * 1.2) hi) == Qmin (s * 1.2) hi).
  { unfold clampScale. fold lo hi. split_minmax; lra. }
  destruct (setScaleKeepCentered_scale st (Qmin (s * 1.2) hi) Himage)
    as [[Hd He] | [Hd He]]; fold s in Hd; rewrite Hc in Hd.
  - left. split; [|exact He].
    apply Qabs_lt_iff in Hd. revert Hd. split_minmax; lra.
  - right. rewrite He, Hc. split; [|reflexivity].
    destruct (Qlt_le_dec (hi - 0.001) s) as [Hn|Hn]; [|exact Hn].
    exfalso.
    assert (Hlt : Qabs (Qmin (s * 1.2) hi - s) < 0.001).
    { apply Qabs_lt_iff. split_minmax; lra. }
    lra.
Qed.

(** One [zoomOut]: stalled within 0.001 of the lower bound, or the scale
    becomes [max (s / 1.2) minScale]. *)
Lemma zoomOut_cases :
  (s < lo + 0.001 /\ ImageManager.zoomOut st = st) \/
  (lo + 0.001 <= s /\
   ImageManager.scale (ImageManager.zoomOut st) == Qmax (s / 1.2) lo).
Proof.
  destruct Hbounds as [Hlo Hhi], Hscale as [H1 H2].
  fold lo in Hlo, H1. fold hi in Hhi, H2. fold s in H1, H2.
  unfold ImageManager.zoomOut. fold s lo.
  assert (Hd : s / 1.2 * 1.2 == s) by (apply Qdiv_mul_cancel; reflexivity).
  revert Hd. generalize (s / 1.2). intros d Hd.
  assert (Hc : clampScale st (Qmax d lo) == Qmax d lo).
  { unfold clampScale. fold lo hi. split_minmax; lra. }
  destruct (setScaleKeepCentered_scale st (Qmax d lo) Himage)
    as [[Hq He] | [Hq He]]; fold s in Hq; rewrite Hc in Hq.
  - left. split; [|exact He].
    apply Qabs_lt_iff in Hq. revert Hq. split_minmax; lra.
  - right. rewrite He, Hc. split; [|reflexivity].
    destruct (Qlt_le_dec s (lo + 0.001)) as [Hn|Hn]; [|exact Hn].
    exfalso.
    assert (Hlt : Qabs (Qmax d lo - s) < 0.001).
    { apply Qabs_lt_iff. split_minmax; lra. }
    lra.
Qed.

Lemma zoomIn_in_bounds : ImageManager.scale_in_bounds (ImageManager.zoomIn st).
Proof.
  destruct (zoomIn_frame st) as (_ & Fl & Fh).
  destruct Hbounds as [Hlo Hhi], Hscale as [H1 H2].
  fold lo in Hlo, H1. fold hi in Hhi, H2. fold s in H1, H2.
  destruct zoomIn_cases as [[_ E] | [_ E]].
  - rewrite E. split; assumption.
  - unfold ImageManager.scale_in_bounds. rewrite Fl, Fh, E. fold lo hi.
    split_minmax; lra.
Qed.

Lemma zoomOut_in_bounds : ImageManager.scale_in_bounds (ImageManager.zoomOut st).
Proof.
  destruct (zoomOut_frame st) as (_ & Fl & Fh).
  destruct Hbounds as [Hlo Hhi], Hscale as [H1 H2].
  fold lo in Hlo, H1. fold hi in Hhi, H2. fold s in H1, H2.
  destruct zoomOut_cases as [[_ E] | [_ E]].
  - rewrite E. split; assumption.
  - unfold ImageManager.scale_in_bounds. rewrite Fl, Fh, E. fold lo hi.
    assert (Hd : s / 1.2 * 1.2 == s) by (apply Qdiv_mul_cancel; reflexivity).
    revert Hd. generalize (s / 1.2). intros d Hd.
    split_minmax; lra.
Qed.

End Zoom.

Lemma zoomIn_ready (st : ImageManager.t) :
  zoom_ready st -> zoom_ready (ImageManager.zoomIn st).
Proof.
  intros (Hi & Hb & Hs).
  destruct (zoomIn_frame st) as (Fi & Fl & Fh).
  repeat split.
  - unfold ImageManager.hasImage in *. rewrite Fi. exact Hi.
  - rewrite Fl. apply Hb.
  - rewrite Fh. apply Hb.
  - apply zoomIn_in_bounds; assumption.
  - apply zoomIn_in_bounds; assumption.
Qed.

Lemma zoomOut_ready (st : ImageManager.t) :
  zoom_ready st -> zoom_ready (ImageManager.zoomOut st).
Proof.
  intros (Hi & Hb & Hs).
  destruct (zoomOut_frame st) as (Fi & Fl & Fh).
  repeat split.
  - unfold ImageManager.hasImage in *. rewrite Fi. exact Hi.
  - rewrite Fl. apply Hb.
  - rewrite Fh. apply Hb.
  - apply zoomOut_in_bounds; assumption.
  - apply zoomOut_in_bounds; assumption.
Qed.

Lemma zoomInTimes_ready (n : nat) (st : ImageManager.t) :
  zoom_ready st -> zoom_ready (zoomInTimes n st).
Proof.
  intro H. induction n as [|n IH]; [exact H|].
  change (zoom_ready (ImageManager.zoomIn (zoomInTimes n st))).
  apply zoomIn_ready. exact IH.
Qed.

Lemma zoomOutTimes_ready (n : nat) (st : ImageManager.t) :
  zoom_ready st -> zoom_ready (zoomOutTimes n st).
Proof.
  intro H. induction n as [|n IH]; [exact H|].
  change (zoom_ready (ImageManager.zoomOut (zoomOutTimes n st))).
  apply zoomOut_ready. exact IH.
Qed.

(** A state that one step leaves alone is left alone by any number. *)
Lemma iter_fixed {A : Type} (f : A -> A) (a : A) (n : nat) :
  f a = a -> Nat.iter n f a = a.
Proof.
  intro H. induction n as [|n IH]; [reflexivity|].
  rewrite Nat.iter_succ, IH. exact H.
Qed.

Lemma iter_plus {A : Type} (f : A -> A) (a : A) (n k : nat) :
  Nat.iter (k + n) f a = Nat.iter k f (Nat.iter n f a).
Proof.
  induction k as [|k IH]; [reflexivity|].
  change (S k + n)%nat with (S (k + n)).
  rewrite !Nat.iter_succ, IH. reflexivity.
Qed.

(** After [n] steps up the scale is stalled under the bound or has grown
    at least as if it had started from [minScale]. *)
Lemma zoomInTimes_progress (n : nat) (st : ImageManager.t) :
  zoom_ready st ->
  let t := zoomInTimes n st in
  (5 - 0.001 < ImageManager.scale t /\ ImageManager.zoomIn t = t) \/
  growth n <= ImageManager.scale t.
Proof.
  intro H. induction n as [|n IH]; cbn zeta.
  - right. destruct H as (_ & [Hlo _] & [H1 _]). cbn. lra.
  - pose proof (zoomInTimes_ready n st H) as (Hi & Hb & Hs).
    cbn zeta in IH. change (zoomInTimes (S n) st)
      with (ImageManager.zoomIn (zoomInTimes n st)).
    set (t := zoomInTimes n st) in *.
    destruct IH as [[Hnear Hfix] | Hgrow].
    + left. rewrite Hfix. auto.
    + destruct (zoomIn_cases t Hi Hb Hs) as [[Hnear Hfix] | [Hfar Hstep]].
      * left. rewrite Hfix. destruct Hb as [_ Hhi]. split; [lra | exact Hfix].
      * destruct Hb as [Hlo Hhi].
        destruct (Q.min_spec (ImageManager.scale t * 1.2) (ImageManager.maxScale t))
          as [[Hlt Hm] | [Hge Hm]]; rewrite Hm in Hstep.
        -- right. cbn. rewrite Hstep. lra.
        -- left.
           assert (Hr : zoom_ready (ImageManager.zoomIn t)).
           { apply zoomIn_ready. repeat split; try assumption; apply Hs. }
           destruct Hr as (Hi' & Hb' & Hs').
           destruct (zoomIn_cases _ Hi' Hb' Hs') as [[_ Hfix'] | [Hfar' _]].
           ++ split; [lra | exact Hfix'].
           ++ destruct Hb' as [_ Hhi']. lra.
Qed.

(** The mirror image for steps down. *)
Lemma zoomOutTimes_progress (n : nat) (st : ImageManager.t) :
  zoom_ready st ->
  let t := zoomOutTimes n st in
  (ImageManager.scale t < 0.1 + 0.001 /\ ImageManager.zoomOut t = t) \/
  ImageManager.scale t <= decay n.
Proof.
  intro H. induction n as [|n IH]; cbn zeta.
  - right. destruct H as (_ & [_ Hhi] & [_ H2]). cbn. lra.
  - pose proof (zoomOutTimes_ready n st H) as (Hi & Hb & Hs).
    cbn zeta in IH. change (zoomOutTimes (S n) st)
      with (ImageManager.zoomOut (zoomOutTimes n st)).
    set (t := zoomOutTimes n st) in *.
    destruct IH as [[Hnear Hfix] | Hgrow].
    + left. rewrite Hfix. auto.
    + destruct (zoomOut_cases t Hi Hb Hs) as [[Hnear Hfix] | [Hfar Hstep]].
      * left. rewrite Hfix. destruct Hb as [Hlo _]. split; [lra | exact Hfix].
      * destruct Hb as [Hlo Hhi].
        assert (Hd : ImageManager.scale t / 1.2 * 1.2 == ImageManager.scale t)
          by (apply Qdiv_mul_cancel; reflexivity).
        assert (Hd' : decay n / 1.2 * 1.2 == decay n)
          by (apply Qdiv_mul_cancel; reflexivity).
        destruct (Q.max_spec (ImageManager.scale t / 1.2) (ImageManager.minScale t))
          as [[Hlt Hm] | [Hge Hm]]; rewrite Hm in Hstep.
        -- left.
           assert (Hr : zoom_ready (ImageManager.zoomOut t)).
           { apply zoomOut_ready. repeat split; try assumption; apply Hs. }
           destruct Hr as (Hi' & Hb' & Hs').
           destruct (zoomOut_cases _ Hi' Hb' Hs') as [[_ Hfix'] | [Hfar' _]].
           ++ split; [lra | exact Hfix'].
           ++ destruct Hb' as [Hlo' _]. lra.
        -- right. cbn [decay]. rewrite Hstep.
           revert Hd Hd'. generalize (ImageManager.scale t / 1.2) (decay n / 1.2).
           intros; lra.
Qed.

(** C5, as the specification has it, fails: from scale 4.9995 every
    [zoomIn] asks for [maxScale], a change of 0.0005, which
    [setScaleKeepCentered] ignores; the scale never moves and does not
    converge to [maxScale]. *)
Lemma zoomIn_stalls_below_maxScale :
  zoom_ready nearMaxView /\
  ~ converges_to (fun n => ImageManager.scale (zoomInTimes n nearMaxView))
                 (ImageManager.maxScale nearMaxView).
Proof.
  split.
  - repeat split; vm_compute; solve [reflexivity | discriminate].
  - intro Hconv.
    destruct (Hconv 0.0001 eq_refl) as [N HN].
    specialize (HN N (Nat.le_refl N)).
    unfold zoomInTimes in HN.
    rewrite iter_fixed in HN by (vm_compute; reflexivity).
    vm_compute in HN. discriminate.
Qed.

(** Once the scale could have outgrown the upper bound, [zoomIn] has
    settled; [k] is the number of steps that takes. *)
Lemma zoomInTimes_settled (k : nat) (st : ImageManager.t) :
  zoom_ready st -> 5 < growth k ->
  forall n : nat, (k <= n)%nat ->
    5 - 0.001 < ImageManager.scale (zoomInTimes n st) /\
    ImageManager.zoomIn (zoomInTimes n st) = zoomInTimes n st.
Proof.
  intros H Hg n Hn.
  assert (Hk : 5 - 0.001 < ImageManager.scale (zoomInTimes k st) /\
               ImageManager.zoomIn (zoomInTimes k st) = zoomInTimes k st).
  { destruct (zoomInTimes_progress k st H) as [Hst | Hgrow]; [exact Hst|].
    exfalso.
    destruct (zoomInTimes_ready k st H) as (_ & [_ Hhi'] & [_ Hle]).
    cbv zeta in Hgrow. lra. }
  assert (Heq : zoomInTimes n st = zoomInTimes k st).
  { replace n with ((n - k) + k)%nat by lia.
    unfold zoomInTimes. rewrite iter_plus. apply iter_fixed. apply Hk. }
  rewrite Heq. exact Hk.
Qed.

Lemma zoomOutTimes_settled (k : nat) (st : ImageManager.t) :
  zoom_ready st -> decay k < 0.1 ->
  forall n : nat, (k <= n)%nat ->
    ImageManager.scale (zoomOutTimes n st) < 0.1 + 0.001 /\
    ImageManager.zoomOut (zoomOutTimes n st) = zoomOutTimes n st.
Proof.
  intros H Hg n Hn.
  assert (Hk : ImageManager.scale (zoomOutTimes k st) < 0.1 + 0.001 /\
               ImageManager.zoomOut (zoomOutTimes k st) = zoomOutTimes k st).
  { destruct (zoomOutTimes_progress k st H) as [Hst | Hgrow]; [exact Hst|].
    exfalso.
    destruct (zoomOutTimes_ready k st H) as (_ & [Hlo' _] & [Hge _]).
    cbv zeta in Hgrow. lra. }
  assert (Heq : zoomOutTimes n st = zoomOutTimes k st).
  { replace n with ((n - k) + k)%nat by lia.
    unfold zoomOutTimes. rewrite iter_plus. apply iter_fixed. apply Hk. }
  rewrite Heq. exact Hk.
Qed.

Lemma growth_22 : 5 < growth 22.
Proof. vm_compute. reflexivity. Qed.

Lemma decay_22 : decay 22 < 0.1.
Proof. vm_compute. reflexivity. Qed.

(** C5, amended.  With an image loaded and the scale within the bounds:
    every [zoomIn] and [zoomOut] keeps [minScale <= scale <= maxScale];
    after 22 or more [zoomIn] the scale is at most [maxScale], less than
    0.001 below it, and further [zoomIn] leave the state unchanged; after
    22 or more [zoomOut] the scale is at least [minScale], less than 0.001
    above it, and further [zoomOut] leave the state unchanged. *)
Theorem zoom_bounds_and_settling (st : ImageManager.t) :
  zoom_ready st ->
  (ImageManager.scale_in_bounds (ImageManager.zoomIn st) /\
   ImageManager.scale_in_bounds (ImageManager.zoomOut st)) /\
  (forall n : nat,
     ImageManager.scale_in_bounds (zoomInTimes n st) /\
     ImageManager.scale_in_bounds (zoomOutTimes n st)) /\
  (forall n : nat, (22 <= n)%nat ->
     let t := zoomInTimes n st in
     ImageManager.maxScale st - 0.001 < ImageManager.scale t /\
     ImageManager.scale t <= ImageManager.maxScale st /\
     ImageManager.zoomIn t = t) /\
  (forall n : nat, (22 <= n)%nat ->
     let t := zoomOutTimes n st in
     ImageManager.minScale st <= ImageManager.scale t /\
     ImageManager.scale t < ImageManager.minScale st + 0.001 /\
     ImageManager.zoomOut t = t).
Proof.
  intro H.
  pose proof H as (Hi & Hb & Hs).
  destruct Hb as [Hlo Hhi].
  split; [|split; [|split]].
  - split; [apply zoomIn_in_bounds | apply zoomOut_in_bounds];
      solve [assumption | split; assumption].
  - intro n. split.
    + apply (zoomInTimes_ready n st H).
    + apply (zoomOutTimes_ready n st H).
  - intros n Hn t. subst t.
    destruct (zoomInTimes_settled 22 st H growth_22 n Hn) as [Hnear Hfix].
    destruct (zoomInTimes_ready n st H) as (_ & [_ Hhi'] & [_ Hle]).
    split; [lra | split; [lra | exact Hfix]].
  - intros n Hn t. subst t.
    destruct (zoomOutTimes_settled 22 st H decay_22 n Hn) as [Hnear Hfix].
    destruct (zoomOutTimes_ready n st H) as (_ & [Hlo' _] & [Hge _]).
    split; [lra | split; [lra | exact Hfix]].
Qed.

Lemma zoom_bounds_and_settling_witness :
  ImageManager.scale_in_bounds (ImageManager.zoomIn sampleView) /\
  ImageManager.maxScale sampleView - 0.001
    < ImageManager.scale (zoomInTimes 22 sampleView) /\
  ImageManager.scale (zoomOutTimes 22 sampleView)
    < ImageManager.minScale sampleView + 0.001.
Proof.
  assert (R : zoom_ready sampleView).
  { repeat split; vm_compute; solve [reflexivity | discriminate]. }
  destruct (zoom_bounds_and_settling sampleView R) as ((Hin & _) & _ & Hup & Hdown).
  split; [exact Hin|]. split.
  - apply (Hup 22%nat (Nat.le_refl 22)).
  - apply (Hdown 22%nat (Nat.le_refl 22)).
Defined.

(* ------------------------------------------------------------------ *)
(** ** The selection store *)

Section StoreLemmas.

Local Open Scope nat_scope.
Import SelectionManager.

(** *** Ids *)

Lemma map_id_withActive (a : bool) (l : list Selection.t) :
  map Selection.id (map (Selection.withActive a) l) = map Selection.id l.
Proof.
  induction l as [|s l IH]; cbn; [reflexivity|]. now rewrite IH.
Qed.

Lemma map_id_modifyFound (p : Selection.t -> bool) (f : Selection.t -> Selection.t)
      (l : list Selection.t) :
  (forall s, Selection.id (f s) = Selection.id s) ->
  map Selection.id (modifyFound p f l) = map Selection.id l.
Proof.
  intro Hf. induction l as [|s l IH]; cbn; [reflexivity|].
  destruct (p s); cbn; [now rewrite Hf | now rewrite IH].
Qed.

Lemma ids_setActiveSelection (st : t) (id : string) :
  ids (setActiveSelection st id) = ids st.
Proof.
  unfold ids, getAllSelections, setActiveSelection.
  destruct (find _ _); cbn.
  - rewrite map_id_modifyFound by reflexivity. apply map_id_withActive.
  - apply map_id_withActive.
Qed.

Lemma length_ids (st : t) : List.length (ids st) = List.length (selections st).
Proof. apply length_map. Qed.

Lemma length_setActiveSelection (st : t) (id : string) :
  List.length (selections (setActiveSelection st id)) = List.length (selections st).
Proof.
  rewrite <- (length_ids (setActiveSelection st id)), ids_setActiveSelection.
  apply length_ids.
Qed.

(** What [createSelection] does when it does not throw. *)
Lemma createSelection_cases (st : t) (sx sy ex ey : Q) :
  let w := Qabs (ex - sx) in
  let h := Qabs (ey - sy) in
  let sel := Selection.mk (selection_id (List.length (selections st) + 1))
                          (Qmin sx ex) (Qmin sy ey) w h false in
  ((w < 1 \/ h < 1)%Q /\ createSelection st sx sy ex ey = Throws tooSmall st) \/
  ((1 <= w /\ 1 <= h)%Q /\
   exists v,
     createSelection st sx sy ex ey
     = Returns v (setActiveSelection
                    (mk (selections st ++ [sel]) (activeSelectionId st))
                    (Selection.id sel))).
Proof.
  intros w h sel. unfold createSelection. cbn [Selection.width Selection.height].
  fold w h.
  destruct (Qltb w 1) eqn:Ew; cbn [orb].
  - left. apply Qltb_lt in Ew. auto.
  - destruct (Qltb h 1) eqn:Eh.
    + left. apply Qltb_lt in Eh. auto.
    + right. apply Qltb_ge in Ew, Eh. split; [auto|].
      eexists. reflexivity.
Qed.

Lemma contiguous_ids_succ (n : nat) :
  contiguous_ids (S n) = contiguous_ids n ++ [selection_id (n + 1)].
Proof.
  unfold contiguous_ids. rewrite seq_S, map_app. cbn.
  now rewrite (Nat.add_comm n 1).
Qed.

Lemma ids_createSelection (st : t) (sx sy ex ey : Q) :
  ids st = contiguous_ids (List.length (selections st)) ->
  let st' := state_of (createSelection st sx sy ex ey) in
  ids st' = contiguous_ids (List.length (selections st')).
Proof.
  intros Hinv st'. subst st'.
  destruct (createSelection_cases st sx sy ex ey) as [[_ E] | [_ [v E]]];
    rewrite E; cbn [state_of]; [exact Hinv|].
  rewrite ids_setActiveSelection, length_setActiveSelection.
  unfold ids, getAllSelections in *; cbn [selections].
  rewrite map_app, length_app. cbn [map List.length Selection.id].
  rewrite (Nat.add_1_r (List.length (selections st))) at 2.
  rewrite contiguous_ids_succ. now rewrite Hinv.
Qed.

Lemma renumberFrom_ids (l : list Selection.t) :
  forall (index : nat) (a : option string),
    map Selection.id (fst (renumberFrom index l a))
    = map selection_id (seq (index + 1) (List.length l)).
Proof.
  induction l as [|s l IH]; intros index a; [reflexivity|].
  cbn [renumberFrom List.length seq map].
  destruct (negb _) eqn:E.
  - specialize (IH (S index)
      (if nullable_eqb a (Selection.id s)
       then Some (selection_id (index + 1)) else a)).
    destruct (renumberFrom (S index) l _) as [rest' a'].
    cbn [fst map Selection.withId Selection.id] in *.
    rewrite IH. reflexivity.
  - specialize (IH (S index) a).
    destruct (renumberFrom (S index) l a) as [rest' a'].
    cbn [fst map] in *.
    apply negb_false_iff, String.eqb_eq in E.
    rewrite IH, E. reflexivity.
Qed.

Lemma renumberFrom_length (l : list Selection.t) :
  forall (index : nat) (a : option string),
    List.length (fst (renumberFrom index l a)) = List.length l.
Proof.
  intros index a.
  rewrite <- (length_map Selection.id), renumberFrom_ids.
  now rewrite length_map, length_seq.
Qed.

Lemma ids_renumberSelections (st : t) :
  ids (renumberSelections st)
  = contiguous_ids (List.length (selections (renumberSelections st))).
Proof.
  unfold ids, getAllSelections, renumberSelections, contiguous_ids.
  pose proof (renumberFrom_ids (selections st) 0 (activeSelectionId st)) as Hi.
  pose proof (renumberFrom_length (selections st) 0 (activeSelectionId st)) as Hl.
  destruct (renumberFrom 0 (selections st) (activeSelectionId st)) as [sels a].
  cbn [fst selections] in *. now rewrite Hi, Hl.
Qed.

Lemma ids_deleteSelection (st : t) (id : string) :
  ids st = contiguous_ids (List.length (selections st)) ->
  let st' := deleteSelection st id in
  ids st' = contiguous_ids (List.length (selections st')).
Proof.
  intros Hinv st'. subst st'. unfold deleteSelection.
  destruct (findIndex _ _); [apply ids_renumberSelections | exact Hinv].
Qed.

(** The invariant of C1 is kept along any run of creates and deletes. *)
Lemma ids_run (ops : list op) :
  forall st : t,
    forallb is_create_or_delete ops = true ->
    ids st = contiguous_ids (List.length (selections st)) ->
    ids (run st ops) = contiguous_ids (List.length (selections (run st ops))).
Proof.
  induction ops as [|o ops IH]; intros st Hops Hinv; [exact Hinv|].
  cbn in Hops. apply andb_true_iff in Hops as [Ho Hops].
  cbn [run fold_left]. apply IH; [exact Hops|].
  destruct o; try discriminate; cbn [step].
  - apply ids_createSelection. exact Hinv.
  - apply ids_deleteSelection. exact Hinv.
Qed.

Lemma forallb_firstn {A : Type} (p : A -> bool) (k : nat) (l : list A) :
  forallb p l = true -> forallb p (firstn k l) = true.
Proof.
  revert k. induction l as [|a l IH]; intros k H; destruct k; cbn in *; auto.
  apply andb_true_iff in H as [Ha Hl]. rewrite Ha. cbn. auto.
Qed.

End StoreLemmas.

(** C1, as the specification has it, fails: the id of the first selection
    is ["selection_1"], not ["1"]. *)
Lemma ids_are_not_bare_numbers :
  SelectionManager.ids
    (SelectionManager.run SelectionManager.new [SelectionManager.Create 10 10 50 50])
  <> SelectionManager.bare_ids 1.
Proof. vm_compute. discriminate. Qed.

(** C1, amended.  Along every sequence of create and delete operations on
    an initially empty store, after each operation (that is, after every
    prefix of the sequence) the ids of [getAllSelections] are exactly
    ["selection_1"], ..., ["selection_N"], in the order of the array. *)
Theorem ids_contiguous_after_each_operation
        (ops : list SelectionManager.op) (k : nat) :
  forallb SelectionManager.is_create_or_delete ops = true ->
  let st := SelectionManager.run SelectionManager.new (firstn k ops) in
  SelectionManager.ids st
  = SelectionManager.contiguous_ids
      (List.length (SelectionManager.getAllSelections st)).
Proof.
  intros Hops st. subst st. unfold SelectionManager.getAllSelections.
  apply ids_run.
  - apply forallb_firstn. exact Hops.
  - reflexivity.
Qed.

Lemma ids_contiguous_after_each_operation_witness :
  let st := SelectionManager.run SelectionManager.new (firstn 4 numberingScenario) in
  SelectionManager.ids st
  = SelectionManager.contiguous_ids
      (List.length (SelectionManager.getAllSelections st)).
Proof.
  apply (ids_contiguous_after_each_operation numberingScenario 4).
  reflexivity.
Defined.

Section ActiveLemmas.

Local Open Scope nat_scope.
Import SelectionManager.

(** *** The active flag *)

Lemma countActive_deactivated (l : list Selection.t) :
  countActive (map (Selection.withActive false) l) = 0.
Proof.
  unfold countActive. induction l as [|s l IH]; cbn; auto.
Qed.

(** Mutating one object adds at most one active selection. *)
Lemma countActive_modifyFound_le_succ
      (p : Selection.t -> bool) (f : Selection.t -> Selection.t)
      (l : list Selection.t) :
  countActive (modifyFound p f l) <= S (countActive l).
Proof.
  unfold countActive. induction l as [|s l IH]; cbn; [lia|].
  destruct (p s); cbn.
  - destruct (Selection.active (f s)), (Selection.active s); cbn; lia.
  - destruct (Selection.active s); cbn; lia.
Qed.

(** Mutating one object by a function that never turns [active] on adds
    none. *)
Lemma countActive_modifyFound_le
      (p : Selection.t -> bool) (f : Selection.t -> Selection.t)
      (l : list Selection.t) :
  (forall s, Selection.active (f s) = true -> Selection.active s = true) ->
  countActive (modifyFound p f l) <= countActive l.
Proof.
  intro Hf. unfold countActive. induction l as [|s l IH]; cbn; [lia|].
  destruct (p s); cbn.
  - specialize (Hf s).
    destruct (Selection.active (f s)), (Selection.active s); cbn;
      solve [lia | discriminate Hf; reflexivity].
  - destruct (Selection.active s); cbn; lia.
Qed.

Lemma countActive_app (l1 l2 : list Selection.t) :
  countActive (l1 ++ l2) = countActive l1 + countActive l2.
Proof.
  unfold countActive. now rewrite filter_app, length_app.
Qed.

Lemma countActive_firstn_skipn (n : nat) (l : list Selection.t) :
  countActive l = countActive (firstn n l) + countActive (skipn n l).
Proof.
  rewrite <- countActive_app. now rewrite firstn_skipn.
Qed.

Lemma countActive_splice1 (index : nat) (l : list Selection.t) :
  countActive (splice1 index l) <= countActive l.
Proof.
  unfold splice1. rewrite countActive_app.
  rewrite (countActive_firstn_skipn index l).
  assert (H : countActive (skipn (S index) l) <= countActive (skipn index l)).
  { replace (skipn (S index) l) with (skipn 1 (skipn index l))
      by (rewrite skipn_skipn; reflexivity).
    destruct (skipn index l) as [|s r]; cbn; [lia|].
    unfold countActive; cbn. destruct (Selection.active s); cbn; lia. }
  lia.
Qed.

Lemma countActive_renumberFrom (l : list Selection.t) :
  forall (index : nat) (a : option string),
    countActive (fst (renumberFrom index l a)) = countActive l.
Proof.
  unfold countActive.
  induction l as [|s l IH]; intros index a; [reflexivity|].
  cbn [renumberFrom].
  destruct (negb _).
  - specialize (IH (S index)
      (if nullable_eqb a (Selection.id s)
       then Some (selection_id (index + 1)) else a)).
    destruct (renumberFrom (S index) l _) as [rest' a'].
    cbn in *. destruct (Selection.active s); cbn; now rewrite IH.
  - specialize (IH (S index) a).
    destruct (renumberFrom (S index) l a) as [rest' a'].
    cbn in *. destruct (Selection.active s); cbn; now rewrite IH.
Qed.

Lemma activeCount_setActiveSelection (st : t) (id : string) :
  activeCount (setActiveSelection st id) <= 1.
Proof.
  unfold activeCount, getAllSelections, setActiveSelection.
  fold (countActive (selections
    match find (hasId id) (map (Selection.withActive false) (selections st)) with
    | Some _ => mk (modifyFound (hasId id) (Selection.withActive true)
                      (map (Selection.withActive false) (selections st))) (Some id)
    | None => mk (map (Selection.withActive false) (selections st))
                 (activeSelectionId st)
    end)).
  destruct (find _ _); cbn [selections].
  - etransitivity; [apply countActive_modifyFound_le_succ|].
    rewrite countActive_deactivated. lia.
  - rewrite countActive_deactivated. lia.
Qed.

Lemma activeCount_createSelection (st : t) (sx sy ex ey : Q) :
  activeCount st <= 1 ->
  activeCount (state_of (createSelection st sx sy ex ey)) <= 1.
Proof.
  intro H.
  destruct (createSelection_cases st sx sy ex ey) as [[_ E] | [_ [v E]]];
    rewrite E; cbn [state_of]; [exact H|].
  apply activeCount_setActiveSelection.
Qed.

Lemma activeCount_updateSelection (st : t) (id : string) (b : Selection.Bounds) :
  Selection.b_active b <> Some true ->
  activeCount (updateSelection st id b) <= activeCount st.
Proof.
  intro Hb. unfold activeCount, getAllSelections, updateSelection; cbn [selections].
  apply countActive_modifyFound_le.
  intros s. unfold Selection.assign; cbn [Selection.active].
  destruct (Selection.b_active b) as [[|]|]; cbn; congruence.
Qed.

Lemma activeCount_deleteSelection (st : t) (id : string) :
  activeCount (deleteSelection st id) <= activeCount st.
Proof.
  unfold deleteSelection.
  destruct (findIndex _ _) as [index|]; [|lia].
  unfold activeCount, getAllSelections, renumberSelections; cbn [selections].
  pose proof (countActive_renumberFrom (splice1 index (selections st)) 0
    (if nullable_eqb (activeSelectionId st) id then None
     else activeSelectionId st)) as Hr.
  destruct (renumberFrom 0 _ _) as [sels a]. cbn [fst selections] in *.
  fold (countActive sels). rewrite Hr. apply countActive_splice1.
Qed.

Lemma activeCount_step (st : t) (o : op) :
  no_active_write o = true ->
  activeCount st <= 1 -> activeCount (step st o) <= 1.
Proof.
  intros Ho H. destruct o; cbn [step].
  - apply activeCount_createSelection. exact H.
  - etransitivity; [apply activeCount_updateSelection|exact H].
    cbn in Ho. destruct (Selection.b_active bounds) as [[|]|]; congruence.
  - etransitivity; [apply activeCount_deleteSelection|exact H].
  - apply activeCount_setActiveSelection.
  - unfold activeCount, getAllSelections, clearActiveSelection; cbn [selections].
    fold (countActive (map (Selection.withActive false) (selections st))).
    rewrite countActive_deactivated. lia.
  - cbn. lia.
Qed.

Lemma activeCount_run (ops : list op) :
  forall st : t,
    forallb no_active_write ops = true ->
    activeCount st <= 1 -> activeCount (run st ops) <= 1.
Proof.
  induction ops as [|o ops IH]; intros st Hops H; [exact H|].
  cbn in Hops. apply andb_true_iff in Hops as [Ho Hops].
  cbn [run fold_left]. apply IH; [exact Hops|].
  apply activeCount_step; assumption.
Qed.

(** Mutating the object that [find] returns by a function that turns
    [active] on adds one active selection exactly when that object was
    inactive. *)
Lemma countActive_modifyFound_activate
      (p : Selection.t -> bool) (f : Selection.t -> Selection.t)
      (l : list Selection.t) :
  (forall s, Selection.active (f s) = true) ->
  countActive (modifyFound p f l)
  = match find p l with
    | Some target =>
        if Selection.active target then countActive l else S (countActive l)
    | None => countActive l
    end.
Proof.
  intro Hf. unfold countActive. induction l as [|s l IH]; [reflexivity|].
  cbn [modifyFound find]. destruct (p s).
  - cbn [filter]. rewrite Hf. destruct (Selection.active s); reflexivity.
  - cbn [filter]. destruct (Selection.active s); cbn [List.length]; rewrite IH;
      destruct (find p l) as [target|]; [destruct (Selection.active target)| | |];
      reflexivity.
Qed.

Lemma existsb_active_countActive (l : list Selection.t) :
  existsb Selection.active l = negb (Nat.eqb (countActive l) 0).
Proof.
  unfold countActive. induction l as [|s l IH]; [reflexivity|].
  cbn [existsb filter]. destruct (Selection.active s); [reflexivity|exact IH].
Qed.

Lemma active_assign_true (b : Selection.Bounds) (s : Selection.t) :
  Selection.b_active b = Some true ->
  Selection.active (Selection.assign s b) = true.
Proof. intro H. unfold Selection.assign. cbn. now rewrite H. Qed.

(** An operation that does not switch on a second selection keeps the
    invariant. *)
Lemma activeCount_step_unless_second (st : t) (o : op) :
  switchesOnSecond st o = false ->
  activeCount st <= 1 -> activeCount (step st o) <= 1.
Proof.
  intros Ho H.
  destruct (no_active_write o) eqn:Hw; [now apply activeCount_step|].
  destruct o; try discriminate Hw. cbn in Hw, Ho.
  destruct (Selection.b_active bounds) as [[|]|] eqn:Eb; try discriminate Hw.
  cbn [step]. unfold activeCount, getAllSelections, updateSelection in *.
  cbn [selections]. fold (countActive (selections st)) in H.
  fold (countActive (modifyFound (hasId id) (fun s => Selection.assign s bounds)
                                 (selections st))).
  rewrite countActive_modifyFound_activate
    by (intro s; now apply active_assign_true).
  destruct (find (hasId id) (selections st)) as [target|]; [|exact H].
  destruct (Selection.active target); [exact H|].
  cbn [negb andb] in Ho. rewrite existsb_active_countActive in Ho.
  apply negb_false_iff, Nat.eqb_eq in Ho. rewrite Ho. lia.
Qed.

(** An operation that switches on a second selection leaves two active
    selections or more. *)
Lemma activeCount_step_second (st : t) (o : op) :
  switchesOnSecond st o = true -> 2 <= activeCount (step st o).
Proof.
  intro Ho. destruct o; try discriminate Ho. cbn in Ho.
  destruct (Selection.b_active bounds) as [[|]|] eqn:Eb; try discriminate Ho.
  cbn [step]. unfold activeCount, getAllSelections, updateSelection.
  cbn [selections].
  fold (countActive (modifyFound (hasId id) (fun s => Selection.assign s bounds)
                                 (selections st))).
  rewrite countActive_modifyFound_activate
    by (intro s; now apply active_assign_true).
  destruct (find (hasId id) (selections st)) as [target|]; [|discriminate Ho].
  apply andb_true_iff in Ho as [Ht He].
  apply negb_true_iff in Ht. rewrite Ht.
  rewrite existsb_active_countActive in He.
  apply negb_true_iff, Nat.eqb_neq in He. lia.
Qed.

Lemma activeCount_prefixes (ops : list op) :
  forall st : t,
    activeCount st <= 1 ->
    neverSwitchesOnSecond st ops = true ->
    forall k : nat, activeCount (run st (firstn k ops)) <= 1.
Proof.
  induction ops as [|o ops IH]; intros st H Hops k.
  - rewrite firstn_nil. exact H.
  - destruct k as [|k]; [exact H|].
    cbn [neverSwitchesOnSecond] in Hops.
    apply andb_true_iff in Hops as [Ho Hops]. apply negb_true_iff in Ho.
    cbn [firstn run fold_left]. apply IH; [|exact Hops].
    now apply activeCount_step_unless_second.
Qed.

Lemma prefixes_neverSwitchesOnSecond (ops : list op) :
  forall st : t,
    (forall k : nat, activeCount (run st (firstn k ops)) <= 1) ->
    neverSwitchesOnSecond st ops = true.
Proof.
  induction ops as [|o ops IH]; intros st H; [reflexivity|].
  cbn [neverSwitchesOnSecond]. apply andb_true_iff. split.
  - destruct (switchesOnSecond st o) eqn:Ho; [|reflexivity].
    pose proof (activeCount_step_second st o Ho) as H2.
    specialize (H 1). cbn [firstn run fold_left] in H. lia.
  - apply IH. intro k. exact (H (S k)).
Qed.

End ActiveLemmas.

(** C2, as the specification has it, fails: [updateSelection] merges every
    field it is given, [active] included, so an update can switch on a
    second selection. *)
Lemma update_can_activate_second_selection :
  SelectionManager.activeCount
    (SelectionManager.run SelectionManager.new
       [ SelectionManager.Create 0 0 50 50;
         SelectionManager.Create 60 60 110 110;
         SelectionManager.Update "selection_1" activeOnly ])
  = 2%nat.
Proof. vm_compute. reflexivity. Qed.

(** C2, amended.  Along a sequence of create, update, delete, setActive,
    clearActive and reset operations on an initially empty store, at most
    one selection is active after each operation if, and only if, no
    update of the sequence passes [active: true] to a stored selection
    that is inactive while another selection is active.  Every other
    update is allowed: one that passes [active: true] to the selection
    that is already active, as the write-back of a resize gesture does,
    keeps the invariant. *)
Theorem at_most_one_active (ops : list SelectionManager.op) :
  neverSwitchesOnSecond SelectionManager.new ops = true <->
  forall k : nat,
    (SelectionManager.activeCount
       (SelectionManager.run SelectionManager.new (firstn k ops)) <= 1)%nat.
Proof.
  split.
  - intro Hops. apply activeCount_prefixes; [cbn; lia | exact Hops].
  - apply prefixes_neverSwitchesOnSecond.
Qed.

Lemma at_most_one_active_witness :
  neverSwitchesOnSecond SelectionManager.new resizeScenario = true /\
  (SelectionManager.activeCount
     (SelectionManager.run SelectionManager.new (firstn 6 resizeScenario)) <= 1)%nat.
Proof.
  assert (H : neverSwitchesOnSecond SelectionManager.new resizeScenario = true)
    by (vm_compute; reflexivity).
  split; [exact H|].
  exact (proj1 (at_most_one_active resizeScenario) H 6%nat).
Defined.

(** C3, as the specification has it, fails: a create of a rectangle half
    a unit wide raises an exception. *)
Lemma createSelection_raises :
  throws (SelectionManager.createSelection SelectionManager.new 10 10 10.5 50) = true.
Proof. vm_compute. reflexivity. Qed.

(** The pointer-up handler creates a selection only when the clamped
    rectangle is more than 5 wide and high, so [createSelection] cannot
    throw there. *)
Lemma commitDrawing_never_throws (eh : EventHandler.t) (im : ImageManager.t)
      (sm : SelectionManager.t) (px py : Q) :
  throws (EventHandler.commitDrawing eh im sm px py) = false.
Proof.
  unfold EventHandler.commitDrawing.
  destruct (Qltb 10 _ && Qltb 10 _); [|reflexivity].
  match goal with
  | |- context [Qltb 5 ?w && Qltb 5 ?h] =>
      destruct (Qltb 5 w) eqn:Ew; [|reflexivity];
      destruct (Qltb 5 h) eqn:Eh; [|reflexivity]
  end.
  cbn [andb]. apply Qltb_lt in Ew, Eh.
  match goal with
  | |- context [SelectionManager.createSelection sm ?a ?b ?c ?d] =>
      destruct (createSelection_cases sm a b c d) as [[Hsmall E] | [_ [v E]]];
      rewrite E; [exfalso|reflexivity];
      pose proof (Qle_Qabs (c - a)); pose proof (Qle_Qabs (d - b))
  end.
  destruct Hsmall; lra.
Qed.

(** C3, amended.  A create whose normalised rectangle has width < 1 or
    height < 1 is rejected by throwing an error (the store is left as it
    was); the pointer-up handler, which filters the rectangles it commits,
    never lets that error out. *)
Theorem createSelection_too_small_throws
        (st : SelectionManager.t) (startX startY endX endY : Q) :
  Qabs (endX - startX) < 1 \/ Qabs (endY - startY) < 1 ->
  SelectionManager.createSelection st startX startY endX endY
    = Throws SelectionManager.tooSmall st /\
  (forall (eh : EventHandler.t) (im : ImageManager.t) (px py : Q),
      throws (EventHandler.commitDrawing eh im st px py) = false).
Proof.
  intro Hsmall. split.
  - destruct (createSelection_cases st startX startY endX endY)
      as [[_ E] | [[Hw Hh] _]]; [exact E|].
    destruct Hsmall; lra.
  - intros. apply commitDrawing_never_throws.
Qed.

Lemma createSelection_too_small_throws_witness :
  SelectionManager.createSelection SelectionManager.new 10 10 10.5 50
    = Throws SelectionManager.tooSmall SelectionManager.new.
Proof.
  apply (createSelection_too_small_throws SelectionManager.new 10 10 10.5 50).
  left. reflexivity.
Defined.

(** C8, as the specification has it, fails: the three ids are not ["1"],
    ["2"], ["3"], and deleting the id ["2"] finds nothing to delete. *)
Lemma numbering_scenario_bare_ids_fail :
  let three := SelectionManager.run SelectionManager.new threeCreates in
  SelectionManager.ids three <> ["1"; "2"; "3"]%string /\
  SelectionManager.ids (SelectionManager.deleteSelection three "2")
    <> ["1"; "2"]%string.
Proof. split; vm_compute; discriminate. Qed.

(** C8, amended.  Three creates yield the ids ["selection_1"],
    ["selection_2"], ["selection_3"] with the third active.  Deleting
    ["selection_2"] leaves the first and the third selection, in that
    order, with ids ["selection_1"], ["selection_2"]; the third one is
    still the active one, and the active id is now ["selection_2"].  The
    next create returns a selection with id ["selection_3"]. *)
Theorem numbering_scenario :
  let three := SelectionManager.run SelectionManager.new threeCreates in
  let two := SelectionManager.deleteSelection three "selection_2" in
  SelectionManager.ids three
    = ["selection_1"; "selection_2"; "selection_3"]%string /\
  map Selection.active (SelectionManager.selections three) = [false; false; true] /\
  SelectionManager.activeSelectionId three = Some "selection_3"%string /\
  SelectionManager.ids two = ["selection_1"; "selection_2"]%string /\
  map Selection.x (SelectionManager.selections two) = [10; 110] /\
  map Selection.active (SelectionManager.selections two) = [false; true] /\
  SelectionManager.activeSelectionId two = Some "selection_2"%string /\
  option_map Selection.id (SelectionManager.getActiveSelection two)
    = Some "selection_2"%string /\
  exists (created : Selection.t) (st' : SelectionManager.t),
    SelectionManager.createSelection two 160 160 200 200 = Returns created st' /\
    Selection.id created = "selection_3"%string /\
    SelectionManager.ids st'
      = ["selection_1"; "selection_2"; "selection_3"]%string.
Proof.
  cbv zeta.
  repeat (split; [vm_compute; reflexivity|]).
  eexists. eexists. split; [vm_compute; reflexivity|].
  split; vm_compute; reflexivity.
Qed.

Section SetActiveMissing.

Local Open Scope nat_scope.
Import SelectionManager.

Lemma find_hasId_none (id : string) (l : list Selection.t) :
  ~ In id (map Selection.id l) -> find (hasId id) l = None.
Proof.
  induction l as [|s l IH]; cbn; intro H; [reflexivity|].
  unfold hasId at 1. destruct (String.eqb_spec (Selection.id s) id) as [E|E].
  - exfalso. apply H. left. exact E.
  - apply IH. intro Hin. apply H. right. exact Hin.
Qed.

Lemma find_active_deactivated (l : list Selection.t) :
  find Selection.active (map (Selection.withActive false) l) = None.
Proof. induction l as [|s l IH]; cbn; auto. Qed.

(** With an id that no selection has, [setActiveSelection] only runs its
    first line. *)
Lemma setActiveSelection_missing (st : t) (id : string) :
  ~ In id (ids st) ->
  setActiveSelection st id
  = mk (map (Selection.withActive false) (selections st)) (activeSelectionId st).
Proof.
  intro H. unfold setActiveSelection.
  rewrite find_hasId_none; [reflexivity|].
  rewrite map_id_withActive. exact H.
Qed.

End SetActiveMissing.

(** C10. For an id that no selection of the store has, [setActiveSelection]
    deactivates every selection: afterwards the store holds the same
    selections in the same order, each with [active = false] and otherwise
    as it was, so none is active and [getActiveSelection] finds nothing;
    [activeSelectionId] keeps its previous value. *)
Theorem setActiveSelection_unknown_id (st : SelectionManager.t) (id : string) :
  ~ In id (SelectionManager.ids st) ->
  let st' := SelectionManager.setActiveSelection st id in
  SelectionManager.getAllSelections st'
    = map (Selection.withActive false) (SelectionManager.getAllSelections st) /\
  SelectionManager.ids st' = SelectionManager.ids st /\
  map Selection.rect (SelectionManager.getAllSelections st')
    = map Selection.rect (SelectionManager.getAllSelections st) /\
  SelectionManager.activeCount st' = 0%nat /\
  Forall (fun s => Selection.active s = false) (SelectionManager.getAllSelections st') /\
  SelectionManager.getActiveSelection st' = None /\
  SelectionManager.activeSelectionId st' = SelectionManager.activeSelectionId st.
Proof.
  intros H st'. subst st'. rewrite setActiveSelection_missing by exact H.
  unfold SelectionManager.activeCount, SelectionManager.getActiveSelection,
    SelectionManager.ids, SelectionManager.getAllSelections.
  cbn [SelectionManager.selections SelectionManager.activeSelectionId].
  split; [reflexivity|].
  split; [apply map_id_withActive|].
  split; [rewrite map_map; apply map_ext; intros []; reflexivity|].
  split; [apply countActive_deactivated|].
  split; [|split; [apply find_active_deactivated | reflexivity]].
  apply Forall_forall. intros s Hin.
  apply in_map_iff in Hin as (s0 & <- & _). reflexivity.
Qed.

(** In the store of the numbering scenario the third selection is active;
    activating an unknown id keeps the three selections, leaves none of
    them active and the active id untouched. *)
Lemma setActiveSelection_unknown_id_witness :
  let st := SelectionManager.run SelectionManager.new threeCreates in
  let st' := SelectionManager.setActiveSelection st "selection_9" in
  SelectionManager.activeCount st = 1%nat /\
  SelectionManager.ids st' = SelectionManager.ids st /\
  SelectionManager.activeCount st' = 0%nat /\
  SelectionManager.activeSelectionId st' = Some "selection_3"%string.
Proof.
  cbv zeta.
  destruct (setActiveSelection_unknown_id
              (SelectionManager.run SelectionManager.new threeCreates)
              "selection_9") as (_ & Hids & _ & H0 & _ & _ & Hid).
  - vm_compute. intros [E|[E|[E|[]]]]; discriminate E.
  - split; [vm_compute; reflexivity|]. split; [exact Hids|]. split; [exact H0|].
    rewrite Hid. vm_compute. reflexivity.
Defined.

(* ------------------------------------------------------------------ *)
(** ** The resize gesture *)

Ltac case_Qltb :=
  match goal with
  | |- context [Qltb ?a ?b] =>
      let E := fresh "E" in
      destruct (Qltb a b) eqn:E;
      [apply Qltb_lt in E | apply Qltb_ge in E]
  end.

(** Unfolds the three blocks of [resizeSelection] for a given handle and
    splits on every comparison. *)
Ltac resize_cases :=
  unfold EventHandler.resizedBounds, EventHandler.clampToImageBounds,
    EventHandler.enforceMinSize, EventHandler.applyHandle,
    EventHandler.withGeometry, EventHandler.minSize;
  cbn -[Qltb Qmin Qmax Qplus Qminus];
  repeat (case_Qltb; cbn -[Qltb Qmin Qmax Qplus Qminus]);
  simpl in * |-.

Section ResizeBounds.

Variable im : ImageManager.t.
Variable original : Selection.t.
Variables deltaX deltaY : Q.

Let ox := Selection.x original.
Let oy := Selection.y original.
Let ow := Selection.width original.
Let oh := Selection.height original.
Let imageW := ImageManager.originalWidth im.
Let imageH := ImageManager.originalHeight im.

(** West handles: the east edge [ox + ow] is the pinned one. *)
Lemma resizedBounds_west (h : EventHandler.Handle) :
  grabsWest h = true ->
  ow - deltaX < EventHandler.minSize ->
  0 <= ox + ow - EventHandler.minSize -> ox + ow <= imageW ->
  let r := EventHandler.resizedBounds im h original deltaX deltaY in
  Selection.width r == EventHandler.minSize /\
  Selection.x r + Selection.width r == ox + ow.
Proof.
  unfold EventHandler.minSize. intros Hh Hlt H0 HW.
  subst ox oy ow oh imageW imageH.
  destruct h; try discriminate Hh; clear Hh;
    resize_cases; try lra; split; split_minmax; lra.
Qed.

(** East handles: the west edge [ox] is the pinned one. *)
Lemma resizedBounds_east (h : EventHandler.Handle) :
  grabsEast h = true ->
  ow + deltaX < EventHandler.minSize ->
  0 <= ox -> ox + EventHandler.minSize <= imageW ->
  let r := EventHandler.resizedBounds im h original deltaX deltaY in
  Selection.width r == EventHandler.minSize /\
  Selection.x r == ox.
Proof.
  unfold EventHandler.minSize. intros Hh Hlt H0 HW.
  subst ox oy ow oh imageW imageH.
  destruct h; try discriminate Hh; clear Hh;
    resize_cases; try lra; split; split_minmax; lra.
Qed.

(** North handles: the south edge [oy + oh] is the pinned one. *)
Lemma resizedBounds_north (h : EventHandler.Handle) :
  grabsNorth h = true ->
  oh - deltaY < EventHandler.minSize ->
  0 <= oy + oh - EventHandler.minSize -> oy + oh <= imageH ->
  let r := EventHandler.resizedBounds im h original deltaX deltaY in
  Selection.height r == EventHandler.minSize /\
  Selection.y r + Selection.height r == oy + oh.
Proof.
  unfold EventHandler.minSize. intros Hh Hlt H0 HW.
  subst ox oy ow oh imageW imageH.
  destruct h; try discriminate Hh; clear Hh;
    resize_cases; try lra; split; split_minmax; lra.
Qed.

(** South handles: the north edge [oy] is the pinned one. *)
Lemma resizedBounds_south (h : EventHandler.Handle) :
  grabsSouth h = true ->
  oh + deltaY < EventHandler.minSize ->
  0 <= oy -> oy + EventHandler.minSize <= imageH ->
  let r := EventHandler.resizedBounds im h original deltaX deltaY in
  Selection.height r == EventHandler.minSize /\
  Selection.y r == oy.
Proof.
  unfold EventHandler.minSize. intros Hh Hlt H0 HW.
  subst ox oy ow oh imageW imageH.
  destruct h; try discriminate Hh; clear Hh;
    resize_cases; try lra; split; split_minmax; lra.
Qed.

End ResizeBounds.

Lemma assign_bounds_of (s b : Selection.t) :
  Selection.assign s (Selection.bounds_of b) = b.
Proof. destruct b. reflexivity. Qed.

Lemma nth_error_modifyFound {A : Type} (p : A -> bool) (f : A -> A) (l : list A) :
  forall (i : nat) (a : A),
    findIndex p l = Some i -> nth_error l i = Some a ->
    nth_error (modifyFound p f l) i = Some (f a).
Proof.
  induction l as [|b l IH]; intros i a Hf Hn; [discriminate Hf|].
  cbn in Hf |- *. destruct (p b) eqn:E.
  - injection Hf as <-. cbn in Hn |- *. now injection Hn as ->.
  - destruct (findIndex p l) as [j|]; [|discriminate Hf].
    injection Hf as <-. cbn in Hn |- *. now apply IH.
Qed.

(** [find] returns the object at the position [findIndex] returns. *)
Lemma find_vs_findIndex {A : Type} (p : A -> bool) (l : list A) :
  match findIndex p l with
  | Some i => exists a, nth_error l i = Some a /\ find p l = Some a /\ p a = true
  | None => find p l = None
  end.
Proof.
  induction l as [|a l IH]; cbn; [reflexivity|].
  destruct (p a) eqn:E; [exists a; auto|].
  destruct (findIndex p l) as [i|]; cbn; exact IH.
Qed.

(** During a resize gesture [resizeSelection] overwrites the referenced
    object with the bounds it has computed. *)
Lemma resizeSelection_writes (eh : EventHandler.t) (im : ImageManager.t)
      (sm : SelectionManager.t) (mouseX mouseY : Q) (ref : nat)
      (h : EventHandler.Handle) (original current : Selection.t) :
  resizing eh sm ref h original current ->
  nth_error
    (SelectionManager.getAllSelections
       (EventHandler.resizeSelection eh im sm mouseX mouseY)) ref
  = Some (EventHandler.resizedBounds im h original
            (gestureDeltaX eh im mouseX mouseY)
            (gestureDeltaY eh im mouseX mouseY)).
Proof.
  intros (Hc & Hh & Ho & Hn & Hf).
  unfold EventHandler.resizeSelection. rewrite Hc, Hh, Ho, Hn.
  unfold SelectionManager.getAllSelections, SelectionManager.updateSelection.
  cbn [SelectionManager.selections].
  rewrite (nth_error_modifyFound _ _ _ ref current Hf Hn).
  rewrite assign_bounds_of. reflexivity.
Qed.

(** C7, as the specification has it, fails.  A 6x50 selection on the west
    border of a 400x300 image is resized by its [w] handle one unit to the
    east: the width would drop to 5, it is set to 10, and the east edge,
    the one opposite to the handle, moves from 6 to 10. *)
Lemma resize_floor_moves_opposite_edge :
  resizing (resizeStarted 0 25 EventHandler.W 0 narrow) narrowStore
           0 EventHandler.W narrow narrow /\
  Selection.width narrow - gestureDeltaX (resizeStarted 0 25 EventHandler.W 0 narrow)
                                         testView 1 25 < EventHandler.minSize /\
  exists resized : Selection.t,
    nth_error
      (SelectionManager.getAllSelections
         (EventHandler.resizeSelection (resizeStarted 0 25 EventHandler.W 0 narrow)
                                       testView narrowStore 1 25)) 0
    = Some resized /\
    Selection.x resized + Selection.width resized == 10 /\
    ~ Selection.x resized + Selection.width resized
      == Selection.x narrow + Selection.width narrow.
Proof.
  split; [repeat split; vm_compute; reflexivity|].
  split; [vm_compute; reflexivity|].
  eexists. split; [vm_compute; reflexivity|].
  split; vm_compute; [reflexivity | discriminate].
Qed.

(** C7, amended.  During a resize gesture, when the dimension moved by the
    grabbed handle would drop below 10, [resizeSelection] sets it to 10
    with the opposite edge at its pre-gesture position and then clamps the
    rectangle to the image; the dimension is 10 and the opposite edge is
    pinned whenever the 10-unit rectangle anchored at that edge lies
    inside the image. *)
Theorem resize_floor_pins_opposite_edge
        (eh : EventHandler.t) (im : ImageManager.t) (sm : SelectionManager.t)
        (mouseX mouseY : Q) (ref : nat) (h : EventHandler.Handle)
        (original current : Selection.t) :
  resizing eh sm ref h original current ->
  let deltaX := gestureDeltaX eh im mouseX mouseY in
  let deltaY := gestureDeltaY eh im mouseX mouseY in
  let ox := Selection.x original in
  let oy := Selection.y original in
  let ow := Selection.width original in
  let oh := Selection.height original in
  let imageW := ImageManager.originalWidth im in
  let imageH := ImageManager.originalHeight im in
  exists resized : Selection.t,
    nth_error
      (SelectionManager.getAllSelections
         (EventHandler.resizeSelection eh im sm mouseX mouseY)) ref
    = Some resized /\
    (grabsWest h = true -> ow - deltaX < 10 ->
     0 <= ox + ow - 10 -> ox + ow <= imageW ->
     Selection.width resized == 10 /\
     Selection.x resized + Selection.width resized == ox + ow) /\
    (grabsEast h = true -> ow + deltaX < 10 ->
     0 <= ox -> ox + 10 <= imageW ->
     Selection.width resized == 10 /\ Selection.x resized == ox) /\
    (grabsNorth h = true -> oh - deltaY < 10 ->
     0 <= oy + oh - 10 -> oy + oh <= imageH ->
     Selection.height resized == 10 /\
     Selection.y resized + Selection.height resized == oy + oh) /\
    (grabsSouth h = true -> oh + deltaY < 10 ->
     0 <= oy -> oy + 10 <= imageH ->
     Selection.height resized == 10 /\ Selection.y resized == oy).
Proof.
  intros Hres deltaX deltaY ox oy ow oh imageW imageH.
  eexists. split; [apply (resizeSelection_writes _ _ _ _ _ _ _ _ _ Hres)|].
  fold deltaX deltaY.
  split; [|split; [|split]]; intros Hh Hlt H0 HW.
  - apply resizedBounds_west; assumption.
  - apply resizedBounds_east; assumption.
  - apply resizedBounds_north; assumption.
  - apply resizedBounds_south; assumption.
Qed.

(** The scenario of the specification: the 100x100 selection at (50, 50)
    is resized by its [se] handle from (150, 150) to (52, 52), a request
    for 2x2; it becomes 10x10 and its [nw] corner stays at (50, 50). *)
Lemma resize_floor_pins_opposite_edge_witness :
  exists resized : Selection.t,
    nth_error
      (SelectionManager.getAllSelections
         (EventHandler.resizeSelection (resizeStarted 150 150 EventHandler.SE 0 square)
                                       testView squareStore 52 52)) 0
    = Some resized /\
    Selection.width resized == 10 /\ Selection.height resized == 10 /\
    Selection.x resized == 50 /\ Selection.y resized == 50.
Proof.
  destruct (resize_floor_pins_opposite_edge
              (resizeStarted 150 150 EventHandler.SE 0 square)
              testView squareStore 52 52 0 EventHandler.SE square square)
    as (resized & Hn & _ & He & _ & Hs).
  - repeat split; vm_compute; reflexivity.
  - exists resized. split; [exact Hn|].
    destruct He as [Hw Hx];
      [reflexivity | vm_compute; reflexivity
       | vm_compute; discriminate | vm_compute; discriminate |].
    destruct Hs as [Hh Hy];
      [reflexivity | vm_compute; reflexivity
       | vm_compute; discriminate | vm_compute; discriminate |].
    cbn in Hx, Hy. auto.
Defined.

(** The first sentence of C7 for any position of the square: a 100x100
    selection that lies inside the image, resized by its [se] handle with
    a request for 2x2, becomes 10x10 and keeps its [nw] corner. *)
Lemma resize_se_square_to_floor
      (eh : EventHandler.t) (im : ImageManager.t) (sm : SelectionManager.t)
      (mouseX mouseY : Q) (ref : nat) (original current : Selection.t) :
  resizing eh sm ref EventHandler.SE original current ->
  Selection.width original == 100 -> Selection.height original == 100 ->
  0 <= Selection.x original -> 0 <= Selection.y original ->
  Selection.x original + 100 <= ImageManager.originalWidth im ->
  Selection.y original + 100 <= ImageManager.originalHeight im ->
  Selection.width original + gestureDeltaX eh im mouseX mouseY == 2 ->
  Selection.height original + gestureDeltaY eh im mouseX mouseY == 2 ->
  exists resized : Selection.t,
    nth_error
      (SelectionManager.getAllSelections
         (EventHandler.resizeSelection eh im sm mouseX mouseY)) ref
    = Some resized /\
    Selection.width resized == 10 /\ Selection.height resized == 10 /\
    Selection.x resized == Selection.x original /\
    Selection.y resized == Selection.y original.
Proof.
  intros Hres Hw Hh Hx Hy HW HH Hdx Hdy.
  eexists. split; [apply (resizeSelection_writes _ _ _ _ _ _ _ _ _ Hres)|].
  destruct (resizedBounds_east im original
              (gestureDeltaX eh im mouseX mouseY)
              (gestureDeltaY eh im mouseX mouseY) EventHandler.SE)
    as [Rw Rx]; try reflexivity; unfold EventHandler.minSize; try lra.
  destruct (resizedBounds_south im original
              (gestureDeltaX eh im mouseX mouseY)
              (gestureDeltaY eh im mouseX mouseY) EventHandler.SE)
    as [Rh Ry]; try reflexivity; unfold EventHandler.minSize; try lra.
  auto.
Qed.

(** How the handlers reach the situation of C2's counterexample.  The
    first of two selections is active and grabbed by a handle, so the
    snapshot records [active: true]; the Tab key then activates the second
    selection; the next pointer move writes the snapshot's fields back,
    [active] included. *)
Lemma resize_after_switch_leaves_two_active :
  let sm0 := SelectionManager.setActiveSelection
               (SelectionManager.run SelectionManager.new
                  [ SelectionManager.Create 0 0 50 50;
                    SelectionManager.Create 60 60 110 110 ])
               "selection_1" in
  let snapshot := Selection.mk "selection_1" 0 0 50 50 true in
  let eh := resizeStarted 50 50 EventHandler.SE 0 snapshot in
  let sm1 := SelectionManager.setActiveSelection sm0 "selection_2" in
  nth_error (SelectionManager.selections sm0) 0 = Some snapshot /\
  SelectionManager.activeCount sm1 = 1%nat /\
  SelectionManager.activeCount
    (EventHandler.resizeSelection eh testView sm1 60 60) = 2%nat.
Proof. cbv zeta. repeat split; vm_compute; reflexivity. Qed.

(** The write-back of a resize gesture on a selection that is still
    active is an update that the amended C2 allows: it is addressed to an
    active selection, so it does not switch on a second one, and it leaves
    the number of active selections where it was or below. *)
Lemma resize_write_back_allowed
      (eh : EventHandler.t) (im : ImageManager.t) (sm : SelectionManager.t)
      (mouseX mouseY : Q) (ref : nat) (h : EventHandler.Handle)
      (original current : Selection.t) :
  resizing eh sm ref h original current ->
  Selection.active current = true ->
  exists bounds : Selection.Bounds,
    EventHandler.resizeSelection eh im sm mouseX mouseY
    = SelectionManager.step sm
        (SelectionManager.Update (Selection.id current) bounds) /\
    Selection.b_active bounds = Some (Selection.active original) /\
    switchesOnSecond sm (SelectionManager.Update (Selection.id current) bounds)
    = false /\
    (SelectionManager.activeCount
       (EventHandler.resizeSelection eh im sm mouseX mouseY)
     <= SelectionManager.activeCount sm)%nat.
Proof.
  intros (Hc & Hh & Ho & Hn & Hf) Hact.
  unfold EventHandler.resizeSelection. rewrite Hc, Hh, Ho, Hn. cbv zeta.
  match goal with
  | |- context [Selection.bounds_of ?b] => set (newBounds := b)
  end.
  exists (Selection.bounds_of newBounds).
  pose proof (find_vs_findIndex
                (SelectionManager.hasId (Selection.id current))
                (SelectionManager.selections sm)) as Hfind.
  rewrite Hf in Hfind. destruct Hfind as (a & Ha & Hfind & _).
  rewrite Hn in Ha. injection Ha as <-.
  assert (Hb : Selection.b_active (Selection.bounds_of newBounds)
               = Some (Selection.active original)).
  { subst newBounds. unfold Selection.bounds_of. cbn [Selection.b_active]. f_equal.
    unfold EventHandler.resizedBounds, EventHandler.clampToImageBounds,
      EventHandler.enforceMinSize, EventHandler.withGeometry.
    cbv zeta. cbn [Selection.active].
    repeat match goal with
    | |- context [if Qltb ?a ?b then _ else _] => destruct (Qltb a b)
    end; cbn [Selection.active]; destruct h; reflexivity. }
  split; [reflexivity|]. split; [exact Hb|].
  assert (Hs : switchesOnSecond sm
                 (SelectionManager.Update (Selection.id current)
                                          (Selection.bounds_of newBounds)) = false).
  { unfold switchesOnSecond. rewrite Hfind, Hact.
    destruct (Selection.b_active (Selection.bounds_of newBounds)) as [[|]|];
      reflexivity. }
  split; [exact Hs|].
  unfold SelectionManager.activeCount, SelectionManager.getAllSelections,
    SelectionManager.updateSelection.
  cbn [SelectionManager.selections].
  fold (countActive (SelectionManager.selections sm)).
  fold (countActive
          (modifyFound (SelectionManager.hasId (Selection.id current))
             (fun s => Selection.assign s (Selection.bounds_of newBounds))
             (SelectionManager.selections sm))).
  destruct (Selection.active original) eqn:Eo.
  - rewrite countActive_modifyFound_activate
      by (intro s; now apply active_assign_true).
    rewrite Hfind, Hact. lia.
  - apply countActive_modifyFound_le. intro s.
    unfold Selection.assign. rewrite Hb. cbn. discriminate.
Qed.

(* ------------------------------------------------------------------ *)
(** * Further properties of the code *)

(** ** ImageManager *)

(** Names every quotient [a / b] of the goal whose divisor is a positive
    constant or a number known to be positive, keeping [d * b == a]. *)
Ltac name_quotients :=
  repeat match goal with
  | |- context [?a / ?b] =>
      let d := fresh "d" in
      let Hd := fresh "Hd" in
      assert (Hd : a / b * b == a)
        by (apply Qdiv_mul_cancel; solve [reflexivity | assumption | lra]);
      revert Hd; generalize (a / b); intros d Hd
  end.

(** The zoom methods and [constrainImagePosition] write neither the image
    nor the bounds nor the canvas. *)
Lemma constrainImagePosition_frame (st : ImageManager.t) :
  let st' := ImageManager.constrainImagePosition st in
  ImageManager.image st' = ImageManager.image st /\
  ImageManager.minScale st' = ImageManager.minScale st /\
  ImageManager.maxScale st' = ImageManager.maxScale st /\
  ImageManager.scale st' = ImageManager.scale st /\
  ImageManager.displayWidth st' = ImageManager.displayWidth st /\
  ImageManager.displayHeight st' = ImageManager.displayHeight st.
Proof.
  unfold ImageManager.constrainImagePosition.
  destruct (ImageManager.image st) eqn:E; cbn; auto 10.
Qed.

Lemma setScale_cases (st : ImageManager.t) (q : Q) (cx cy : option Q) :
  ImageManager.setScale st q cx cy = st \/
  (ImageManager.scale (ImageManager.setScale st q cx cy) = clampScale st q /\
   ImageManager.minScale (ImageManager.setScale st q cx cy) = ImageManager.minScale st /\
   ImageManager.maxScale (ImageManager.setScale st q cx cy) = ImageManager.maxScale st).
Proof.
  unfold ImageManager.setScale.
  destruct (ImageManager.image st); [|auto].
  fold (clampScale st q).
  destruct (Qltb _ _); [auto|]. right.
  destruct cx, cy; cbv zeta;
    match goal with
    | |- context [ImageManager.constrainImagePosition ?pre] =>
        destruct (constrainImagePosition_frame pre) as (_ & Hl & Hh & Hs & _);
        cbv zeta in Hl, Hh, Hs; rewrite Hl, Hh, Hs
    end; cbn; auto.
Qed.

Lemma setScaleKeepCentered_cases (st : ImageManager.t) (q : Q) :
  ImageManager.setScaleKeepCentered st q = st \/
  (ImageManager.scale (ImageManager.setScaleKeepCentered st q) = clampScale st q /\
   ImageManager.minScale (ImageManager.setScaleKeepCentered st q) = ImageManager.minScale st /\
   ImageManager.maxScale (ImageManager.setScaleKeepCentered st q) = ImageManager.maxScale st).
Proof.
  unfold ImageManager.setScaleKeepCentered.
  destruct (ImageManager.image st); [|auto].
  fold (clampScale st q).
  destruct (Qltb _ _); [auto|]. right. cbn. auto.
Qed.

(** X1. Whatever scale is requested, and whatever the anchor,
    [setScaleKeepCentered], [setScale] and [setZoomLevel] leave the scale
    between [minScale] and [maxScale]. *)
Theorem scale_writers_keep_bounds
        (st : ImageManager.t) (q level : Q) (cx cy : option Q) (keepCentered : bool) :
  ImageManager.minScale st <= ImageManager.maxScale st ->
  ImageManager.scale_in_bounds st ->
  ImageManager.scale_in_bounds (ImageManager.setScaleKeepCentered st q) /\
  ImageManager.scale_in_bounds (ImageManager.setScale st q cx cy) /\
  ImageManager.scale_in_bounds (ImageManager.setZoomLevel st level keepCentered).
Proof.
  intros Hord Hin.
  assert (K : forall r, ImageManager.scale_in_bounds
                          (ImageManager.setScaleKeepCentered st r)).
  { intro r. destruct (setScaleKeepCentered_cases st r) as [E | (Es & El & Eh)].
    - rewrite E. exact Hin.
    - unfold ImageManager.scale_in_bounds. rewrite Es, El, Eh.
      apply clampScale_bounds. exact Hord. }
  assert (S : forall r a b, ImageManager.scale_in_bounds
                              (ImageManager.setScale st r a b)).
  { intros r a b. destruct (setScale_cases st r a b) as [E | (Es & El & Eh)].
    - rewrite E. exact Hin.
    - unfold ImageManager.scale_in_bounds. rewrite Es, El, Eh.
      apply clampScale_bounds. exact Hord. }
  split; [apply K|]. split; [apply S|].
  unfold ImageManager.setZoomLevel. destruct keepCentered; [apply K | apply S].
Qed.

Lemma scale_writers_keep_bounds_witness :
  ImageManager.scale_in_bounds (ImageManager.setScaleKeepCentered sampleView 100) /\
  ImageManager.scale_in_bounds (ImageManager.setScale sampleView 100 (Some 10) None) /\
  ImageManager.scale_in_bounds (ImageManager.setZoomLevel sampleView 1000 false).
Proof.
  apply (scale_writers_keep_bounds sampleView 100 1000 (Some 10) None false).
  - vm_compute. discriminate.
  - split; vm_compute; discriminate.
Defined.

(** X2. For a loaded image of positive size, [fitImageToCanvas] chooses a
    scale between [minScale] and 1, keeps the displayed size equal to the
    original size times the scale, centres the image on the canvas, and,
    unless the scale had to be raised to [minScale], leaves the 20-pixel
    margin free on every side. *)
Theorem fitImageToCanvas_fits (st : ImageManager.t) :
  ImageManager.hasImage st = true ->
  0 < ImageManager.originalWidth st -> 0 < ImageManager.originalHeight st ->
  ImageManager.minScale st <= 1 ->
  let st' := ImageManager.fitImageToCanvas st in
  (ImageManager.minScale st <= ImageManager.scale st' /\ ImageManager.scale st' <= 1) /\
  ImageManager.display_consistent st' /\
  (ImageManager.offsetX st' + ImageManager.displayWidth st' / 2
     == ImageManager.canvasWidth st / 2 /\
   ImageManager.offsetY st' + ImageManager.displayHeight st' / 2
     == ImageManager.canvasHeight st / 2) /\
  (ImageManager.minScale st < ImageManager.scale st' ->
   ImageManager.displayWidth st' <= ImageManager.canvasWidth st - 40 /\
   ImageManager.displayHeight st' <= ImageManager.canvasHeight st - 40).
Proof.
  intros Himg HW HH Hmin.
  unfold ImageManager.fitImageToCanvas, ImageManager.hasImage in *.
  destruct (ImageManager.image st); [clear Himg|discriminate].
  cbv zeta. unfold ImageManager.display_consistent. cbn.
  set (W := ImageManager.originalWidth st) in *.
  set (H := ImageManager.originalHeight st) in *.
  set (cw := ImageManager.canvasWidth st).
  set (ch := ImageManager.canvasHeight st).
  set (m := ImageManager.minScale st) in *.
  assert (HdX : (cw - 20 * 2) / W * W == cw - 20 * 2)
    by (apply Qdiv_mul_cancel; exact HW).
  assert (HdY : (ch - 20 * 2) / H * H == ch - 20 * 2)
    by (apply Qdiv_mul_cancel; exact HH).
  revert HdX HdY.
  generalize ((cw - 20 * 2) / W) ((ch - 20 * 2) / H). intros sx sy HdX HdY.
  set (sc := Qmax (Qmin sx (Qmin sy 1)) m).
  assert (Hsc : m <= sc /\ sc <= 1 /\ (m < sc -> sc <= sx /\ sc <= sy)).
  { subst sc.
    destruct (Q.min_spec sy 1) as [[? E1] | [? E1]]; rewrite E1;
      split_minmax; (split; [|split; [|intro; split]]); lra. }
  destruct Hsc as (H1 & H2 & H3).
  split; [split; assumption|].
  split; [split; reflexivity|].
  split.
  - split; field.
  - intro Hgt. destruct (H3 Hgt) as [Hx Hy]. split; nra.
Qed.

(** The scenario of the specification: a 4000x3000 image on an 800x600
    canvas is shown at scale 14/75 (about 0.1867), centred. *)
Lemma fitImageToCanvas_fits_witness :
  let st := ImageManager.setImage (ImageManager.new 800 600)
                                  (ImageManager.mkImage 4000 3000) in
  let st' := ImageManager.fitImageToCanvas st in
  ImageManager.scale st' == 14 # 75 /\
  ImageManager.displayWidth st' <= 800 - 40 /\
  ImageManager.offsetX st' + ImageManager.displayWidth st' / 2 == 800 / 2.
Proof.
  cbv zeta.
  destruct (fitImageToCanvas_fits
              (ImageManager.setImage (ImageManager.new 800 600)
                                     (ImageManager.mkImage 4000 3000)))
    as (_ & _ & (Hc & _) & Hm); try reflexivity.
  - vm_compute. discriminate.
  - split; [vm_compute; reflexivity|]. split.
    + apply Hm. vm_compute. reflexivity.
    + exact Hc.
Defined.

(** X3. After [constrainImagePosition], on each axis: an image no larger
    than the canvas is at most 100 pixels away from the centred position;
    a larger image overlaps the canvas by at least [min 200 (0.3 * size)]
    pixels on both sides.  Only the offsets are written. *)
Theorem constrainImagePosition_window (st : ImageManager.t) :
  ImageManager.hasImage st = true ->
  0 <= ImageManager.canvasWidth st -> 0 <= ImageManager.canvasHeight st ->
  let st' := ImageManager.constrainImagePosition st in
  let cw := ImageManager.canvasWidth st in
  let ch := ImageManager.canvasHeight st in
  let dw := ImageManager.displayWidth st in
  let dh := ImageManager.displayHeight st in
  (dw <= cw ->
   (cw - dw) / 2 - 100 <= ImageManager.offsetX st' /\
   ImageManager.offsetX st' <= (cw - dw) / 2 + 100) /\
  (cw < dw ->
   Qmin 200 (dw * 0.3) <= ImageManager.offsetX st' + dw /\
   ImageManager.offsetX st' <= cw - Qmin 200 (dw * 0.3)) /\
  (dh <= ch ->
   (ch - dh) / 2 - 100 <= ImageManager.offsetY st' /\
   ImageManager.offsetY st' <= (ch - dh) / 2 + 100) /\
  (ch < dh ->
   Qmin 200 (dh * 0.3) <= ImageManager.offsetY st' + dh /\
   ImageManager.offsetY st' <= ch - Qmin 200 (dh * 0.3)) /\
  ImageManager.scale st' = ImageManager.scale st /\
  ImageManager.displayWidth st' = dw /\ ImageManager.displayHeight st' = dh.
Proof.
  intros Himg Hcw Hch.
  unfold ImageManager.constrainImagePosition, ImageManager.hasImage in *.
  destruct (ImageManager.image st); [clear Himg|discriminate].
  cbv zeta. cbn.
  set (cw := ImageManager.canvasWidth st) in *.
  set (ch := ImageManager.canvasHeight st) in *.
  set (dw := ImageManager.displayWidth st).
  set (dh := ImageManager.displayHeight st).
  split; [|split; [|split; [|split; [|auto]]]].
  - intro Hle. apply Qleb_le in Hle. rewrite Hle.
    generalize ((cw - dw) / 2). intro c. split_minmax; split; lra.
  - intro Hgt. pose proof Hgt as Hb. apply Qleb_gt in Hb. rewrite Hb.
    split_minmax; split; lra.
  - intro Hle. apply Qleb_le in Hle. rewrite Hle.
    generalize ((ch - dh) / 2). intro c. split_minmax; split; lra.
  - intro Hgt. pose proof Hgt as Hb. apply Qleb_gt in Hb. rewrite Hb.
    split_minmax; split; lra.
Qed.

Lemma constrainImagePosition_window_witness :
  let st := ImageManager.withView sampleView 1 400 300 5000 (-5000) in
  let st' := ImageManager.constrainImagePosition st in
  ImageManager.offsetX st' <= (800 - 400) / 2 + 100 /\
  (600 - 300) / 2 - 100 <= ImageManager.offsetY st'.
Proof.
  cbv zeta.
  destruct (constrainImagePosition_window
              (ImageManager.withView sampleView 1 400 300 5000 (-5000)))
    as (Hx & _ & Hy & _); try reflexivity; try (vm_compute; discriminate).
  split.
  - apply Hx. vm_compute. discriminate.
  - apply Hy. vm_compute. discriminate.
Defined.

Lemma constrainImagePosition_axes (st : ImageManager.t) :
  ImageManager.hasImage st = true ->
  ImageManager.constrainImagePosition st
  = ImageManager.withOffset st
      (constrainAxis (ImageManager.canvasWidth st) (ImageManager.displayWidth st)
                     (ImageManager.offsetX st))
      (constrainAxis (ImageManager.canvasHeight st) (ImageManager.displayHeight st)
                     (ImageManager.offsetY st)).
Proof.
  unfold ImageManager.constrainImagePosition, ImageManager.hasImage.
  destruct (ImageManager.image st); [reflexivity|discriminate].
Qed.

Lemma constrainAxis_idempotent (canvas display offset : Q) :
  0 <= canvas ->
  constrainAxis canvas display (constrainAxis canvas display offset)
  == constrainAxis canvas display offset.
Proof.
  intro Hc. unfold constrainAxis.
  destruct (Qleb display canvas) eqn:E.
  - generalize ((canvas - display) / 2). intro c.
    destruct (Q.min_spec offset (c + 100)) as [[? E1] | [? E1]]; rewrite E1;
      destruct (Q.max_spec (c - 100) offset) as [[? E2] | [? E2]];
      try rewrite E2; split_minmax; lra.
  - apply Qleb_gt in E.
    destruct (Q.min_spec 200 (display * 0.3)) as [[? E0] | [? E0]]; rewrite !E0.
    + destruct (Q.min_spec offset (canvas - 200)) as [[? E1] | [? E1]]; rewrite E1;
        destruct (Q.max_spec (200 - display) offset) as [[? E2] | [? E2]];
        try rewrite E2; split_minmax; lra.
    + destruct (Q.min_spec offset (canvas - display * 0.3)) as [[? E1] | [? E1]];
        rewrite E1;
        destruct (Q.max_spec (display * 0.3 - display) offset) as [[? E2] | [? E2]];
        try rewrite E2; split_minmax; lra.
Qed.

(** X4. Constraining the position twice is the same as constraining it
    once: a position that [constrainImagePosition] has produced is
    accepted by it as it is. *)
Theorem constrainImagePosition_idempotent (st : ImageManager.t) :
  ImageManager.hasImage st = true ->
  0 <= ImageManager.canvasWidth st -> 0 <= ImageManager.canvasHeight st ->
  let once := ImageManager.constrainImagePosition st in
  let twice := ImageManager.constrainImagePosition once in
  ImageManager.offsetX twice == ImageManager.offsetX once /\
  ImageManager.offsetY twice == ImageManager.offsetY once /\
  ImageManager.scale twice = ImageManager.scale once /\
  ImageManager.displayWidth twice = ImageManager.displayWidth once /\
  ImageManager.displayHeight twice = ImageManager.displayHeight once.
Proof.
  intros Himg Hcw Hch once twice. subst twice once.
  rewrite (constrainImagePosition_axes st Himg).
  rewrite constrainImagePosition_axes by exact Himg.
  cbn. split; [|split; [|auto]].
  - apply constrainAxis_idempotent. exact Hcw.
  - apply constrainAxis_idempotent. exact Hch.
Qed.

Lemma constrainImagePosition_idempotent_witness :
  let once := ImageManager.constrainImagePosition
                (ImageManager.withView sampleView 3 1200 900 5000 (-5000)) in
  ImageManager.offsetX (ImageManager.constrainImagePosition once)
  == ImageManager.offsetX once.
Proof.
  cbv zeta.
  apply (constrainImagePosition_idempotent
           (ImageManager.withView sampleView 3 1200 900 5000 (-5000)));
    try reflexivity; vm_compute; discriminate.
Defined.

(** X5. With a positive scale and a displayed size that matches it, a
    canvas point lies on the displayed image exactly when its image
    coordinates lie in [[0, originalWidth] x [0, originalHeight]]. *)
Theorem isPointInImage_iff_image_coordinates (st : ImageManager.t) (px py : Q) :
  0 < ImageManager.scale st ->
  ImageManager.display_consistent st ->
  let p := ImageManager.canvasToImage st px py in
  ImageManager.isPointInImage st px py = true <->
  (0 <= Point.x p /\ Point.x p <= ImageManager.originalWidth st) /\
  (0 <= Point.y p /\ Point.y p <= ImageManager.originalHeight st).
Proof.
  intros Hs [Hdw Hdh]. cbv zeta.
  unfold ImageManager.isPointInImage, ImageManager.getImageBounds,
    ImageManager.canvasToImage. cbn.
  rewrite !andb_true_iff, !Qleb_le.
  assert (Hx : (px - ImageManager.offsetX st) / ImageManager.scale st
               * ImageManager.scale st == px - ImageManager.offsetX st)
    by (apply Qdiv_mul_cancel; exact Hs).
  assert (Hy : (py - ImageManager.offsetY st) / ImageManager.scale st
               * ImageManager.scale st == py - ImageManager.offsetY st)
    by (apply Qdiv_mul_cancel; exact Hs).
  revert Hx Hy.
  generalize ((px - ImageManager.offsetX st) / ImageManager.scale st)
             ((py - ImageManager.offsetY st) / ImageManager.scale st).
  intros ix iy Hx Hy.
  rewrite Hdw, Hdh.
  split.
  - intros [[[H1 H2] H3] H4]. repeat split; nra.
  - intros [[H1 H2] [H3 H4]]. repeat split; nra.
Qed.

Lemma isPointInImage_iff_image_coordinates_witness :
  ImageManager.isPointInImage sampleView 300 200 = true <->
  (0 <= Point.x (ImageManager.canvasToImage sampleView 300 200) /\
   Point.x (ImageManager.canvasToImage sampleView 300 200)
     <= ImageManager.originalWidth sampleView) /\
  (0 <= Point.y (ImageManager.canvasToImage sampleView 300 200) /\
   Point.y (ImageManager.canvasToImage sampleView 300 200)
     <= ImageManager.originalHeight sampleView).
Proof.
  apply (isPointInImage_iff_image_coordinates sampleView 300 200).
  - reflexivity.
  - split; vm_compute; reflexivity.
Defined.

(** X6. [clampToImage] always returns a point of the displayed image, and
    returns a point of the displayed image unchanged. *)
Theorem clampToImage_lands_on_image (st : ImageManager.t) (px py : Q) :
  0 <= ImageManager.displayWidth st -> 0 <= ImageManager.displayHeight st ->
  let p := ImageManager.clampToImage st px py in
  ImageManager.isPointInImage st (Point.x p) (Point.y p) = true /\
  (ImageManager.isPointInImage st px py = true -> Point.eq p (Point.mk px py)).
Proof.
  intros Hw Hh. cbv zeta.
  unfold ImageManager.clampToImage, ImageManager.isPointInImage,
    ImageManager.getImageBounds, Point.eq. cbn.
  rewrite !andb_true_iff, !Qleb_le.
  split.
  - repeat split; split_minmax; lra.
  - intros [[[H1 H2] H3] H4]. split; split_minmax; lra.
Qed.

Lemma clampToImage_lands_on_image_witness :
  ImageManager.isPointInImage sampleView
    (Point.x (ImageManager.clampToImage sampleView 5000 (-7)))
    (Point.y (ImageManager.clampToImage sampleView 5000 (-7))) = true.
Proof.
  apply (clampToImage_lands_on_image sampleView 5000 (-7));
    vm_compute; discriminate.
Defined.

(** X7. The zoom buttons are disabled exactly when pressing them would do
    nothing at the bound: with an image loaded and the scale within
    positive bounds, [zoomIn] leaves the state unchanged when [canZoomIn]
    is false, and [zoomOut] leaves it unchanged when [canZoomOut] is
    false. *)
Theorem zoom_disabled_is_noop (st : ImageManager.t) :
  ImageManager.hasImage st = true ->
  0 < ImageManager.minScale st ->
  ImageManager.scale_in_bounds st ->
  (ImageManager.canZoomIn st = false -> ImageManager.zoomIn st = st) /\
  (ImageManager.canZoomOut st = false -> ImageManager.zoomOut st = st).
Proof.
  intros Himg Hmin [Hlo Hhi].
  unfold ImageManager.canZoomIn, ImageManager.canZoomOut.
  split; intro Hc; apply Qltb_ge in Hc.
  - unfold ImageManager.zoomIn.
    destruct (setScaleKeepCentered_scale st
                (Qmin (ImageManager.scale st * 1.2) (ImageManager.maxScale st)) Himg)
      as [[_ E] | [Hd _]]; [exact E|].
    exfalso. revert Hd. unfold clampScale.
    apply Qabs_case; intros ? Hd; revert Hd; split_minmax; intro; lra.
  - unfold ImageManager.zoomOut.
    assert (Hq : ImageManager.scale st / 1.2 * 1.2 == ImageManager.scale st)
      by (apply Qdiv_mul_cancel; reflexivity).
    revert Hq. generalize (ImageManager.scale st / 1.2). intros d Hq.
    destruct (setScaleKeepCentered_scale st
                (Qmax d (ImageManager.minScale st)) Himg)
      as [[_ E] | [Hd _]]; [exact E|].
    exfalso. unfold clampScale in Hd.
    destruct (Q.max_spec d (ImageManager.minScale st)) as [[? E1] | [? E1]];
      rewrite E1 in Hd; revert Hd;
      apply Qabs_case; intros ? Hd; revert Hd; split_minmax; intro; lra.
Qed.

Lemma zoom_disabled_is_noop_witness :
  let atMax := ImageManager.withView sampleView 5 2000 1500 0 0 in
  ImageManager.canZoomIn atMax = false /\ ImageManager.zoomIn atMax = atMax.
Proof.
  cbv zeta. split; [reflexivity|].
  apply (zoom_disabled_is_noop (ImageManager.withView sampleView 5 2000 1500 0 0)).
  - reflexivity.
  - reflexivity.
  - split; vm_compute; discriminate.
  - reflexivity.
Defined.

(* ------------------------------------------------------------------ *)
(** ** SelectionManager *)

Section StoreIdentity.

Local Open Scope nat_scope.
Import SelectionManager.

Lemma decimal_inj (n m : nat) : decimal n = decimal m -> n = m.
Proof.
  unfold decimal. intro H.
  apply DecimalNat.Unsigned.to_uint_inj.
  pose proof (NilEmpty.usu (Nat.to_uint n)) as Hn.
  pose proof (NilEmpty.usu (Nat.to_uint m)) as Hm.
  rewrite H in Hn. rewrite Hn in Hm. now injection Hm.
Qed.

Lemma selection_id_inj (n m : nat) : selection_id n = selection_id m -> n = m.
Proof.
  unfold selection_id. cbn. intro H.
  apply decimal_inj. congruence.
Qed.

Lemma hasId_selection_id (n : nat) (s : Selection.t) :
  hasId (selection_id n) s = true <-> Selection.id s = selection_id n.
Proof. unfold hasId. apply String.eqb_eq. Qed.

(** No selection of a store with contiguous ids carries the next id. *)
Lemma next_id_is_fresh (l : list Selection.t) :
  map Selection.id l = contiguous_ids (List.length l) ->
  forall s, In s l -> hasId (selection_id (List.length l + 1)) s = false.
Proof.
  intros Hids s Hin.
  destruct (hasId _ s) eqn:E; [|reflexivity]. exfalso.
  apply hasId_selection_id in E.
  assert (Hm : In (Selection.id s) (map Selection.id l)) by (apply in_map; exact Hin).
  rewrite Hids in Hm. unfold contiguous_ids in Hm.
  apply in_map_iff in Hm as (k & Hk & Hseq).
  rewrite E in Hk. apply selection_id_inj in Hk.
  apply in_seq in Hseq. lia.
Qed.

Lemma modifyFound_none {A : Type} (p : A -> bool) (f : A -> A) (l : list A) :
  (forall a, In a l -> p a = false) -> modifyFound p f l = l.
Proof.
  induction l as [|a l IH]; intro H; [reflexivity|].
  cbn. rewrite (H a (or_introl eq_refl)). f_equal.
  apply IH. intros b Hb. apply H. right. exact Hb.
Qed.

Lemma findIndex_none {A : Type} (p : A -> bool) (l : list A) :
  (forall a, In a l -> p a = false) -> findIndex p l = None.
Proof.
  induction l as [|a l IH]; intro H; [reflexivity|].
  cbn. rewrite (H a (or_introl eq_refl)).
  rewrite IH; [reflexivity|]. intros b Hb. apply H. right. exact Hb.
Qed.

Lemma find_none {A : Type} (p : A -> bool) (l : list A) :
  (forall a, In a l -> p a = false) -> find p l = None.
Proof.
  induction l as [|a l IH]; intro H; [reflexivity|].
  cbn. rewrite (H a (or_introl eq_refl)).
  apply IH. intros b Hb. apply H. right. exact Hb.
Qed.

Lemma find_app_last {A : Type} (p : A -> bool) (l : list A) (a : A) :
  (forall b, In b l -> p b = false) -> p a = true ->
  find p (l ++ [a]) = Some a /\
  forall f, modifyFound p f (l ++ [a]) = l ++ [f a].
Proof.
  intros Hl Ha. induction l as [|b l IH]; cbn.
  - rewrite Ha. auto.
  - rewrite (Hl b (or_introl eq_refl)).
    destruct IH as [IH1 IH2]; [intros c Hc; apply Hl; right; exact Hc|].
    split; [exact IH1|]. intro f. now rewrite IH2.
Qed.

Lemma not_in_ids_hasId (id : string) (l : list Selection.t) :
  ~ In id (map Selection.id l) -> forall s, In s l -> hasId id s = false.
Proof.
  intros H s Hin. unfold hasId.
  destruct (String.eqb_spec (Selection.id s) id) as [E|E]; [|reflexivity].
  exfalso. apply H. rewrite <- E. apply in_map. exact Hin.
Qed.

End StoreIdentity.

(** X8. An id that no selection carries is not an error: [updateSelection]
    and [deleteSelection] then leave the store exactly as it was. *)
Theorem unknown_id_is_noop (st : SelectionManager.t) (id : string)
        (bounds : Selection.Bounds) :
  ~ In id (SelectionManager.ids st) ->
  SelectionManager.updateSelection st id bounds = st /\
  SelectionManager.deleteSelection st id = st.
Proof.
  intro H. unfold SelectionManager.ids, SelectionManager.getAllSelections in H.
  pose proof (not_in_ids_hasId id _ H) as Hno.
  split.
  - unfold SelectionManager.updateSelection.
    rewrite modifyFound_none by exact Hno. destruct st; reflexivity.
  - unfold SelectionManager.deleteSelection.
    rewrite findIndex_none by exact Hno. reflexivity.
Qed.

Lemma unknown_id_is_noop_witness :
  let st := SelectionManager.run SelectionManager.new threeCreates in
  SelectionManager.updateSelection st "selection_7" (Selection.bounds_xy 1 2) = st /\
  SelectionManager.deleteSelection st "selection_7" = st.
Proof.
  apply (unknown_id_is_noop
           (SelectionManager.run SelectionManager.new threeCreates)
           "selection_7" (Selection.bounds_xy 1 2)).
  vm_compute. intros [E|[E|[E|[]]]]; discriminate E.
Defined.

(** X9. In a store whose ids are contiguous, a create of a rectangle at
    least 1 wide and high appends one selection and returns it: its id is
    the next number, it spans exactly the rectangle between the two given
    corners whatever their order, it is active, every other selection is
    inactive and otherwise untouched, and [activeSelectionId] is its id. *)
Theorem createSelection_appends_active
        (st : SelectionManager.t) (startX startY endX endY : Q) :
  SelectionManager.ids st
    = SelectionManager.contiguous_ids (List.length (SelectionManager.selections st)) ->
  1 <= Qabs (endX - startX) -> 1 <= Qabs (endY - startY) ->
  exists created : Selection.t,
    SelectionManager.createSelection st startX startY endX endY
    = Returns created
        (SelectionManager.mk
           (map (Selection.withActive false) (SelectionManager.selections st)
            ++ [created])
           (Some (Selection.id created))) /\
    Selection.id created
      = SelectionManager.selection_id (List.length (SelectionManager.selections st) + 1) /\
    Selection.active created = true /\
    (Selection.x created == Qmin startX endX /\
     Selection.x created + Selection.width created == Qmax startX endX) /\
    (Selection.y created == Qmin startY endY /\
     Selection.y created + Selection.height created == Qmax startY endY).
Proof.
  intros Hids Hw Hh.
  set (l := SelectionManager.selections st) in *.
  set (sel := Selection.mk (SelectionManager.selection_id (List.length l + 1))
                (Qmin startX endX) (Qmin startY endY)
                (Qabs (endX - startX)) (Qabs (endY - startY)) false).
  exists (Selection.withActive true sel).
  assert (Hfresh : forall b, In b (map (Selection.withActive false) l) ->
            SelectionManager.hasId (Selection.id sel) b = false).
  { intros b Hb. apply in_map_iff in Hb as (b0 & <- & Hb0).
    apply (next_id_is_fresh l Hids b0 Hb0). }
  assert (Hself : SelectionManager.hasId (Selection.id sel) sel = true)
    by (apply String.eqb_refl).
  destruct (find_app_last _ _ sel Hfresh Hself) as [Hfind Hmod].
  split; [|split; [reflexivity|split; [reflexivity|]]].
  - unfold SelectionManager.createSelection. fold l. fold sel.
    cbn [Selection.width Selection.height sel].
    apply Qltb_ge in Hw, Hh. rewrite Hw, Hh. cbn [orb].
    unfold SelectionManager.setActiveSelection.
    cbn [SelectionManager.selections SelectionManager.activeSelectionId].
    rewrite map_app. cbn [map].
    change (Selection.withActive false sel) with sel.
    rewrite Hfind, Hmod.
    cbn [SelectionManager.selections]. rewrite last_last. reflexivity.
  - subst sel.
    cbn [Selection.withActive Selection.x Selection.y
         Selection.width Selection.height].
    split; split; try reflexivity.
    + apply Qabs_case; intro; split_minmax; lra.
    + apply Qabs_case; intro; split_minmax; lra.
Qed.

Lemma createSelection_appends_active_witness :
  exists created : Selection.t,
    SelectionManager.createSelection
      (SelectionManager.run SelectionManager.new threeCreates) 200 90 160 40
    = Returns created
        (SelectionManager.mk
           (map (Selection.withActive false)
                (SelectionManager.selections
                   (SelectionManager.run SelectionManager.new threeCreates))
            ++ [created])
           (Some (Selection.id created))) /\
    Selection.id created = "selection_4"%string /\
    Selection.x created + Selection.width created == 200.
Proof.
  destruct (createSelection_appends_active
              (SelectionManager.run SelectionManager.new threeCreates) 200 90 160 40)
    as (created & Hc & Hid & _ & (_ & Hx) & _).
  - vm_compute. reflexivity.
  - vm_compute. discriminate.
  - vm_compute. discriminate.
  - exists created. split; [exact Hc|]. split.
    + rewrite Hid. vm_compute. reflexivity.
    + rewrite Hx. vm_compute. reflexivity.
Defined.

Section StoreInvariant.

Local Open Scope nat_scope.
Import SelectionManager.

Lemma app_eq_same_length {A : Type} (l1 l1' l2 l2' : list A) :
  l1 ++ l2 = l1' ++ l2' -> List.length l1 = List.length l1' ->
  l1 = l1' /\ l2 = l2'.
Proof.
  revert l1'. induction l1 as [|a l1 IH]; intros [|a' l1'] H Hl;
    try discriminate Hl; cbn in *; [auto|].
  injection H as -> H. injection Hl as Hl.
  destruct (IH l1' H Hl) as [-> ->]. auto.
Qed.

(** Where [findIndex] stops: the array splits around the found object. *)
Lemma findIndex_split {A : Type} (p : A -> bool) (l : list A) :
  forall k, findIndex p l = Some k ->
    exists l1 d l2,
      l = l1 ++ d :: l2 /\ List.length l1 = k /\ p d = true /\
      (forall b, In b l1 -> p b = false) /\ splice1 k l = l1 ++ l2.
Proof.
  induction l as [|a l IH]; intros k H; [discriminate H|].
  cbn in H. destruct (p a) eqn:E.
  - injection H as <-. exists [], a, l. cbn. repeat split; auto.
    intros b [].
  - destruct (findIndex p l) as [j|]; [|discriminate H].
    injection H as <-.
    destruct (IH j eq_refl) as (l1 & d & l2 & -> & Hlen & Hd & Hl1 & Hsp).
    exists (a :: l1), d, l2. cbn. repeat split; auto.
    + intros b [<- | Hb]; auto.
    + unfold splice1 in *.
      change (a :: firstn j (l1 ++ d :: l2) ++ skipn (S j) (l1 ++ d :: l2)
              = a :: l1 ++ l2).
      now rewrite Hsp.
Qed.

(** The ids of the three parts of a store with contiguous ids. *)
Lemma contiguous_parts (l1 l2 : list Selection.t) (d : Selection.t) :
  map Selection.id (l1 ++ d :: l2)
    = contiguous_ids (List.length (l1 ++ d :: l2)) ->
  map Selection.id l1 = map selection_id (seq 1 (List.length l1)) /\
  Selection.id d = selection_id (List.length l1 + 1) /\
  map Selection.id l2
    = map selection_id (seq (List.length l1 + 2) (List.length l2)).
Proof.
  unfold contiguous_ids. rewrite length_app. cbn [List.length].
  rewrite seq_app, !map_app. cbn [seq map]. intro H.
  apply app_eq_same_length in H as [H1 H2];
    [|now rewrite !length_map, length_seq].
  injection H2 as Hd H2.
  split; [exact H1|]. split.
  - rewrite Hd. f_equal. lia.
  - rewrite H2. f_equal. f_equal. lia.
Qed.

(** Objects that already carry their number are skipped by the loop of
    [renumberSelections]. *)
Lemma renumberFrom_prefix (l1 : list Selection.t) :
  forall (index : nat) (a : option string) (l2 : list Selection.t),
    map Selection.id l1 = map selection_id (seq (index + 1) (List.length l1)) ->
    renumberFrom index (l1 ++ l2) a
    = (l1 ++ fst (renumberFrom (index + List.length l1) l2 a),
       snd (renumberFrom (index + List.length l1) l2 a)).
Proof.
  induction l1 as [|s l1 IH]; intros index a l2 H.
  - cbn. rewrite Nat.add_0_r. now destruct (renumberFrom index l2 a).
  - cbn [map seq List.length] in H. injection H as Hs H.
    cbn [app renumberFrom]. rewrite Hs, String.eqb_refl. cbn [negb].
    rewrite (IH (S index) a l2) by exact H.
    cbn [List.length]. now rewrite Nat.add_succ_r.
Qed.

(** Objects numbered one too high are all renumbered; the active id
    follows the object it named. *)
Lemma renumberFrom_shift (l2 : list Selection.t) :
  forall (index : nat) (a : option string),
    map Selection.id l2 = map selection_id (seq (index + 2) (List.length l2)) ->
    (forall s, In s l2 -> Selection.active s = true -> a = Some (Selection.id s)) ->
    (forall s, In s (fst (renumberFrom index l2 a)) -> Selection.active s = true ->
       snd (renumberFrom index l2 a) = Some (Selection.id s)) /\
    ((forall s, In s l2 -> nullable_eqb a (Selection.id s) = false) ->
     snd (renumberFrom index l2 a) = a).
Proof.
  induction l2 as [|s t IH]; intros index a Hids Hact.
  - cbn. split; [intros s []|auto].
  - cbn [map seq List.length] in Hids. injection Hids as Hs Ht.
    assert (Hlater : forall u, In u t ->
              exists j, index + 3 <= j /\ Selection.id u = selection_id j).
    { intros u Hu.
      assert (Hm : In (Selection.id u) (map Selection.id t))
        by (apply in_map; exact Hu).
      rewrite Ht in Hm. apply in_map_iff in Hm as (j & Hj & Hseq).
      apply in_seq in Hseq. exists j. split; [lia | now symmetry]. }
    cbn [renumberFrom].
    assert (Hne : (Selection.id s =? selection_id (index + 1))%string = false).
    { rewrite Hs. apply String.eqb_neq. intro E.
      apply selection_id_inj in E. lia. }
    rewrite Hne. cbn [negb].
    set (a1 := if nullable_eqb a (Selection.id s)
               then Some (selection_id (index + 1)) else a).
    assert (Hact1 : forall u, In u t -> Selection.active u = true ->
              a1 = Some (Selection.id u)).
    { intros u Hu Hau. subst a1.
      pose proof (Hact u (or_intror Hu) Hau) as Ea.
      destruct (nullable_eqb a (Selection.id s)) eqn:En; [|exact Ea].
      exfalso. rewrite Ea in En. cbn [nullable_eqb] in En. apply String.eqb_eq in En.
      destruct (Hlater u Hu) as (j & Hj & Ej).
      rewrite Ej, Hs in En. apply selection_id_inj in En. lia. }
    assert (Ht' : map Selection.id t
                  = map selection_id (seq (S index + 2) (List.length t)))
      by exact Ht.
    destruct (IH (S index) a1 Ht' Hact1) as [IH1 IH2].
    destruct (renumberFrom (S index) t a1) as [rest' a'] eqn:Er.
    cbn [fst snd] in *.
    split.
    + intros u [<- | Hu] Hau.
      * cbn [Selection.withId Selection.id Selection.active] in *.
        pose proof (Hact s (or_introl eq_refl) Hau) as Ea.
        rewrite IH2.
        -- subst a1. rewrite Ea. cbn [nullable_eqb]. now rewrite String.eqb_refl.
        -- intros v Hv. subst a1. rewrite Ea. cbn [nullable_eqb].
           rewrite String.eqb_refl. cbn [nullable_eqb].
           apply String.eqb_neq. intro E.
           destruct (Hlater v Hv) as (j & Hj & Ej).
           rewrite Ej in E. apply selection_id_inj in E. lia.
      * apply IH1; assumption.
    + intro Hno.
      assert (E0 : nullable_eqb a (Selection.id s) = false)
        by (apply Hno; left; reflexivity).
      subst a1. rewrite E0 in *. apply IH2.
      intros v Hv. apply Hno. right. exact Hv.
Qed.

End StoreInvariant.

Section PointerInvariant.

Local Open Scope nat_scope.
Import SelectionManager.

Lemma in_modifyFound {A : Type} (p : A -> bool) (f : A -> A) (l : list A) (s : A) :
  In s (modifyFound p f l) ->
  In s l \/ exists a, In a l /\ p a = true /\ s = f a.
Proof.
  induction l as [|b l IH]; cbn; [auto|].
  destruct (p b) eqn:E; cbn.
  - intros [<- | H]; [right; exists b; auto | auto].
  - intros [<- | H]; [auto|].
    destruct (IH H) as [Hin | (a & Ha & Hp & ->)]; [auto|].
    right. exists a. auto.
Qed.

Lemma pointer_consistent_setActiveSelection (st : t) (id : string) :
  pointer_consistent (setActiveSelection st id).
Proof.
  unfold pointer_consistent, setActiveSelection.
  destruct (find _ _); cbn [selections activeSelectionId]; intros s Hin Hact.
  - apply in_modifyFound in Hin as [Hin | (a & Ha & Hp & ->)].
    + apply in_map_iff in Hin as (s0 & <- & _). discriminate Hact.
    + apply String.eqb_eq in Hp. cbn. now rewrite Hp.
  - apply in_map_iff in Hin as (s0 & <- & _). discriminate Hact.
Qed.

Lemma pointer_consistent_createSelection (st : t) (sx sy ex ey : Q) :
  pointer_consistent st ->
  pointer_consistent (state_of (createSelection st sx sy ex ey)).
Proof.
  intro H.
  destruct (createSelection_cases st sx sy ex ey) as [[_ E] | [_ [v E]]];
    rewrite E; cbn [state_of]; [exact H|].
  apply pointer_consistent_setActiveSelection.
Qed.

Lemma pointer_consistent_updateSelection (st : t) (id : string) (b : Selection.Bounds) :
  Selection.b_id b = None -> Selection.b_active b = None ->
  pointer_consistent st -> pointer_consistent (updateSelection st id b).
Proof.
  intros Hid Hact H s Hin Hs.
  unfold updateSelection in *. cbn [selections activeSelectionId] in *.
  apply in_modifyFound in Hin as [Hin | (a & Ha & _ & ->)]; [now apply H|].
  unfold Selection.assign in *. rewrite Hid, Hact in *.
  cbn [Selection.pick Selection.active Selection.id] in *. now apply H.
Qed.

Lemma pointer_consistent_deleteSelection (st : t) (id : string) :
  ids st = contiguous_ids (List.length (selections st)) ->
  pointer_consistent st -> pointer_consistent (deleteSelection st id).
Proof.
  intros Hids Hpc. unfold deleteSelection.
  destruct (findIndex (hasId id) (selections st)) as [k|] eqn:Ek; [|exact Hpc].
  destruct (findIndex_split _ _ k Ek) as (l1 & d & l2 & El & Hlen & Hd & _ & Hsp).
  unfold ids, getAllSelections in Hids. unfold pointer_consistent in Hpc.
  rewrite El in Hids, Hpc.
  destruct (contiguous_parts l1 l2 d Hids) as (H1 & Hdid & H2).
  apply String.eqb_eq in Hd.
  set (a := activeSelectionId st) in *.
  set (a0 := if nullable_eqb a id then None else a).
  (* the ids of the objects before and after the deleted one *)
  assert (Hbefore : forall s, In s l1 ->
            exists j, j <= List.length l1 /\ Selection.id s = selection_id j).
  { intros s Hs.
    assert (Hm : In (Selection.id s) (map Selection.id l1))
      by (apply in_map; exact Hs).
    rewrite H1 in Hm. apply in_map_iff in Hm as (j & Hj & Hseq).
    apply in_seq in Hseq. exists j. split; [lia | now symmetry]. }
  assert (Hafter : forall s, In s l2 ->
            exists j, List.length l1 + 2 <= j /\ Selection.id s = selection_id j).
  { intros s Hs.
    assert (Hm : In (Selection.id s) (map Selection.id l2))
      by (apply in_map; exact Hs).
    rewrite H2 in Hm. apply in_map_iff in Hm as (j & Hj & Hseq).
    apply in_seq in Hseq. exists j. split; [lia | now symmetry]. }
  (* an active object other than the deleted one keeps the pointer *)
  assert (Hkeep : forall s j, Selection.id s = selection_id j ->
            j <> List.length l1 + 1 -> a = Some (Selection.id s) -> a0 = a).
  { intros s j Ej Hj Ea. subst a0. rewrite Ea. cbn [nullable_eqb].
    destruct (String.eqb_spec (Selection.id s) id) as [E|E]; [|reflexivity].
    exfalso. rewrite <- Hd, Hdid, Ej in E. apply selection_id_inj in E. lia. }
  unfold renumberSelections. cbn [selections activeSelectionId].
  rewrite Hsp. fold a0.
  rewrite (renumberFrom_prefix l1 0 a0 l2) by exact H1.
  cbn [Nat.add].
  destruct (renumberFrom_shift l2 (List.length l1) a0 H2) as [R1 R2].
  { intros s Hs Hact.
    assert (Ea : a = Some (Selection.id s))
      by (apply Hpc; [apply in_or_app; right; right; exact Hs | exact Hact]).
    destruct (Hafter s Hs) as (j & Hj & Ej).
    rewrite (Hkeep s j Ej) by (lia || exact Ea). exact Ea. }
  intros s Hin Hact. cbn [selections activeSelectionId] in *.
  apply in_app_or in Hin as [Hin | Hin]; [|now apply R1].
  assert (Ea : a = Some (Selection.id s))
    by (apply Hpc; [apply in_or_app; left; exact Hin | exact Hact]).
  destruct (Hbefore s Hin) as (j & Hj & Ej).
  assert (E0 : a0 = a) by (apply (Hkeep s j Ej); [lia | exact Ea]).
  rewrite R2; [now rewrite E0|].
  intros v Hv. rewrite E0, Ea. cbn [nullable_eqb].
  apply String.eqb_neq. intro E.
  destruct (Hafter v Hv) as (jv & Hjv & Ejv).
  rewrite Ej, Ejv in E. apply selection_id_inj in E. lia.
Qed.

Lemma ids_step (st : t) (o : op) :
  coordinates_only o = true ->
  ids st = contiguous_ids (List.length (selections st)) ->
  ids (step st o) = contiguous_ids (List.length (selections (step st o))).
Proof.
  intros Ho H. destruct o; cbn [step].
  - apply ids_createSelection. exact H.
  - cbn in Ho. destruct (Selection.b_id bounds) eqn:Eb; [discriminate Ho|].
    unfold ids, getAllSelections, updateSelection in *. cbn [selections].
    assert (Em : map Selection.id
                   (modifyFound (hasId id) (fun s => Selection.assign s bounds)
                                (selections st))
                 = map Selection.id (selections st)).
    { apply map_id_modifyFound. intro s. unfold Selection.assign.
      rewrite Eb. reflexivity. }
    rewrite Em.
    rewrite <- (length_map Selection.id
                  (modifyFound (hasId id) (fun s => Selection.assign s bounds)
                               (selections st))), Em, length_map.
    exact H.
  - apply ids_deleteSelection. exact H.
  - rewrite ids_setActiveSelection, length_setActiveSelection. exact H.
  - unfold ids, getAllSelections, clearActiveSelection in *. cbn [selections].
    now rewrite map_id_withActive, length_map.
  - reflexivity.
Qed.

Lemma pointer_consistent_step (st : t) (o : op) :
  coordinates_only o = true ->
  ids st = contiguous_ids (List.length (selections st)) ->
  pointer_consistent st -> pointer_consistent (step st o).
Proof.
  intros Ho Hids H. destruct o; cbn [step].
  - apply pointer_consistent_createSelection. exact H.
  - cbn in Ho.
    destruct (Selection.b_id bounds) eqn:E1; [discriminate Ho|].
    destruct (Selection.b_active bounds) eqn:E2; [discriminate Ho|].
    apply pointer_consistent_updateSelection; assumption.
  - apply pointer_consistent_deleteSelection; assumption.
  - apply pointer_consistent_setActiveSelection.
  - intros s Hin Hact. cbn in Hin.
    apply in_map_iff in Hin as (s0 & <- & _). discriminate Hact.
  - intros s [].
Qed.

Lemma coordinates_only_no_active_write (o : op) :
  coordinates_only o = true -> no_active_write o = true.
Proof.
  destruct o; cbn; auto.
  destruct (Selection.b_id bounds), (Selection.b_active bounds);
    intro; congruence.
Qed.

Lemma store_invariant_run (ops : list op) :
  forall st : t,
    forallb coordinates_only ops = true ->
    ids st = contiguous_ids (List.length (selections st)) ->
    activeCount st <= 1 -> pointer_consistent st ->
    ids (run st ops) = contiguous_ids (List.length (selections (run st ops))) /\
    activeCount (run st ops) <= 1 /\ pointer_consistent (run st ops).
Proof.
  induction ops as [|o ops IH]; intros st Hops Hids Hc Hp; [auto|].
  cbn in Hops. apply andb_true_iff in Hops as [Ho Hops].
  cbn [run fold_left]. apply IH; [exact Hops| | |].
  - apply ids_step; assumption.
  - apply activeCount_step;
      [apply coordinates_only_no_active_write; exact Ho | exact Hc].
  - apply pointer_consistent_step; assumption.
Qed.

End PointerInvariant.

(** X10. Along every sequence of create, update, delete, setActive,
    clearActive and reset operations whose updates pass coordinates only,
    after each operation: the ids are ["selection_1"] ... ["selection_N"]
    in order, at most one selection is active, and the selection that
    [getActiveSelection] returns, if any, is the one [activeSelectionId]
    names. *)
Theorem store_invariant_after_each_operation
        (ops : list SelectionManager.op) (k : nat) :
  forallb SelectionManager.coordinates_only ops = true ->
  let st := SelectionManager.run SelectionManager.new (firstn k ops) in
  SelectionManager.ids st
    = SelectionManager.contiguous_ids
        (List.length (SelectionManager.getAllSelections st)) /\
  (SelectionManager.activeCount st <= 1)%nat /\
  (forall s : Selection.t,
      SelectionManager.getActiveSelection st = Some s ->
      SelectionManager.activeSelectionId st = Some (Selection.id s)).
Proof.
  intros Hops st.
  destruct (store_invariant_run (firstn k ops) SelectionManager.new)
    as (H1 & H2 & H3).
  - apply forallb_firstn. exact Hops.
  - reflexivity.
  - cbn. lia.
  - intros s [].
  - split; [exact H1|]. split; [exact H2|].
    intros s Hs. unfold SelectionManager.getActiveSelection in Hs.
    apply find_some in Hs as [Hin Hact]. now apply H3.
Qed.

Lemma store_invariant_after_each_operation_witness :
  let st := SelectionManager.run SelectionManager.new
              (firstn 5 (numberingScenario ++
                         [SelectionManager.SetActive "selection_1";
                          SelectionManager.Delete "selection_1"])) in
  SelectionManager.ids st
    = SelectionManager.contiguous_ids
        (List.length (SelectionManager.getAllSelections st)) /\
  (SelectionManager.activeCount st <= 1)%nat /\
  (forall s : Selection.t,
      SelectionManager.getActiveSelection st = Some s ->
      SelectionManager.activeSelectionId st = Some (Selection.id s)).
Proof.
  apply (store_invariant_after_each_operation
           (numberingScenario ++
            [SelectionManager.SetActive "selection_1";
             SelectionManager.Delete "selection_1"]) 5).
  reflexivity.
Defined.

Section DeleteLemmas.

Local Open Scope nat_scope.
Import SelectionManager.

Lemma renumberFrom_payload (l : list Selection.t) :
  forall (index : nat) (a : option string),
    map Selection.payload (fst (renumberFrom index l a)) = map Selection.payload l.
Proof.
  induction l as [|s l IH]; intros index a; [reflexivity|].
  cbn [renumberFrom].
  destruct (negb _).
  - specialize (IH (S index)
      (if nullable_eqb a (Selection.id s)
       then Some (selection_id (index + 1)) else a)).
    destruct (renumberFrom (S index) l _) as [rest' a'].
    cbn [fst map] in *. now rewrite IH.
  - specialize (IH (S index) a).
    destruct (renumberFrom (S index) l a) as [rest' a'].
    cbn [fst map] in *. now rewrite IH.
Qed.

Lemma renumberFrom_null (l : list Selection.t) :
  forall index : nat, snd (renumberFrom index l None) = None.
Proof.
  induction l as [|s l IH]; intro index; [reflexivity|].
  cbn [renumberFrom nullable_eqb].
  destruct (negb _); specialize (IH (S index));
    destruct (renumberFrom (S index) l None); exact IH.
Qed.

Lemma findIndex_some_of_in (id : string) (l : list Selection.t) :
  In id (map Selection.id l) -> exists k, findIndex (hasId id) l = Some k.
Proof.
  induction l as [|s l IH]; cbn; [intros []|].
  intros [E | H].
  - unfold hasId at 1. rewrite E, String.eqb_refl. eauto.
  - destruct (hasId id s); [eauto|].
    destruct (IH H) as [k ->]. cbn. eauto.
Qed.

Lemma find_active_none (l : list Selection.t) :
  countActive l = 0 -> find Selection.active l = None.
Proof.
  unfold countActive. induction l as [|s l IH]; cbn; [auto|].
  destruct (Selection.active s); cbn; [discriminate | exact IH].
Qed.

End DeleteLemmas.

(** X11. Deleting an id that is present removes exactly the first
    selection carrying it: the other selections keep their rectangle and
    their active flag and stay in the same order (only ids are
    rewritten). *)
Theorem deleteSelection_removes_first_match (st : SelectionManager.t) (id : string) :
  In id (SelectionManager.ids st) ->
  exists (before after : list Selection.t) (deleted : Selection.t),
    SelectionManager.selections st = before ++ deleted :: after /\
    Selection.id deleted = id /\
    ~ In id (map Selection.id before) /\
    map Selection.payload
        (SelectionManager.getAllSelections (SelectionManager.deleteSelection st id))
    = map Selection.payload (before ++ after).
Proof.
  intro Hin. unfold SelectionManager.ids, SelectionManager.getAllSelections in *.
  destruct (findIndex_some_of_in id _ Hin) as [k Ek].
  destruct (findIndex_split _ _ k Ek) as (l1 & d & l2 & El & Hlen & Hd & Hl1 & Hsp).
  exists l1, l2, d. split; [exact El|].
  split; [apply String.eqb_eq; exact Hd|]. split.
  - intro Hm. apply in_map_iff in Hm as (b & Hb & Hbin).
    specialize (Hl1 b Hbin). unfold SelectionManager.hasId in Hl1.
    rewrite Hb, String.eqb_refl in Hl1. discriminate Hl1.
  - unfold SelectionManager.deleteSelection. rewrite Ek.
    unfold SelectionManager.renumberSelections.
    cbn [SelectionManager.selections SelectionManager.activeSelectionId].
    rewrite Hsp.
    pose proof (renumberFrom_payload (l1 ++ l2) 0
      (if nullable_eqb (SelectionManager.activeSelectionId st) id
       then None else SelectionManager.activeSelectionId st)) as Hp.
    destruct (SelectionManager.renumberFrom 0 (l1 ++ l2) _) as [sels a].
    exact Hp.
Qed.

Lemma deleteSelection_removes_first_match_witness :
  exists (before after : list Selection.t) (deleted : Selection.t),
    SelectionManager.selections
      (SelectionManager.run SelectionManager.new threeCreates)
    = before ++ deleted :: after /\
    Selection.id deleted = "selection_2"%string /\
    ~ In "selection_2"%string (map Selection.id before) /\
    map Selection.payload
        (SelectionManager.getAllSelections
           (SelectionManager.deleteSelection
              (SelectionManager.run SelectionManager.new threeCreates)
              "selection_2"))
    = map Selection.payload (before ++ after).
Proof.
  apply (deleteSelection_removes_first_match
           (SelectionManager.run SelectionManager.new threeCreates) "selection_2").
  vm_compute. right. left. reflexivity.
Defined.

(** X12. Deleting the active selection, as the Delete key and the delete
    button do: in any store reached from the empty one by operations whose
    updates pass coordinates only, deleting the selection returned by
    [getActiveSelection] leaves one selection fewer, none of them active,
    and [activeSelectionId] null. *)
Theorem delete_active_selection_clears_active
        (ops : list SelectionManager.op) (active : Selection.t) :
  forallb SelectionManager.coordinates_only ops = true ->
  let st := SelectionManager.run SelectionManager.new ops in
  SelectionManager.getActiveSelection st = Some active ->
  let st' := SelectionManager.deleteSelection st (Selection.id active) in
  S (List.length (SelectionManager.getAllSelections st'))
    = List.length (SelectionManager.getAllSelections st) /\
  SelectionManager.activeCount st' = 0%nat /\
  SelectionManager.getActiveSelection st' = None /\
  SelectionManager.activeSelectionId st' = None.
Proof.
  intros Hops st Hact st'.
  destruct (store_invariant_run ops SelectionManager.new Hops eq_refl)
    as (Hids & Hcount & Hpc); [cbn; lia | intros s [] |].
  fold st in Hids, Hcount, Hpc.
  unfold SelectionManager.getActiveSelection in Hact.
  apply find_some in Hact as [Hin Hon].
  pose proof (Hpc active Hin Hon) as Hptr.
  assert (Hid : In (Selection.id active) (map Selection.id (SelectionManager.selections st)))
    by (apply in_map; exact Hin).
  destruct (findIndex_some_of_in _ _ Hid) as [k Ek].
  destruct (findIndex_split _ _ k Ek) as (l1 & d & l2 & El & Hlen & Hd & _ & Hsp).
  unfold SelectionManager.ids, SelectionManager.getAllSelections in Hids.
  rewrite El in Hids.
  destruct (contiguous_parts l1 l2 d Hids) as (H1 & Hdid & H2).
  apply String.eqb_eq in Hd.
  (* the found object is the active one *)
  assert (Hsame : active = d).
  { rewrite El in Hin. apply in_app_or in Hin as [Hin | [Hin | Hin]]; [|auto|].
    - exfalso.
      assert (Hm : In (Selection.id active) (map Selection.id l1))
        by (apply in_map; exact Hin).
      rewrite H1 in Hm. apply in_map_iff in Hm as (j & Hj & Hseq).
      apply in_seq in Hseq. rewrite <- Hd, Hdid in Hj.
      apply selection_id_inj in Hj. lia.
    - exfalso.
      assert (Hm : In (Selection.id active) (map Selection.id l2))
        by (apply in_map; exact Hin).
      rewrite H2 in Hm. apply in_map_iff in Hm as (j & Hj & Hseq).
      apply in_seq in Hseq. rewrite <- Hd, Hdid in Hj.
      apply selection_id_inj in Hj. lia. }
  subst d.
  (* so no other object is active *)
  assert (Hrest : countActive (l1 ++ l2) = 0%nat).
  { unfold SelectionManager.activeCount, SelectionManager.getAllSelections in Hcount.
    fold (countActive (SelectionManager.selections st)) in Hcount.
    rewrite El in Hcount.
    rewrite countActive_app in Hcount |- *.
    change (active :: l2) with ([active] ++ l2) in Hcount.
    rewrite countActive_app in Hcount.
    unfold countActive at 2 in Hcount. cbn in Hcount. rewrite Hon in Hcount.
    cbn in Hcount. lia. }
  subst st'. unfold SelectionManager.deleteSelection. rewrite Ek.
  unfold SelectionManager.renumberSelections,
    SelectionManager.activeCount, SelectionManager.getActiveSelection,
    SelectionManager.getAllSelections.
  cbn [SelectionManager.selections SelectionManager.activeSelectionId].
  rewrite Hsp, Hptr. cbn [nullable_eqb]. rewrite String.eqb_refl.
  pose proof (renumberFrom_length (l1 ++ l2) 0 None) as Rl.
  pose proof (countActive_renumberFrom (l1 ++ l2) 0 None) as Rc.
  pose proof (renumberFrom_null (l1 ++ l2) 0) as Rn.
  destruct (SelectionManager.renumberFrom 0 (l1 ++ l2) None) as [sels a].
  cbn [fst snd SelectionManager.selections SelectionManager.activeSelectionId] in *.
  rewrite Hrest in Rc. fold (countActive sels).
  split; [|split; [exact Rc | split; [apply find_active_none; exact Rc | exact Rn]]].
  rewrite Rl, El, !length_app. cbn [List.length]. lia.
Qed.

Lemma delete_active_selection_clears_active_witness :
  let st := SelectionManager.run SelectionManager.new threeCreates in
  let st' := SelectionManager.deleteSelection st "selection_3" in
  S (List.length (SelectionManager.getAllSelections st'))
    = List.length (SelectionManager.getAllSelections st) /\
  SelectionManager.activeCount st' = 0%nat /\
  SelectionManager.getActiveSelection st' = None /\
  SelectionManager.activeSelectionId st' = None.
Proof.
  apply (delete_active_selection_clears_active threeCreates
           (Selection.mk "selection_3" 110 110 40 40 true)).
  - reflexivity.
  - vm_compute. reflexivity.
Defined.

(* ------------------------------------------------------------------ *)
(** ** EventHandler *)

(** X13. Dragging keeps a selection inside the image: whatever the pointer
    movement, a dragged selection that is no larger than the image ends
    with [0 <= x], [x + width <= originalWidth] and likewise vertically;
    its size, id and active flag are untouched. *)
Theorem drag_keeps_selection_inside
        (eh : EventHandler.t) (im : ImageManager.t) (sm : SelectionManager.t)
        (px py : Q) (ref : nat) (current : Selection.t) :
  dragging eh sm ref current ->
  Selection.width current <= ImageManager.originalWidth im ->
  Selection.height current <= ImageManager.originalHeight im ->
  exists moved : Selection.t,
    nth_error (SelectionManager.getAllSelections
                 (EventHandler.dragSelection eh im sm px py)) ref = Some moved /\
    insideImage im moved /\
    Selection.width moved = Selection.width current /\
    Selection.height moved = Selection.height current /\
    Selection.id moved = Selection.id current /\
    Selection.active moved = Selection.active current.
Proof.
  intros (Hc & Hn & Hf) Hw Hh.
  unfold EventHandler.dragSelection. rewrite Hc, Hn.
  unfold SelectionManager.getAllSelections, SelectionManager.updateSelection.
  cbn [SelectionManager.selections].
  rewrite (nth_error_modifyFound _ _ _ ref current Hf Hn).
  eexists. split; [reflexivity|].
  unfold insideImage, Selection.assign, Selection.bounds_xy.
  cbn [Selection.pick Selection.b_id Selection.b_x Selection.b_y Selection.b_width
       Selection.b_height Selection.b_active Selection.x Selection.y
       Selection.width Selection.height Selection.id Selection.active].
  split; [|auto].
  generalize ((px - Point.x (EventHandler.dragStartPos eh)) / ImageManager.scale im)
             ((py - Point.y (EventHandler.dragStartPos eh)) / ImageManager.scale im).
  intros dx dy.
  repeat split; split_minmax; lra.
Qed.

(** The example of the specification: a 50x50 selection at (0, 0) dragged
    by (-100, -100) on a 400x300 image stays at (0, 0). *)
Lemma drag_keeps_selection_inside_witness :
  exists moved : Selection.t,
    nth_error (SelectionManager.getAllSelections
                 (EventHandler.dragSelection (dragStarted 100 100 0) testView
                    cornerStore 0 0)) 0 = Some moved /\
    insideImage testView moved /\
    Selection.x moved == 0 /\ Selection.y moved == 0.
Proof.
  destruct (drag_keeps_selection_inside (dragStarted 100 100 0) testView
              cornerStore 0 0 0 (Selection.mk "selection_1" 0 0 50 50 true))
    as (moved & Hn & Hin & _).
  - repeat split; vm_compute; reflexivity.
  - vm_compute. discriminate.
  - vm_compute. discriminate.
  - exists moved. split; [exact Hn|]. split; [exact Hin|].
    vm_compute in Hn. injection Hn as <-. split; reflexivity.
Defined.

(** X14. Resizing keeps a selection inside the image: whatever the handle
    and the pointer movement, the rectangle that [resizeSelection] writes
    has [0 <= x], [0 <= y], [x + width <= originalWidth] and
    [y + height <= originalHeight], and carries the id and the active
    flag of the pre-gesture snapshot. *)
Theorem resize_keeps_selection_inside
        (eh : EventHandler.t) (im : ImageManager.t) (sm : SelectionManager.t)
        (mouseX mouseY : Q) (ref : nat) (h : EventHandler.Handle)
        (original current : Selection.t) :
  resizing eh sm ref h original current ->
  exists resized : Selection.t,
    nth_error (SelectionManager.getAllSelections
                 (EventHandler.resizeSelection eh im sm mouseX mouseY)) ref
    = Some resized /\
    insideImage im resized /\
    Selection.id resized = Selection.id original /\
    Selection.active resized = Selection.active original.
Proof.
  intro Hres.
  eexists. split; [apply (resizeSelection_writes _ _ _ _ _ _ _ _ _ Hres)|].
  unfold EventHandler.resizedBounds, EventHandler.clampToImageBounds, insideImage.
  cbn [EventHandler.withGeometry Selection.x Selection.y Selection.width
       Selection.height Selection.id Selection.active].
  split.
  - repeat split; split_minmax; lra.
  - split.
    + unfold EventHandler.enforceMinSize.
      repeat (destruct (Qltb _ _); cbn [EventHandler.withGeometry Selection.id]);
        destruct h; reflexivity.
    + unfold EventHandler.enforceMinSize.
      repeat (destruct (Qltb _ _); cbn [EventHandler.withGeometry Selection.active]);
        destruct h; reflexivity.
Qed.

Lemma resize_keeps_selection_inside_witness :
  exists resized : Selection.t,
    nth_error (SelectionManager.getAllSelections
                 (EventHandler.resizeSelection
                    (resizeStarted 150 150 EventHandler.SE 0 square)
                    testView squareStore 9000 9000)) 0
    = Some resized /\
    insideImage testView resized.
Proof.
  destruct (resize_keeps_selection_inside
              (resizeStarted 150 150 EventHandler.SE 0 square)
              testView squareStore 9000 9000 0 EventHandler.SE square square)
    as (resized & Hn & Hin & _).
  - repeat split; vm_compute; reflexivity.
  - exists resized. auto.
Defined.

Lemma map_rect_withActive (a : bool) (l : list Selection.t) :
  map Selection.rect (map (Selection.withActive a) l) = map Selection.rect l.
Proof.
  induction l as [|s l IH]; cbn; [reflexivity|]. now rewrite IH.
Qed.

Lemma map_rect_modifyFound (p : Selection.t -> bool) (f : Selection.t -> Selection.t)
      (l : list Selection.t) :
  (forall s, Selection.rect (f s) = Selection.rect s) ->
  map Selection.rect (modifyFound p f l) = map Selection.rect l.
Proof.
  intro Hf. induction l as [|s l IH]; cbn; [reflexivity|].
  destruct (p s); cbn; [now rewrite Hf | now rewrite IH].
Qed.

Lemma map_rect_setActiveSelection (st : SelectionManager.t) (id : string) :
  map Selection.rect (SelectionManager.selections
                        (SelectionManager.setActiveSelection st id))
  = map Selection.rect (SelectionManager.selections st).
Proof.
  unfold SelectionManager.setActiveSelection.
  destruct (find _ _); cbn [SelectionManager.selections].
  - rewrite map_rect_modifyFound by reflexivity. apply map_rect_withActive.
  - apply map_rect_withActive.
Qed.

(** X15. Releasing the pointer after drawing never throws, and either
    leaves the store as it was or appends one selection (the rectangles of
    the others are untouched) that lies inside the image and is more than
    5 wide and high. *)
Theorem commitDrawing_creates_inside_image
        (eh : EventHandler.t) (im : ImageManager.t) (sm : SelectionManager.t)
        (px py : Q) :
  exists sm' : SelectionManager.t,
    EventHandler.commitDrawing eh im sm px py = Returns tt sm' /\
    (sm' = sm \/
     exists created : Selection.t,
       map Selection.rect (SelectionManager.getAllSelections sm')
       = map Selection.rect (SelectionManager.getAllSelections sm)
         ++ [Selection.rect created] /\
       insideImage im created /\
       5 < Selection.width created /\ 5 < Selection.height created).
Proof.
  unfold EventHandler.commitDrawing.
  destruct (Qltb 10 _ && Qltb 10 _); [|eexists; split; [reflexivity | left; reflexivity]].
  match goal with
  | |- context [Qltb 5 ?w && Qltb 5 ?h] =>
      destruct (Qltb 5 w) eqn:Ew;
        [|eexists; split; [reflexivity | left; reflexivity]];
      destruct (Qltb 5 h) eqn:Eh;
        [|eexists; split; [reflexivity | left; reflexivity]]
  end.
  cbn [andb]. apply Qltb_lt in Ew, Eh.
  match goal with
  | |- context [SelectionManager.createSelection sm ?a ?b ?c ?d] =>
      destruct (createSelection_cases sm a b c d) as [[Hsmall E] | [_ [v E]]];
      rewrite E;
      pose proof (Qle_Qabs (c - a)) as Hqa; pose proof (Qle_Qabs (d - b)) as Hqb;
      [exfalso; destruct Hsmall; lra|]
  end.
  eexists. split; [reflexivity|]. right.
  eexists. split.
  - unfold SelectionManager.getAllSelections.
    rewrite map_rect_setActiveSelection. cbn [SelectionManager.selections].
    rewrite map_app. reflexivity.
  - unfold insideImage.
    cbn [Selection.x Selection.y Selection.width Selection.height].
    clear E Hqa Hqb. revert Ew Eh.
    generalize (Point.x (ImageManager.canvasToImage im px py))
               (Point.y (ImageManager.canvasToImage im px py))
               (Point.x (EventHandler.dragStartPos eh))
               (Point.y (EventHandler.dragStartPos eh))
               (ImageManager.originalWidth im) (ImageManager.originalHeight im).
    intros ix iy sx sy W H.
    set (cs := Qmax 0 (Qmin (Qmin sx ix) W)).
    set (ce := Qmax 0 (Qmin (Qmax sx ix) W)).
    set (ds := Qmax 0 (Qmin (Qmin sy iy) H)).
    set (de := Qmax 0 (Qmin (Qmax sy iy) H)).
    intros Ew Eh.
    assert (Hcs : 0 <= cs) by (subst cs; split_minmax; lra).
    assert (Hds : 0 <= ds) by (subst ds; split_minmax; lra).
    assert (Hce : ce <= W \/ ce <= 0) by (subst ce; split_minmax; lra).
    assert (Hde : de <= H \/ de <= 0) by (subst de; split_minmax; lra).
    clearbody cs ce ds de.
    assert (Hax : Qabs (ce - cs) == ce - cs) by (apply Qabs_pos; lra).
    assert (Hay : Qabs (de - ds) == de - ds) by (apply Qabs_pos; lra).
    rewrite Hax, Hay.
    repeat split; split_minmax; lra.
Qed.

Lemma tolerance_is_4 : 8 / 2 == 4.
Proof. reflexivity. Qed.

Lemma onHandle_iff (im : ImageManager.t) (mouseX mouseY : Q)
      (selection : Selection.t) (h : EventHandler.Handle) :
  EventHandler.onHandle im mouseX mouseY selection h = true <->
  Qabs (mouseX - Point.x (EventHandler.handlePosition im selection h)) <= 4 /\
  Qabs (mouseY - Point.y (EventHandler.handlePosition im selection h)) <= 4.
Proof.
  unfold EventHandler.onHandle. cbv zeta.
  rewrite andb_true_iff, !Qleb_le, !tolerance_is_4. reflexivity.
Qed.

(** X16. The hit test of the resize handles is exact: a handle that
    [getResizeHandle] returns lies within 4 pixels of the pointer on both
    axes, and it returns none only when no handle does; among several
    handles in reach the first of nw, ne, sw, se, n, s, w, e wins, so the
    nw corner wins whenever it is in reach. *)
Theorem getResizeHandle_exact (im : ImageManager.t) (mouseX mouseY : Q)
        (selection : Selection.t) :
  let inReach h :=
    Qabs (mouseX - Point.x (EventHandler.handlePosition im selection h)) <= 4 /\
    Qabs (mouseY - Point.y (EventHandler.handlePosition im selection h)) <= 4 in
  (forall h, EventHandler.getResizeHandle im mouseX mouseY selection = Some h ->
             inReach h) /\
  (EventHandler.getResizeHandle im mouseX mouseY selection = None <->
   forall h, ~ inReach h) /\
  (inReach EventHandler.NW ->
   EventHandler.getResizeHandle im mouseX mouseY selection = Some EventHandler.NW).
Proof.
  cbv zeta. unfold EventHandler.getResizeHandle.
  split; [|split].
  - intros h Hf. apply find_some in Hf as [_ Hon]. now apply onHandle_iff.
  - split.
    + intros Hn h Hr. apply onHandle_iff in Hr.
      assert (Hin : In h EventHandler.allHandles)
        by (destruct h; cbn; auto 10).
      pose proof (List.find_none _ _ Hn h Hin) as Hoff. congruence.
    + intro Hno. apply find_none. intros h _.
      destruct (EventHandler.onHandle im mouseX mouseY selection h) eqn:E;
        [|reflexivity].
      exfalso. apply (Hno h). now apply onHandle_iff.
  - intro Hr. apply onHandle_iff in Hr.
    unfold EventHandler.allHandles. cbn [find]. now rewrite Hr.
Qed.

Section FindLast.

Local Open Scope nat_scope.
Context {A : Type} (p : A -> bool).

Lemma findLastIndex_none (l : list A) :
  EventHandler.findLastIndex p l = None <-> forall a, In a l -> p a = false.
Proof.
  induction l as [|a l IH]; cbn; [tauto|].
  destruct (EventHandler.findLastIndex p l) as [k|].
  - split; [discriminate|]. intro H. exfalso.
    assert (Hk : Some k = None) by (apply IH; intros b Hb; apply H; auto).
    discriminate Hk.
  - destruct (p a) eqn:Ea.
    + split; [discriminate|]. intro H. specialize (H a (or_introl eq_refl)). congruence.
    + split; [|reflexivity]. intros _ b [<- | Hb]; [exact Ea|].
      now apply (proj1 IH).
Qed.

Lemma findLastIndex_some (l : list A) :
  forall i, EventHandler.findLastIndex p l = Some i ->
    exists a, nth_error l i = Some a /\ p a = true /\
              forall j b, i < j -> nth_error l j = Some b -> p b = false.
Proof.
  induction l as [|a l IH]; intros i H; [discriminate H|].
  cbn in H. destruct (EventHandler.findLastIndex p l) as [k|] eqn:Ek.
  - injection H as <-. destruct (IH k eq_refl) as (b & Hn & Hp & Hlater).
    exists b. cbn. repeat split; auto.
    intros [|j] c Hj Hc; [lia|]. cbn in Hc. apply (Hlater j c); [lia | exact Hc].
  - destruct (p a) eqn:Ea; [|discriminate H]. injection H as <-.
    exists a. cbn. repeat split; auto.
    intros [|j] c Hj Hc; [lia|]. cbn in Hc.
    apply (proj1 (findLastIndex_none l) Ek). apply (nth_error_In _ _ Hc).
Qed.

End FindLast.

(** X17. [findSelectionAtPoint] returns the topmost selection under the
    pointer: the selection at the returned position covers the point and
    no selection after it in the array does; it returns none exactly when
    no selection covers the point. *)
Theorem findSelectionAtPoint_topmost
        (im : ImageManager.t) (sm : SelectionManager.t) (canvasX canvasY : Q) :
  (forall i : nat,
      EventHandler.findSelectionAtPoint im sm canvasX canvasY = Some i ->
      exists s : Selection.t,
        nth_error (SelectionManager.getAllSelections sm) i = Some s /\
        EventHandler.coversPoint im canvasX canvasY s = true /\
        forall (j : nat) (s' : Selection.t),
          (i < j)%nat ->
          nth_error (SelectionManager.getAllSelections sm) j = Some s' ->
          EventHandler.coversPoint im canvasX canvasY s' = false) /\
  (EventHandler.findSelectionAtPoint im sm canvasX canvasY = None <->
   forall s : Selection.t,
     In s (SelectionManager.getAllSelections sm) ->
     EventHandler.coversPoint im canvasX canvasY s = false).
Proof.
  unfold EventHandler.findSelectionAtPoint. split.
  - intros i H. apply findLastIndex_some. exact H.
  - apply findLastIndex_none.
Qed.

Section Cycling.

Local Open Scope nat_scope.
Import SelectionManager.

(** In a store with contiguous ids the object at position [i] is numbered
    [i + 1], and looking that id up finds position [i]. *)
Lemma id_at_position (l : list Selection.t) :
  forall (b i : nat) (s : Selection.t),
    map Selection.id l = map selection_id (seq (b + 1) (List.length l)) ->
    nth_error l i = Some s ->
    Selection.id s = selection_id (b + i + 1) /\
    findIndex (hasId (selection_id (b + i + 1))) l = Some i.
Proof.
  induction l as [|a l IH]; intros b i s Hids Hn; [now destruct i|].
  cbn [map seq List.length] in Hids. injection Hids as Ha Hl.
  destruct i as [|i]; cbn in Hn.
  - injection Hn as <-. rewrite Nat.add_0_r. split; [exact Ha|].
    cbn [findIndex]. unfold hasId. now rewrite Ha, String.eqb_refl.
  - assert (Hl' : map Selection.id l
                  = map selection_id (seq (S b + 1) (List.length l))) by exact Hl.
    destruct (IH (S b) i s Hl' Hn) as [E1 E2].
    replace (b + S i + 1) with (S b + i + 1) by lia.
    split; [exact E1|].
    cbn [findIndex]. unfold hasId at 1. rewrite Ha.
    destruct (String.eqb_spec (selection_id (b + 1)) (selection_id (S b + i + 1)))
      as [E|E]; [apply selection_id_inj in E; lia|].
    now rewrite E2.
Qed.

(** Activating the id of position [t] in a store with contiguous ids
    leaves exactly that object active. *)
Lemma activate_position (l : list Selection.t) :
  forall (b t : nat),
    map Selection.id l = map selection_id (seq (b + 1) (List.length l)) ->
    t < List.length l ->
    let id := selection_id (b + t + 1) in
    let l' := map (Selection.withActive false) l in
    (exists s, find (hasId id) l' = Some s) /\
    findIndex Selection.active (modifyFound (hasId id) (Selection.withActive true) l')
      = Some t /\
    countActive (modifyFound (hasId id) (Selection.withActive true) l') = 1.
Proof.
  induction l as [|a l IH]; intros b t Hids Ht; [cbn in Ht; lia|].
  cbn [map seq List.length] in Hids. injection Hids as Ha Hl.
  cbv zeta. cbn [map find modifyFound].
  unfold hasId at 1 3 5. cbn [Selection.withActive Selection.id]. rewrite Ha.
  destruct t as [|t].
  - rewrite Nat.add_0_r, String.eqb_refl.
    split; [eauto|]. split; [reflexivity|].
    unfold countActive. cbn.
    fold (countActive (map (Selection.withActive false) l)).
    now rewrite countActive_deactivated.
  - destruct (String.eqb_spec (selection_id (b + 1)) (selection_id (b + S t + 1)))
      as [E|E]; [apply selection_id_inj in E; lia|].
    assert (Hl' : map Selection.id l
                  = map selection_id (seq (S b + 1) (List.length l))) by exact Hl.
    cbn [List.length] in Ht.
    destruct (IH (S b) t Hl' ltac:(lia)) as (Hf & Hi & Hc).
    cbv zeta in Hf, Hi, Hc.
    replace (b + S t + 1) with (S b + t + 1) by lia.
    split; [exact Hf|]. split.
    + cbn [findIndex Selection.active]. now rewrite Hi.
    + unfold countActive in *. cbn. exact Hc.
Qed.

Lemma setActiveSelection_at_position (sm : t) (t : nat) :
  ids sm = contiguous_ids (List.length (selections sm)) ->
  t < List.length (selections sm) ->
  let sm' := setActiveSelection sm (selection_id (t + 1)) in
  activeIndex sm' = Some t /\ activeCount sm' = 1 /\
  activeSelectionId sm' = Some (selection_id (t + 1)).
Proof.
  intros Hids Ht.
  destruct (activate_position (selections sm) 0 t Hids Ht) as ([s Hf] & Hi & Hc).
  cbv zeta in *. cbn [Nat.add] in *.
  unfold setActiveSelection, activeIndex, activeCount, getAllSelections.
  rewrite Hf. cbn [selections activeSelectionId].
  fold (countActive (modifyFound (hasId (selection_id (t + 1)))
                       (Selection.withActive true)
                       (map (Selection.withActive false) (selections sm)))).
  auto.
Qed.

Lemma cycle_step (n i : nat) :
  i < n ->
  (if Nat.ltb 0 i then i - 1 else n - 1) = (i + n - 1) mod n /\
  (if Nat.ltb i (n - 1) then i + 1 else 0) = (i + 1) mod n.
Proof.
  intro Hi. split.
  - destruct (Nat.ltb_spec 0 i).
    + apply Nat.mod_unique with (q := 1); lia.
    + apply Nat.mod_unique with (q := 0); lia.
  - destruct (Nat.ltb_spec i (n - 1)).
    + apply Nat.mod_unique with (q := 0); lia.
    + apply Nat.mod_unique with (q := 1); lia.
Qed.

End Cycling.

(** X18. The Tab key cycles the active selection.  In a non-empty store
    with contiguous ids, [switchToNextSelection] makes exactly one
    selection active: the one after the active one (before it, for the
    reverse direction), wrapping around at the ends, or the first one if
    none was active; [activeSelectionId] names it. *)
Theorem switchToNextSelection_cycles (sm : SelectionManager.t) (reverse : bool) :
  SelectionManager.ids sm
    = SelectionManager.contiguous_ids (List.length (SelectionManager.selections sm)) ->
  SelectionManager.selections sm <> [] ->
  let n := List.length (SelectionManager.selections sm) in
  let target := cycleTarget n (activeIndex sm) reverse in
  let sm' := EventHandler.switchToNextSelection sm reverse in
  activeIndex sm' = Some target /\
  SelectionManager.activeCount sm' = 1%nat /\
  SelectionManager.activeSelectionId sm'
    = Some (SelectionManager.selection_id (target + 1)).
Proof.
  intros Hids Hne n target sm'.
  assert (Hn : (0 < n)%nat).
  { subst n. destruct (SelectionManager.selections sm); [congruence | cbn; lia]. }
  (* the computed index is the cycle target *)
  assert (Hnext : EventHandler.nextSelectionIndex sm reverse = target /\
                  (target < n)%nat).
  { subst target.
    unfold EventHandler.nextSelectionIndex, cycleTarget, activeIndex,
      SelectionManager.getActiveSelection, SelectionManager.getAllSelections.
    pose proof (find_vs_findIndex Selection.active (SelectionManager.selections sm)) as Hfi.
    destruct (findIndex Selection.active (SelectionManager.selections sm)) as [i|].
    - destruct Hfi as (s & Hnth & Hfind & _). rewrite Hfind.
      destruct (id_at_position (SelectionManager.selections sm) 0 i s Hids Hnth)
        as [Eid Efi].
      cbn [Nat.add] in Eid, Efi. rewrite Eid, Efi.
      assert (Hi : (i < n)%nat)
        by (subst n; apply nth_error_Some; congruence).
      destruct (cycle_step n i Hi) as [Hr Hf]. fold n.
      destruct reverse.
      + split; [exact Hr|]. apply Nat.mod_upper_bound. lia.
      + split; [exact Hf|]. apply Nat.mod_upper_bound. lia.
    - rewrite Hfi. split; [reflexivity | exact Hn]. }
  destruct Hnext as [Hnext Ht].
  destruct (nth_error (SelectionManager.selections sm) target) as [s'|] eqn:Es';
    [|apply nth_error_None in Es'; subst n; lia].
  destruct (id_at_position (SelectionManager.selections sm) 0 target s' Hids Es')
    as [Eid _].
  cbn [Nat.add] in Eid.
  assert (Hsw : sm' = SelectionManager.setActiveSelection sm
                        (SelectionManager.selection_id (target + 1))).
  { subst sm'. unfold EventHandler.switchToNextSelection,
      SelectionManager.getAllSelections.
    rewrite Hnext.
    destruct (SelectionManager.selections sm) as [|first rest] eqn:El; [congruence|].
    now rewrite (nth_error_nth _ _ first Es'), Eid. }
  rewrite Hsw.
  apply setActiveSelection_at_position; [exact Hids | exact Ht].
Qed.

Lemma switchToNextSelection_cycles_witness :
  let sm := SelectionManager.run SelectionManager.new threeCreates in
  activeIndex sm = Some 2%nat /\
  activeIndex (EventHandler.switchToNextSelection sm false) = Some 0%nat /\
  SelectionManager.activeCount (EventHandler.switchToNextSelection sm false) = 1%nat.
Proof.
  cbv zeta. split; [reflexivity|].
  destruct (switchToNextSelection_cycles
              (SelectionManager.run SelectionManager.new threeCreates) false)
    as (Hi & Hc & _).
  - vm_compute. reflexivity.
  - vm_compute. discriminate.
  - split; [|exact Hc]. rewrite Hi. vm_compute. reflexivity.
Defined.

Lemma last_cons {A : Type} (a d : A) (l : list A) : last (a :: l) d = last l a.
Proof.
  revert a d. induction l as [|b l IH]; intros a d; [reflexivity|].
  change (last (a :: b :: l) d) with (last (b :: l) d).
  now rewrite (IH b d), (IH b a).
Qed.

(** One pointer move while panning. *)
Lemma handleMouseMove_panning (w : EventHandler.world) (px py : Q) :
  ImageManager.hasImage (EventHandler.images w) = true ->
  EventHandler.isPanning (EventHandler.handler w) = true ->
  EventHandler.handleMouseMove w px py
  = EventHandler.mkWorld
      (ImageManager.withOffset (EventHandler.images w)
         (ImageManager.offsetX (EventHandler.images w)
          + (px - Point.x (EventHandler.dragStartPos (EventHandler.handler w))))
         (ImageManager.offsetY (EventHandler.images w)
          + (py - Point.y (EventHandler.dragStartPos (EventHandler.handler w)))))
      (EventHandler.store w)
      (EventHandler.withDragStartPos (EventHandler.handler w) (Point.mk px py)).
Proof.
  intros Hi Hp. unfold EventHandler.handleMouseMove. now rewrite Hi, Hp.
Qed.

(** X19. Panning follows the pointer: while the handler is panning an
    image, after any run of pointer moves the offset has changed by
    exactly the last pointer position minus the position at which the
    gesture stood, whatever the intermediate samples; scale, displayed
    size and the selections are untouched and the pan goes on. *)
Theorem panning_follows_pointer (positions : list Point.t) :
  forall w : EventHandler.world,
    ImageManager.hasImage (EventHandler.images w) = true ->
    EventHandler.isPanning (EventHandler.handler w) = true ->
    let start := EventHandler.dragStartPos (EventHandler.handler w) in
    let stop := last positions start in
    let w' := pointerMoves w positions in
    ImageManager.offsetX (EventHandler.images w')
      == ImageManager.offsetX (EventHandler.images w) + (Point.x stop - Point.x start) /\
    ImageManager.offsetY (EventHandler.images w')
      == ImageManager.offsetY (EventHandler.images w) + (Point.y stop - Point.y start) /\
    ImageManager.scale (EventHandler.images w') = ImageManager.scale (EventHandler.images w) /\
    ImageManager.displayWidth (EventHandler.images w')
      = ImageManager.displayWidth (EventHandler.images w) /\
    ImageManager.displayHeight (EventHandler.images w')
      = ImageManager.displayHeight (EventHandler.images w) /\
    EventHandler.store w' = EventHandler.store w /\
    EventHandler.isPanning (EventHandler.handler w') = true.
Proof.
  induction positions as [|p positions IH]; intros w Hi Hp; cbv zeta.
  - cbn. repeat split; auto; lra.
  - unfold pointerMoves. cbn [fold_left].
    fold (pointerMoves (EventHandler.handleMouseMove w (Point.x p) (Point.y p))
                       positions).
    rewrite last_cons.
    rewrite (handleMouseMove_panning w (Point.x p) (Point.y p) Hi Hp).
    match goal with
    | |- context [pointerMoves ?w1 positions] =>
        destruct (IH w1) as (Hx & Hy & Hs & Hw & Hh & Hst & Hpan);
          [exact Hi | exact Hp |]
    end.
    cbv zeta in Hx, Hy, Hs, Hw, Hh, Hst, Hpan.
    cbn [EventHandler.images EventHandler.handler EventHandler.store
         EventHandler.withDragStartPos EventHandler.dragStartPos
         ImageManager.withOffset ImageManager.withView
         ImageManager.offsetX ImageManager.offsetY ImageManager.scale
         ImageManager.displayWidth ImageManager.displayHeight] in Hx, Hy, Hs, Hw, Hh, Hst.
    destruct p as [px py]. cbn [Point.x Point.y] in *.
    rewrite Hx, Hy, Hs, Hw, Hh, Hst.
    repeat split; auto; lra.
Qed.

Lemma panning_follows_pointer_witness :
  let w := EventHandler.handleMouseDown panWorld 10 10 in
  let w' := pointerMoves w [Point.mk 500 7; Point.mk (-3) 90; Point.mk 30 40] in
  ImageManager.offsetX (EventHandler.images w')
    == ImageManager.offsetX (EventHandler.images w) + (30 - 10) /\
  ImageManager.offsetY (EventHandler.images w')
    == ImageManager.offsetY (EventHandler.images w) + (40 - 10).
Proof.
  cbv zeta.
  destruct (panning_follows_pointer
              [Point.mk 500 7; Point.mk (-3) 90; Point.mk 30 40]
              (EventHandler.handleMouseDown panWorld 10 10))
    as (Hx & Hy & _); try reflexivity.
  split; [exact Hx | exact Hy].
Defined.

(** Splits on every test of the goal. *)
Ltac case_tests :=
  repeat match goal with
  | |- context [match ?x with _ => _ end] =>
      lazymatch x with
      | context [match _ with _ => _ end] => fail
      | _ => destruct x eqn:?
      end
  | |- context [if ?x then _ else _] =>
      lazymatch x with
      | context [if _ then _ else _] => fail
      | _ => destruct x eqn:?
      end
  end.

Lemma handleMouseDown_starts_one_gesture (w : EventHandler.world) (px py : Q) :
  EventHandler.idle (EventHandler.handler w) ->
  betweenDownAndUp (EventHandler.handleMouseDown w px py) /\
  EventHandler.mode (EventHandler.handler (EventHandler.handleMouseDown w px py))
    = EventHandler.mode (EventHandler.handler w).
Proof.
  destruct w as [im sm eh]. destruct eh as [m d1 d2 d3 d4 pos ah cs os].
  unfold EventHandler.idle, betweenDownAndUp, inGesture.
  cbn [EventHandler.handler EventHandler.images EventHandler.isDrawing
       EventHandler.isDragging EventHandler.isResizing EventHandler.isPanning
       EventHandler.activeHandle EventHandler.currentSelection
       EventHandler.originalSelection EventHandler.mode].
  intros (-> & -> & -> & -> & -> & -> & ->).
  unfold EventHandler.handleMouseDown.
  cbn [EventHandler.handler EventHandler.images EventHandler.store
       EventHandler.withDragStartPos EventHandler.mode EventHandler.isDrawing
       EventHandler.isDragging EventHandler.isResizing EventHandler.isPanning
       EventHandler.activeHandle EventHandler.currentSelection
       EventHandler.originalSelection EventHandler.dragStartPos].
  destruct (ImageManager.hasImage im) eqn:Hi; cbn [negb];
    [|cbn; split; [left; repeat split | reflexivity]].
  destruct m.
  - destruct (ImageManager.isPointInImage im px py); cbn [negb];
      [|cbn; split; [left; repeat split | reflexivity]].
    cbv zeta.
    destruct (findIndex Selection.active (SelectionManager.selections sm)) as [ref|];
      [destruct (nth_error (SelectionManager.selections sm) ref) as [a|];
       [destruct (EventHandler.getResizeHandle im px py a)|]|];
      try (cbn; split; [right; split; [exact Hi | tauto] | reflexivity]);
      destruct (EventHandler.findSelectionAtPoint im sm px py);
      cbn; (split; [right; split; [exact Hi | tauto] | reflexivity]).
  - cbn. split; [right; split; [exact Hi | tauto] | reflexivity].
Qed.

Lemma handleMouseMove_keeps_gesture (w : EventHandler.world) (px py : Q) :
  betweenDownAndUp w ->
  betweenDownAndUp (EventHandler.handleMouseMove w px py) /\
  EventHandler.mode (EventHandler.handler (EventHandler.handleMouseMove w px py))
    = EventHandler.mode (EventHandler.handler w).
Proof.
  destruct w as [im sm eh]. destruct eh as [m d1 d2 d3 d4 pos ah cs os].
  unfold betweenDownAndUp, EventHandler.idle, inGesture, EventHandler.handleMouseMove.
  cbn [EventHandler.handler EventHandler.images EventHandler.store
       EventHandler.withDragStartPos EventHandler.mode EventHandler.isDrawing
       EventHandler.isDragging EventHandler.isResizing EventHandler.isPanning
       EventHandler.activeHandle EventHandler.currentSelection
       EventHandler.originalSelection EventHandler.dragStartPos].
  intro H.
  destruct (negb (ImageManager.hasImage im)) eqn:Hn; [auto|].
  apply negb_false_iff in Hn.
  destruct d4; [cbn; split; [|reflexivity]|].
  - right. split; [unfold ImageManager.hasImage in *; exact Hn|].
    destruct H as [H | [_ H]]; intuition congruence.
  - destruct d1, d3, cs, ah, d2; exact (conj H eq_refl).
Qed.

Lemma pointerMoves_keep_gesture (positions : list Point.t) :
  forall w : EventHandler.world,
    betweenDownAndUp w ->
    betweenDownAndUp (pointerMoves w positions) /\
    EventHandler.mode (EventHandler.handler (pointerMoves w positions))
      = EventHandler.mode (EventHandler.handler w).
Proof.
  induction positions as [|p positions IH]; intros w H; [auto|].
  unfold pointerMoves. cbn [fold_left].
  fold (pointerMoves (EventHandler.handleMouseMove w (Point.x p) (Point.y p)) positions).
  destruct (handleMouseMove_keeps_gesture w (Point.x p) (Point.y p) H) as [H1 M1].
  destruct (IH _ H1) as [H2 M2]. split; [exact H2 | congruence].
Qed.

Lemma handleMouseUp_ends_gesture (w : EventHandler.world) (px py : Q) :
  betweenDownAndUp w ->
  exists w' : EventHandler.world,
    EventHandler.handleMouseUp w px py = Returns tt w' /\
    EventHandler.idle (EventHandler.handler w') /\
    EventHandler.mode (EventHandler.handler w') = EventHandler.mode (EventHandler.handler w) /\
    EventHandler.images w' = EventHandler.images w.
Proof.
  destruct w as [im sm eh]. destruct eh as [m d1 d2 d3 d4 pos ah cs os].
  unfold betweenDownAndUp, EventHandler.idle, inGesture, EventHandler.handleMouseUp.
  cbn [EventHandler.handler EventHandler.images EventHandler.store
       EventHandler.mode EventHandler.isDrawing
       EventHandler.isDragging EventHandler.isResizing EventHandler.isPanning
       EventHandler.activeHandle EventHandler.currentSelection
       EventHandler.originalSelection EventHandler.dragStartPos].
  intros [(-> & -> & -> & -> & -> & -> & ->) | [Hi H]].
  - destruct (ImageManager.hasImage im); cbn [negb];
      eexists; (split; [reflexivity|]); cbn; auto 10.
  - rewrite Hi. cbn [negb].
    destruct H as [(-> & -> & -> & -> & -> & -> & ->)
                  | [(-> & -> & -> & -> & -> & -> & ->)
                    | [(-> & -> & -> & -> & -> & ->) | (-> & -> & -> & ->)]]].
    + eexists. split; [reflexivity|]. cbn. auto 10.
    + match goal with
      | |- context [EventHandler.commitDrawing ?e im sm px py] =>
          pose proof (commitDrawing_never_throws e im sm px py) as Hn;
          destruct (EventHandler.commitDrawing e im sm px py) as [v sm'|msg sm'];
          [|discriminate Hn]
      end.
      eexists. split; [reflexivity|]. cbn. auto 10.
    + eexists. split; [reflexivity|]. cbn. auto 10.
    + eexists. split; [reflexivity|]. cbn. auto 10.
Qed.

(** X20. A complete gesture returns the handler to idle.  From an idle
    handler, a pointer-down, any run of pointer moves and a pointer-up
    never throw and end with all four gesture flags false and the handle,
    the selection reference and the snapshot cleared; the mode and the
    loaded image are the ones before. *)
Theorem gesture_returns_to_idle
        (w : EventHandler.world) (downX downY upX upY : Q)
        (positions : list Point.t) :
  EventHandler.idle (EventHandler.handler w) ->
  exists w' : EventHandler.world,
    EventHandler.handleMouseUp
      (pointerMoves (EventHandler.handleMouseDown w downX downY) positions) upX upY
    = Returns tt w' /\
    EventHandler.idle (EventHandler.handler w') /\
    EventHandler.mode (EventHandler.handler w') = EventHandler.mode (EventHandler.handler w) /\
    ImageManager.hasImage (EventHandler.images w')
      = ImageManager.hasImage (EventHandler.images w).
Proof.
  intro Hidle.
  destruct (handleMouseDown_starts_one_gesture w downX downY Hidle) as [H1 M1].
  destruct (pointerMoves_keep_gesture positions _ H1) as [H2 M2].
  destruct (handleMouseUp_ends_gesture _ upX upY H2) as (w' & E & Hi & M3 & Him).
  exists w'. split; [exact E|]. split; [exact Hi|]. split; [congruence|].
  rewrite Him.
  assert (Hmoves : forall ps v,
            ImageManager.hasImage (EventHandler.images (pointerMoves v ps))
            = ImageManager.hasImage (EventHandler.images v)).
  { induction ps as [|p ps IHp]; intro v; [reflexivity|].
    unfold pointerMoves. cbn [fold_left].
    fold (pointerMoves (EventHandler.handleMouseMove v (Point.x p) (Point.y p)) ps).
    rewrite IHp. unfold EventHandler.handleMouseMove.
    case_tests; reflexivity. }
  rewrite Hmoves. unfold EventHandler.handleMouseDown.
  case_tests; reflexivity.
Qed.

Lemma gesture_returns_to_idle_witness :
  exists w' : EventHandler.world,
    EventHandler.handleMouseUp
      (pointerMoves (EventHandler.handleMouseDown panWorld 10 10)
                    [Point.mk 30 40]) 30 40
    = Returns tt w' /\
    EventHandler.idle (EventHandler.handler w').
Proof.
  destruct (gesture_returns_to_idle panWorld 10 10 30 40 [Point.mk 30 40])
    as (w' & E & Hi & _).
  - repeat split.
  - exists w'. auto.
Defined.

(** ** Labels and file names *)

Lemma isDigit_not_underscore (c : ascii) :
  isDigit c = true -> Ascii.eqb c "_" = false.
Proof.
  intro H. destruct (Ascii.eqb_spec c "_") as [->|]; [discriminate H | reflexivity].
Qed.

Lemma isDigit_not_dot (c : ascii) : isDigit c = true -> c <> "."%char.
Proof. intros H ->. discriminate H. Qed.

Lemma allDigits_string_of_uint (d : Decimal.uint) :
  allDigits (NilEmpty.string_of_uint d) = true.
Proof. induction d; cbn; auto. Qed.

Lemma allDigits_decimal (n : nat) : allDigits (decimal n) = true.
Proof. apply allDigits_string_of_uint. Qed.

Lemma split_allDigits (s : string) :
  allDigits s = true -> split "_" s = [s].
Proof.
  induction s as [|c r IH]; [reflexivity|].
  cbn [allDigits split]. intro H. apply andb_true_iff in H as [Hc Hr].
  rewrite (isDigit_not_underscore c Hc), (IH Hr). reflexivity.
Qed.

Lemma split_selection_id (n : nat) :
  split "_" (SelectionManager.selection_id n) = ["selection"%string; decimal n].
Proof.
  unfold SelectionManager.selection_id.
  pose proof (split_allDigits (decimal n) (allDigits_decimal n)) as H.
  revert H. generalize (decimal n). intros d H.
  cbn. rewrite H. reflexivity.
Qed.

(** X21. The numbers drawn on the selections.  Along every sequence of
    store operations whose updates pass coordinates only, after each
    operation [getSelectionIndex] gives, for the selections in the order of
    the array, the decimal numerals ["1"], ..., ["N"]: the label of a
    selection is its place in the list. *)
Theorem drawn_labels_count_from_one
        (ops : list SelectionManager.op) (k : nat) :
  forallb SelectionManager.coordinates_only ops = true ->
  let st := SelectionManager.run SelectionManager.new (firstn k ops) in
  map CanvasRenderer.getSelectionIndex (SelectionManager.getAllSelections st)
  = map Some (SelectionManager.bare_ids
                (List.length (SelectionManager.getAllSelections st))).
Proof.
  intros Hops st.
  destruct (store_invariant_run (firstn k ops) SelectionManager.new)
    as (H & _).
  - apply forallb_firstn. exact Hops.
  - reflexivity.
  - cbn. lia.
  - intros s [].
  - fold st in H. unfold SelectionManager.ids in H.
    unfold SelectionManager.getAllSelections in *.
    transitivity (map (fun id : string => nth_error (split "_" id) 1)
                      (map Selection.id (SelectionManager.selections st)));
      [now rewrite map_map|].
    rewrite H. unfold SelectionManager.contiguous_ids, SelectionManager.bare_ids.
    rewrite !map_map. apply map_ext. intro n.
    now rewrite split_selection_id.
Qed.

Lemma drawn_labels_count_from_one_witness :
  let st := SelectionManager.run SelectionManager.new (firstn 4 numberingScenario) in
  map CanvasRenderer.getSelectionIndex (SelectionManager.getAllSelections st)
  = map Some (SelectionManager.bare_ids
                (List.length (SelectionManager.getAllSelections st))).
Proof.
  apply (drawn_labels_count_from_one numberingScenario 4).
  reflexivity.
Defined.

Lemma string_append_assoc (a b c : string) :
  ((a ++ b) ++ c = a ++ (b ++ c))%string.
Proof. induction a as [|x a IH]; cbn; [reflexivity | now rewrite IH]. Qed.

Lemma string_append_inj_l (a b c : string) :
  (a ++ b = a ++ c)%string -> b = c.
Proof. induction a as [|x a IH]; cbn; intro H; [exact H | injection H; auto]. Qed.

Lemma endsWith_refl (s : string) : endsWith s s = true.
Proof. destruct s; cbn [endsWith]; now rewrite String.eqb_refl. Qed.

Lemma endsWith_append (a b suffix : string) :
  endsWith b suffix = true -> endsWith (a ++ b) suffix = true.
Proof.
  intro H. induction a as [|x a IH]; [exact H|].
  cbn [append endsWith]. rewrite IH. apply orb_true_r.
Qed.

(** A suffix of [a ++ b] is a suffix of [b], or has [b] as a suffix. *)
Lemma endsWith_append_inv (a b suffix : string) :
  endsWith (a ++ b) suffix = true ->
  endsWith b suffix = true \/ endsWith suffix b = true.
Proof.
  induction a as [|x a IH]; [auto|].
  cbn [append endsWith]. intro H. apply orb_true_iff in H as [H|H]; [|auto].
  apply String.eqb_eq in H. subst suffix. right.
  change (String x (a ++ b)) with (String x a ++ b)%string.
  apply endsWith_append, endsWith_refl.
Qed.

Lemma generateFilename_shape (config : ExportManager.Config) (index : nat) :
  ExportManager.generateFilename config index
  = ((ExportManager.prefix config ++ "_" ++ decimal index) ++ "." ++
     (if String.eqb (ExportManager.format config) "jpeg"
      then "jpg" else ExportManager.format config))%string.
Proof.
  unfold ExportManager.generateFilename. cbv zeta.
  now rewrite !string_append_assoc.
Qed.

(** X22. The exported file keeps the chosen format.  For each of the
    three formats of the export dialog, whatever the prefix and the index,
    the MIME type that [cropSelection] reads off the name made by
    [generateFilename] is ["image/"] followed by the format. *)
Theorem export_filename_keeps_format
        (config : ExportManager.Config) (index : nat) :
  In (ExportManager.format config) exportFormats ->
  ExportManager.mimeType (ExportManager.generateFilename config index)
  = ("image/" ++ ExportManager.format config)%string.
Proof.
  intro H. rewrite generateFilename_shape. unfold ExportManager.mimeType.
  destruct H as [E | [E | [E | []]]]; rewrite <- E; cbn [String.eqb Ascii.eqb].
  - destruct (endsWith _ ".jpg") eqn:E1;
      [apply endsWith_append_inv in E1 as [E1|E1]; discriminate E1|].
    destruct (endsWith _ ".webp") eqn:E2;
      [apply endsWith_append_inv in E2 as [E2|E2]; discriminate E2|].
    reflexivity.
  - rewrite endsWith_append; reflexivity.
  - destruct (endsWith _ ".jpg") eqn:E1;
      [apply endsWith_append_inv in E1 as [E1|E1]; discriminate E1|].
    rewrite endsWith_append; reflexivity.
Qed.

Lemma export_filename_keeps_format_witness :
  ExportManager.mimeType
    (ExportManager.generateFilename (ExportManager.mkConfig "cropped" "jpeg") 3)
  = "image/jpeg"%string.
Proof.
  apply (export_filename_keeps_format (ExportManager.mkConfig "cropped" "jpeg") 3).
  cbn. auto.
Defined.

Lemma digits_before_dot (s1 s2 r1 r2 : string) :
  allDigits s1 = true -> allDigits s2 = true ->
  (s1 ++ String "." r1 = s2 ++ String "." r2)%string -> s1 = s2.
Proof.
  revert s2. induction s1 as [|c s1 IH]; intros [|d s2]; cbn [allDigits append];
    intros H1 H2 E.
  - reflexivity.
  - apply andb_true_iff in H2 as [Hd _]. injection E as E _.
    exfalso. apply (isDigit_not_dot d Hd). congruence.
  - apply andb_true_iff in H1 as [Hc _]. injection E as E _.
    exfalso. apply (isDigit_not_dot c Hc). congruence.
  - apply andb_true_iff in H1 as [_ H1]. apply andb_true_iff in H2 as [_ H2].
    injection E as -> E. f_equal. now apply IH.
Qed.

(** X23. One export never names two files alike: under one
    configuration, [generateFilename] gives different names to different
    indices. *)
Theorem export_filenames_distinct
        (config : ExportManager.Config) (i j : nat) :
  i <> j ->
  ExportManager.generateFilename config i
  <> ExportManager.generateFilename config j.
Proof.
  intros Hij E. apply Hij. unfold ExportManager.generateFilename in E.
  cbv zeta in E. apply string_append_inj_l in E. cbn [append] in E.
  injection E as E. apply decimal_inj.
  apply (digits_before_dot _ _ _ _ (allDigits_decimal i) (allDigits_decimal j) E).
Qed.

Lemma export_filenames_distinct_witness :
  ExportManager.generateFilename (ExportManager.mkConfig "my_image" "png") 1
  <> ExportManager.generateFilename (ExportManager.mkConfig "my_image" "png") 11.
Proof.
  apply (export_filenames_distinct (ExportManager.mkConfig "my_image" "png") 1 11).
  discriminate.
Defined.

(** X24. [focusSelection] brings the selection into view.  On a canvas
    of non-negative size and for the id of a stored selection, after the
    call the centre of the selection lies on the canvas, the scale is the
    one before, and [activeSelectionId] is the id. *)
Theorem focusSelection_brings_centre_into_view
        (canvasWidth canvasHeight : Q)
        (im : ImageManager.t) (sm : SelectionManager.t)
        (selectionId : string) (selection : Selection.t) :
  0 <= canvasWidth -> 0 <= canvasHeight ->
  find (SelectionManager.hasId selectionId) (SelectionManager.getAllSelections sm)
    = Some selection ->
  let result := ImageCropApp.focusSelection canvasWidth canvasHeight im sm selectionId in
  let centre :=
    ImageManager.imageToCanvas (fst result)
      (Selection.x selection + Selection.width selection / 2)
      (Selection.y selection + Selection.height selection / 2) in
  0 <= Point.x centre <= canvasWidth /\
  0 <= Point.y centre <= canvasHeight /\
  ImageManager.scale (fst result) = ImageManager.scale im /\
  SelectionManager.activeSelectionId (snd result) = Some selectionId.
Proof.
  intros Hw Hh Hfind. unfold ImageCropApp.focusSelection. rewrite Hfind.
  cbv zeta.
  assert (Hactive : SelectionManager.activeSelectionId
                      (SelectionManager.setActiveSelection sm selectionId)
                    = Some selectionId).
  { unfold SelectionManager.setActiveSelection. cbv zeta.
    destruct (find (SelectionManager.hasId selectionId)
                   (map (Selection.withActive false) (SelectionManager.selections sm)))
      eqn:E; [reflexivity|].
    exfalso. apply find_some in Hfind as [Hin Hid].
    pose proof (List.find_none _ _ E (Selection.withActive false selection)
                  (in_map _ _ _ Hin)) as Hn.
    unfold SelectionManager.hasId in *. cbn [Selection.withActive Selection.id] in Hn.
    congruence. }
  unfold ImageManager.imageToCanvas.
  cbn [Point.x Point.y].
  set (cx := Selection.x selection + Selection.width selection / 2).
  set (cy := Selection.y selection + Selection.height selection / 2).
  destruct (Qltb (cx * ImageManager.scale im + ImageManager.offsetX im) 0) eqn:E1;
    cbn [orb fst snd];
    [|apply Qltb_ge in E1;
      destruct (Qltb canvasWidth (cx * ImageManager.scale im + ImageManager.offsetX im))
        eqn:E2; cbn [orb fst snd];
      [|apply Qltb_ge in E2;
        destruct (Qltb (cy * ImageManager.scale im + ImageManager.offsetY im) 0) eqn:E3;
          cbn [orb fst snd];
        [|apply Qltb_ge in E3;
          destruct (Qltb canvasHeight (cy * ImageManager.scale im + ImageManager.offsetY im))
            eqn:E4; cbn [orb fst snd];
          [|apply Qltb_ge in E4; repeat split; auto]]]];
    cbn [ImageManager.withOffset ImageManager.withView ImageManager.scale
         ImageManager.offsetX ImageManager.offsetY];
    generalize (cx * ImageManager.scale im); intro px;
    generalize (cy * ImageManager.scale im); intro py;
    assert (Hdw : canvasWidth / 2 * 2 == canvasWidth)
      by (apply Qdiv_mul_cancel; lra);
    assert (Hdh : canvasHeight / 2 * 2 == canvasHeight)
      by (apply Qdiv_mul_cancel; lra);
    revert Hdw Hdh; generalize (canvasWidth / 2); generalize (canvasHeight / 2);
    intros hh hw Hdw Hdh;
    (repeat split; [lra | lra | lra | lra | exact Hactive]).
Qed.

Lemma focusSelection_brings_centre_into_view_witness :
  let result := ImageCropApp.focusSelection 800 600 testView cornerStore "selection_1" in
  let centre := ImageManager.imageToCanvas (fst result) (0 + 50 / 2) (0 + 50 / 2) in
  0 <= Point.x centre <= 800 /\
  0 <= Point.y centre <= 600 /\
  ImageManager.scale (fst result) = ImageManager.scale testView /\
  SelectionManager.activeSelectionId (snd result) = Some "selection_1"%string.
Proof.
  apply (focusSelection_brings_centre_into_view
           800 600 testView cornerStore "selection_1"
           (Selection.mk "selection_1" 0 0 50 50 true));
    [discriminate | discriminate | reflexivity].
Defined.
